(** * bamUtil [dedup]: the duplicate-marking engine of [src/Dedup.cpp]

    A shallow embedding of [Dedup::execute], [Dedup::cleanupPriorReads],
    [Dedup::hasPositionChanged], [Dedup::checkDups], [Dedup::getBaseQuality],
    [Dedup::buildReadGroupLibraryMap], [Dedup::getLibraryID],
    [Dedup::handleNonDuplicate] and [Dedup::handleMissingMate].

    The three tracking maps are [std::map]/[std::multimap]: they are kept as
    association lists in key order, because the code iterates them in order,
    takes [lower_bound]s and erases prefixes.  The read-group dictionary is
    only ever looked up by key and is a [gmap].  Integers are [Z]; the record
    counts ([uint32_t]) and quality sums ([int]) of the code are taken to stay
    inside their 32 bits, the two places where the code converts between
    widths ([combineChromPos], [cleanupKey]) are written out.

    Dedup.h, Logger.h and the alignment library (SamRecord, SamFlag,
    SamHelper, the record pool, the recalibration) are not among the sources.
    What the code uses of them is modelled from the spec and marked so; the
    record pool is its capacity and the list of records released so far. *)

From Stdlib Require Import ZArith List String Ascii Bool Lia.
From stdpp Require Import base option list gmap strings sorting.
Import ListNotations.

Local Open Scope Z_scope.

(** ** Fatal conditions

    Modelled from the spec: the logging collaborator (Logger.h is not part of
    the sources).  "All fatal conditions terminate the run immediately";
    warnings are reported and "processing continues".  So [Logger::error]
    ends the run and [Logger::warning] returns; a method that may reach
    [Logger::error] returns a [Result].  [PoolExhausted] is the one end of a
    run that does not go through the logger: [execute] writes "Failed to
    allocate enough records" and returns -1. *)

Inductive FatalError : Type :=
  | PoolExhausted
  | AlreadyDuplicateMarked
  | MissingReadGroupID
  | DuplicateReadGroupID (ID : string)
  | TooManyLibraries
  | MultipleRGTag (readName : string)
  | NoRGTag (readName : string)
  | RGTagNotString
  | NullRecordDereference.

Inductive Result (A : Type) : Type :=
  | Ok (a : A)
  | Fatal (e : FatalError).
Arguments Ok {A} a.
Arguments Fatal {A} e.

#[global] Instance Result_ret : MRet Result := fun A a => Ok a.
#[global] Instance Result_bind : MBind Result := fun A B f m =>
  match m with
  | Ok a => f a
  | Fatal e => Fatal e
  end.

(** Lines written to [std::cerr] or through [Logger::warning] by the code
    modelled here. *)
Inductive LogLine : Type :=
  | WarnNoLibrary (ID : string)
  | WarnUnknownRG (rgID : string)
  | MateOnDifferentChromNotFound
  | MissingMateCannotBeChecked.

(** ** Alignment records *)

Module SamFlag.
(** Modelled from the spec: the flag bits of an alignment record (paired,
    proper-pair, reverse, QC-fail, mapped, mate-mapped, duplicate).  The
    accessors live in the alignment library's SamFlag.h, which is not part of
    the sources; the bit values are those [Dedup::execute] itself uses
    ([0x0001], [0x0008], [0x400]). *)
Definition PAIRED : Z := 0x1.
Definition PROPER_PAIR : Z := 0x2.
Definition UNMAPPED : Z := 0x4.
Definition MATE_UNMAPPED : Z := 0x8.
Definition REVERSE : Z := 0x10.
Definition FAILED_QUALITY : Z := 0x200.
Definition DUPLICATE : Z := 0x400.

Definition bitSet (flag mask : Z) : bool := negb (Z.land flag mask =? 0).

Definition isPaired (flag : Z) : bool := bitSet flag PAIRED.
Definition isProperPair (flag : Z) : bool := bitSet flag PROPER_PAIR.
Definition isMapped (flag : Z) : bool := negb (bitSet flag UNMAPPED).
Definition isMateMapped (flag : Z) : bool := negb (bitSet flag MATE_UNMAPPED).
Definition isReverse (flag : Z) : bool := bitSet flag REVERSE.
Definition isQCFailure (flag : Z) : bool := bitSet flag FAILED_QUALITY.
Definition isDuplicate (flag : Z) : bool := bitSet flag DUPLICATE.
(** 16-bit flag with the duplicate bit cleared. *)
Definition setNotDuplicate (flag : Z) : Z := Z.land flag 0xfbff.
End SamFlag.

(** One optional field of a record: two tag characters, the value type and
    the value (only string values matter here). *)
Record SamTag : Type := mkTag {
  tag0 : ascii;
  tag1 : ascii;
  vtype : ascii;
  tagValue : string
}.

(** Modelled from the spec: an alignment record of the alignment store,
    "exposing flag bits, reference id + 0-based position (and same for mate),
    read name, per-base quality string, read length, arbitrary tag lookup".
    [clippedStart] is the strand-aware clipped 5' position that
    [DupKey::updateKey] derives from the alignment (see [updateKey]). *)
Record SamRecord : Type := mkRecord {
  getFlag : Z;
  getReferenceID : Z;
  get0BasedPosition : Z;
  getMateReferenceID : Z;
  get0BasedMatePosition : Z;
  getReadName : string;
  getQuality : string;
  getReadLength : Z;
  getTags : list SamTag;
  clippedStart : Z
}.

Definition setFlag (r : SamRecord) (f : Z) : SamRecord :=
  mkRecord f (getReferenceID r) (get0BasedPosition r) (getMateReferenceID r)
           (get0BasedMatePosition r) (getReadName r) (getQuality r)
           (getReadLength r) (getTags r) (clippedStart r).

Module SamHelper.
(** Modelled from the spec: the linearized genomic position of
    (chromosome, offset), "chromosome x length + offset", as the alignment
    library's SamHelper.h computes it in 64 bits: the chromosome id in the
    high 32 bits, the position in the low 32 bits. *)
Definition combineChromPos (chromID position : Z) : Z :=
  Z.lor (Z.shiftl (chromID mod 2^64) 32 mod 2^64) (Z.land position 0xFFFFFFFF).
End SamHelper.

(** ** Keys *)

Definition DEFAULT_MIN_QUAL : Z := 15.
Definition CLIP_OFFSET : Z := 1000.

(** A signed 32-bit value from any integer (two's complement). *)
Definition toInt32 (z : Z) : Z := (z + 2^31) mod 2^32 - 2^31.

(** Modelled from the spec: ReadKey, declared in Dedup.h (not part of the
    sources): "chromosome id, 0-based clipped start position, strand, library
    id"; "two keys are equal iff all four fields match; ordering is
    lexicographic on (chromosome, position, strand, library)". *)
Record DupKey : Type := mkDupKey {
  reference : Z;
  coordinate : Z;
  orientation : bool;
  libraryID : Z
}.

(** The default-constructed key ([static DupKey emptyKey]). *)
Definition emptyKey : DupKey := mkDupKey 0 0 false 0.

(** Modelled from the spec: [keyOf(record, libraryId)]. *)
Definition updateKey (record : SamRecord) (libID : Z) : DupKey :=
  mkDupKey (getReferenceID record) (clippedStart record)
           (SamFlag.isReverse (getFlag record)) libID.

(** Modelled from the spec: the cutoff key that cleanup computes from the
    boundary record's reference and coordinate; the coordinate is moved back by
    the fixed clip offset, the remaining fields take their least values. *)
Definition cleanupKey (referenceID coord : Z) : DupKey :=
  mkDupKey referenceID (toInt32 (coord - CLIP_OFFSET)) false 0.

Definition bool_ltb (a b : bool) : bool := negb a && b.

Definition DupKey_ltb (a b : DupKey) : bool :=
  if reference a =? reference b then
    if coordinate a =? coordinate b then
      if Bool.eqb (orientation a) (orientation b) then
        libraryID a <? libraryID b
      else bool_ltb (orientation a) (orientation b)
    else coordinate a <? coordinate b
  else reference a <? reference b.

Definition DupKey_eqb (a b : DupKey) : bool :=
  (reference a =? reference b) && (coordinate a =? coordinate b)
  && Bool.eqb (orientation a) (orientation b) && (libraryID a =? libraryID b).

(** Modelled from the spec: PairKey, declared in Dedup.h: "an unordered pair
    of two ReadKeys, canonicalized (smaller key first)".  The paired map is
    flushed "for every entry strictly below the cutoff (by pair-key ordering
    derived from the boundary's own key)", and a cleanup "flushes all map
    entries strictly before the new position": pair keys are compared by
    their larger key ([key2]) first and by [key1] among equal ones, so that a
    pair is below the cutoff once both of its reads are. *)
Record PairedKey : Type := mkPairedKeyRaw {
  key1 : DupKey;
  key2 : DupKey
}.

Definition mkPairedKey (k1 k2 : DupKey) : PairedKey :=
  if DupKey_ltb k2 k1 then mkPairedKeyRaw k2 k1 else mkPairedKeyRaw k1 k2.

Definition PairedKey_ltb (a b : PairedKey) : bool :=
  if DupKey_eqb (key2 a) (key2 b) then DupKey_ltb (key1 a) (key1 b)
  else DupKey_ltb (key2 a) (key2 b).

(** ** Map entries (Dedup.h) *)

(** Modelled from the spec: ReadData, "summed base quality, 1-based record
    index in file order, ownership of the pooled record (or none if paired),
    paired flag".  A default-constructed value is all zero. *)
Record ReadData : Type := mkReadData {
  sumBaseQual : Z;
  recordPtr : option SamRecord;
  recordIndex : Z;
  paired : bool
}.

(** Modelled from the spec: PairData, "summed base quality across both mates,
    indices of both mates, ownership of both pooled records". *)
Record PairedData : Type := mkPairedData {
  pSumBaseQual : Z;
  record1Ptr : option SamRecord;
  record2Ptr : option SamRecord;
  record1Index : Z;
  record2Index : Z
}.

Definition defaultReadData : ReadData := mkReadData 0 None 0 false.
Definition defaultPairedData : PairedData := mkPairedData 0 None None 0 0.

(** ** Ordered containers

    [std::map] as an association list in increasing key order.  [om_insert]
    is [insert(make_pair(k, v))]: it leaves an existing entry alone and says
    whether it inserted; [om_put] is an assignment through the iterator that
    [insert] returned; [om_split] cuts the map at [lower_bound(k)]. *)

Section OrderedMap.
Context {K V : Type} (ltb : K -> K -> bool).

Fixpoint om_lookup (k : K) (m : list (K * V)) : option V :=
  match m with
  | [] => None
  | (k', v) :: m' =>
      if ltb k' k then om_lookup k m'
      else if ltb k k' then None
      else Some v
  end.

Fixpoint om_put (k : K) (v : V) (m : list (K * V)) : list (K * V) :=
  match m with
  | [] => [(k, v)]
  | (k', v') :: m' =>
      if ltb k' k then (k', v') :: om_put k v m'
      else if ltb k k' then (k, v) :: m
      else (k, v) :: m'
  end.

(** The map after the call, the value the returned iterator points to and
    the [second] component of the returned pair. *)
Definition om_insert (k : K) (v : V) (m : list (K * V))
  : list (K * V) * V * bool :=
  match om_lookup k m with
  | Some old => (m, old, false)
  | None => (om_put k v m, v, true)
  end.

(** [(begin .. lower_bound(k)), (lower_bound(k) .. end)]. *)
Fixpoint om_split (k : K) (m : list (K * V)) : list (K * V) * list (K * V) :=
  match m with
  | [] => ([], [])
  | e :: m' =>
      if ltb (fst e) k then
        let '(below, rest) := om_split k m' in (e :: below, rest)
      else ([], m)
  end.

(** Keys strictly increase along the list. *)
Definition om_sorted (m : list (K * V)) : Prop :=
  StronglySorted (fun a b => ltb a.1 b.1 = true) m.
End OrderedMap.

(** [std::multimap<uint64_t, ReadData>]: a new entry goes after the entries
    with an equal key. *)
Fixpoint mm_insert (pos : Z) (d : ReadData) (m : list (Z * ReadData))
  : list (Z * ReadData) :=
  match m with
  | [] => [(pos, d)]
  | (p, d') :: m' =>
      if p <=? pos then (p, d') :: mm_insert pos d m'
      else (pos, d) :: m
  end.

(** The loop over [myMateMap.equal_range(readPos)] of [checkDups]: the first
    entry at [readPos] whose record has the read name [name] is taken out of
    the map.  The entries of the mate map always hold a record; the loop
    dereferences it. *)
Definition keepEntry (e : Z * ReadData)
    (found : Result (option (ReadData * list (Z * ReadData))))
  : Result (option (ReadData * list (Z * ReadData))) :=
  match found with
  | Ok (Some (d, rest)) => Ok (Some (d, e :: rest))
  | other => other
  end.

Fixpoint findMate (readPos : Z) (name : string) (m : list (Z * ReadData))
  : Result (option (ReadData * list (Z * ReadData))) :=
  match m with
  | [] => Ok None
  | (p, d) :: m' =>
      if p <? readPos then keepEntry (p, d) (findMate readPos name m')
      else if readPos <? p then Ok None
      else
        match recordPtr d with
        | None => Fatal NullRecordDereference
        | Some mate =>
            if String.eqb (getReadName mate) name then Ok (Some (d, m'))
            else keepEntry (p, d) (findMate readPos name m')
        end
  end.

(** ** The engine *)

(** What is fixed before the first record is read: the command line, the
    dictionary that [buildReadGroupLibraryMap] builds from the header, and the
    two collaborators of the engine.

    Modelled from the spec: the record pool ([mySamPool]) and the
    recalibration collaborator ([myRecab]), both declared outside the sources.
    The pool is a "bounded allocator/recycler" of "fixed capacity":
    [poolCapacity] is the number of records that it can have in use at once.
    The recalibration collaborator has "applyTable(record) (called for every
    record, duplicate or not, during pass-2 write)": [processReadApplyTable]
    is what that call makes of a record, given the records that
    [processReadBuildTable] was called with in pass 1. *)
Record Settings : Type := mkSettings {
  myMinQual : Z;
  myOneChrom : bool;
  myDoRecab : bool;
  myForceFlag : bool;
  removeFlag : bool;
  numLibraries : Z;
  rgidLibMap : gmap string Z;
  poolCapacity : Z;
  processReadApplyTable : list SamRecord -> SamRecord -> SamRecord
}.

(** The members of [Dedup] that change while records are processed, the two
    function-local statics of [handleMissingMate], and what the collaborators
    were asked to do: [released] lists the records given back with
    [mySamPool.releaseRecord], [recabBuilt] those passed to
    [myRecab.processReadBuildTable], [logged] the lines written. *)
Record Dedup : Type := mkDedup {
  myFragmentMap : list (DupKey * ReadData);
  myPairedMap : list (PairedKey * PairedData);
  myMateMap : list (Z * ReadData);
  myDupList : list Z;
  myNumMissingMate : Z;
  lastReference : Z;
  lastCoordinate : Z;
  firstDifferChrom : bool;
  firstSameChrom : bool;
  released : list SamRecord;
  recabBuilt : list SamRecord;
  logged : list LogLine
}.

Definition setFragmentMap (m : list (DupKey * ReadData)) (s : Dedup) : Dedup :=
  mkDedup m (myPairedMap s) (myMateMap s) (myDupList s) (myNumMissingMate s)
          (lastReference s) (lastCoordinate s) (firstDifferChrom s)
          (firstSameChrom s) (released s) (recabBuilt s) (logged s).
Definition setPairedMap (m : list (PairedKey * PairedData)) (s : Dedup) : Dedup :=
  mkDedup (myFragmentMap s) m (myMateMap s) (myDupList s) (myNumMissingMate s)
          (lastReference s) (lastCoordinate s) (firstDifferChrom s)
          (firstSameChrom s) (released s) (recabBuilt s) (logged s).
Definition setMateMap (m : list (Z * ReadData)) (s : Dedup) : Dedup :=
  mkDedup (myFragmentMap s) (myPairedMap s) m (myDupList s) (myNumMissingMate s)
          (lastReference s) (lastCoordinate s) (firstDifferChrom s)
          (firstSameChrom s) (released s) (recabBuilt s) (logged s).
Definition setDupList (l : list Z) (s : Dedup) : Dedup :=
  mkDedup (myFragmentMap s) (myPairedMap s) (myMateMap s) l (myNumMissingMate s)
          (lastReference s) (lastCoordinate s) (firstDifferChrom s)
          (firstSameChrom s) (released s) (recabBuilt s) (logged s).
Definition setNumMissingMate (n : Z) (s : Dedup) : Dedup :=
  mkDedup (myFragmentMap s) (myPairedMap s) (myMateMap s) (myDupList s) n
          (lastReference s) (lastCoordinate s) (firstDifferChrom s)
          (firstSameChrom s) (released s) (recabBuilt s) (logged s).
Definition setLast (ref coord : Z) (s : Dedup) : Dedup :=
  mkDedup (myFragmentMap s) (myPairedMap s) (myMateMap s) (myDupList s)
          (myNumMissingMate s) ref coord (firstDifferChrom s)
          (firstSameChrom s) (released s) (recabBuilt s) (logged s).
Definition setFirstFlags (differ same : bool) (s : Dedup) : Dedup :=
  mkDedup (myFragmentMap s) (myPairedMap s) (myMateMap s) (myDupList s)
          (myNumMissingMate s) (lastReference s) (lastCoordinate s) differ
          same (released s) (recabBuilt s) (logged s).
Definition setReleased (l : list SamRecord) (s : Dedup) : Dedup :=
  mkDedup (myFragmentMap s) (myPairedMap s) (myMateMap s) (myDupList s)
          (myNumMissingMate s) (lastReference s) (lastCoordinate s)
          (firstDifferChrom s) (firstSameChrom s) l (recabBuilt s) (logged s).
Definition setRecabBuilt (l : list SamRecord) (s : Dedup) : Dedup :=
  mkDedup (myFragmentMap s) (myPairedMap s) (myMateMap s) (myDupList s)
          (myNumMissingMate s) (lastReference s) (lastCoordinate s)
          (firstDifferChrom s) (firstSameChrom s) (released s) l (logged s).
Definition setLogged (l : list LogLine) (s : Dedup) : Dedup :=
  mkDedup (myFragmentMap s) (myPairedMap s) (myMateMap s) (myDupList s)
          (myNumMissingMate s) (lastReference s) (lastCoordinate s)
          (firstDifferChrom s) (firstSameChrom s) (released s) (recabBuilt s) l.

(** The engine as [execute] sets it up before the first record. *)
Definition initialDedup : Dedup :=
  mkDedup [] [] [] [] 0 (-1) (-1) true true [] [] [].

Definition pushDup (index : Z) (s : Dedup) : Dedup :=
  setDupList (myDupList s ++ [index]) s.

Definition logLine (l : LogLine) (s : Dedup) : Dedup :=
  setLogged (logged s ++ [l]) s.

(** Modelled from the spec: [release(handle)] of the record pool "returns a
    handle to the free list"; a null pointer is ignored. *)
Definition releaseRecord (p : option SamRecord) (s : Dedup) : Dedup :=
  match p with
  | None => s
  | Some r => setReleased (released s ++ [r]) s
  end.

Definition logLines (l : list LogLine) (s : Dedup) : Dedup :=
  setLogged (logged s ++ l) s.

(** *** [Dedup::getBaseQuality] *)

(** [static_cast<int>] of a [char]. *)
Definition charToInt (c : ascii) : Z :=
  let n := Z.of_nat (nat_of_ascii c) in
  if n <? 128 then n else n - 256.

(** [baseQualities[i]]; the character after the last one is the terminating
    NUL of the C string. *)
Definition qualityAt (baseQualities : string) (i : nat) : ascii :=
  default Ascii.zero (String.get i baseQualities).

(** The [for] loop: [n] iterations remain, starting at index [i]. *)
Fixpoint sumQualities (minQual : Z) (baseQualities : string) (i n : nat)
    (quality : Z) : Z :=
  match n with
  | O => quality
  | S n' =>
      let q := charToInt (qualityAt baseQualities i) - 33 in
      sumQualities minQual baseQualities (S i) n'
        (if q >=? minQual then quality + q else quality)
  end.

Definition getBaseQuality (cfg : Settings) (record : SamRecord) : Z :=
  if String.eqb (getQuality record) "*" then 0
  else sumQualities (myMinQual cfg) (getQuality record) 0
         (Z.to_nat (getReadLength record)) 0.

(** *** [Dedup::buildReadGroupLibraryMap] *)

(** A read-group line of the header: its [ID] and [LB] values, empty when the
    tag is absent. *)
Record RGRecord : Type := mkRG { rgID : string; rgLB : string }.

Definition isEmpty (s : string) : bool := String.eqb s "".

(** The [while] loop over the header's read-group records; the result is
    [rgidLibMap], [numLibraries] and the warnings written. *)
Fixpoint buildLoop (rgs : list RGRecord) (rgidMap libNameMap : gmap string Z)
    (numLib : Z) (warned : list LogLine)
  : Result (gmap string Z * Z * list LogLine) :=
  match rgs with
  | [] => Ok (rgidMap, numLib, warned)
  | headerRecord :: rest =>
      let ID := rgID headerRecord in
      let LB := rgLB headerRecord in
      if isEmpty ID then Fatal MissingReadGroupID
      else if bool_decide (is_Some (rgidMap !! ID)) then
        Fatal (DuplicateReadGroupID ID)
      else
        let warned := if isEmpty LB then warned ++ [WarnNoLibrary ID]
                      else warned in
        match libNameMap !! LB with
        | Some lib => buildLoop rest (<[ID := lib]> rgidMap) libNameMap numLib warned
        | None =>
            let numLib := Z.of_nat (size libNameMap) + 1 in
            buildLoop rest (<[ID := numLib]> rgidMap) (<[LB := numLib]> libNameMap)
                      numLib warned
        end
  end.

Definition buildReadGroupLibraryMap (header : list RGRecord)
  : Result (gmap string Z * Z * list LogLine) :=
  built ← buildLoop header ∅ ∅ 0 [];
  if built.1.2 >? 0xff then Fatal TooManyLibraries else Ok built.

(** *** [Dedup::getLibraryID] *)

(** [SamRecord::isStringType] of the alignment library: ['Z'] is the type of
    a string value. *)
Definition isStringType (vt : ascii) : bool := Ascii.eqb vt "Z".

(** The [while] loop over the record's tags; [rgID] is the value found so
    far. *)
Fixpoint scanRGTags (readName : string) (tags : list SamTag) (rgID : string)
  : Result string :=
  match tags with
  | [] => Ok rgID
  | t :: rest =>
      if Ascii.eqb (tag0 t) "R" && Ascii.eqb (tag1 t) "G" && Ascii.eqb (vtype t) "Z"
      then
        if negb (isEmpty rgID) then Fatal (MultipleRGTag readName)
        else if isStringType (vtype t) then scanRGTags readName rest (tagValue t)
        else Fatal RGTagNotString
      else scanRGTags readName rest rgID
  end.

(** The library id of a record, with the warning written on the way. *)
Definition getLibraryID (cfg : Settings) (record : SamRecord) (checkTags : bool)
  : Result (Z * list LogLine) :=
  if negb checkTags && (numLibraries cfg <=? 1) then Ok (0, [])
  else
    rgID ← scanRGTags (getReadName record) (getTags record) "";
    if isEmpty rgID then Fatal (NoRGTag (getReadName record))
    else
      match rgidLibMap cfg !! rgID with
      | Some lib => Ok (lib, [])
      | None => Ok (0, [WarnUnknownRG rgID])
      end.

(** Modelled from the spec: the default of [checkTags] in the declaration of
    [getLibraryID] (Dedup.h, not part of the sources); both calls in
    [checkDups] rely on it.  The library id "is resolved once per record from a
    read-group tag, via a dictionary built from the header", with no checking
    of the tags asked for. *)
Definition checkTagsDefault : bool := false.

(** *** [Dedup::handleNonDuplicate] and [Dedup::handleMissingMate] *)

Definition handleNonDuplicate (cfg : Settings) (p : option SamRecord)
    (s : Dedup) : Dedup :=
  match p with
  | None => s
  | Some r =>
      if myDoRecab cfg then
        let r :=
          if myForceFlag cfg && SamFlag.isDuplicate (getFlag r)
          then setFlag r (SamFlag.setNotDuplicate (getFlag r))
          else r in
        releaseRecord (Some r) (setRecabBuilt (recabBuilt s ++ [r]) s)
      else releaseRecord (Some r) s
  end.

Definition handleMissingMate (cfg : Settings) (p : option SamRecord)
    (s : Dedup) : Dedup :=
  match p with
  | None => s
  | Some r =>
      let s :=
        if negb (getMateReferenceID r =? getReferenceID r) then
          if firstDifferChrom s
          then setFirstFlags false (firstSameChrom s)
                 (logLine MateOnDifferentChromNotFound s)
          else s
        else if firstSameChrom s
          then setFirstFlags (firstDifferChrom s) false
                 (logLine MissingMateCannotBeChecked s)
          else s in
      handleNonDuplicate cfg (Some r)
        (setNumMissingMate (myNumMissingMate s + 1) s)
  end.

(** *** [Dedup::cleanupPriorReads] *)

(** The loop over the mate map: it stops at the first entry at or after
    [mateStopPos] when a record was given, and hands every entry before that
    to [handleMissingMate].  The result is the map after
    [erase(begin, mateIter)]. *)
Fixpoint cleanupMates (cfg : Settings) (bounded : bool) (mateStopPos : Z)
    (m : list (Z * ReadData)) (s : Dedup) : list (Z * ReadData) * Dedup :=
  match m with
  | [] => ([], s)
  | e :: m' =>
      if bounded && (e.1 >=? mateStopPos) then (m, s)
      else cleanupMates cfg bounded mateStopPos m'
             (handleMissingMate cfg (recordPtr e.2) s)
  end.

Definition cleanupPriorReads (cfg : Settings) (record : option SamRecord)
    (s : Dedup) : Dedup :=
  (* where to stop: the end of each structure unless a record is given *)
  let '(fragmentDone, fragmentKept, (pairedDone, pairedKept), mateStopPos) :=
    match record with
    | None => (myFragmentMap s, [], (myPairedMap s, []), 0)
    | Some r =>
        let reference := getReferenceID r in
        let coordinate := get0BasedPosition r in
        let tempKey2 := cleanupKey reference coordinate in
        (om_split DupKey_ltb tempKey2 (myFragmentMap s),
         om_split PairedKey_ltb (mkPairedKey emptyKey tempKey2) (myPairedMap s),
         SamHelper.combineChromPos reference coordinate)
    end in
  let s :=
    fold_left
      (fun s e =>
         if negb (paired e.2) then handleNonDuplicate cfg (recordPtr e.2) s
         else s)
      fragmentDone s in
  let s := setFragmentMap fragmentKept s in
  let s :=
    fold_left
      (fun s e =>
         handleNonDuplicate cfg (record2Ptr e.2)
           (handleNonDuplicate cfg (record1Ptr e.2) s))
      pairedDone s in
  let s := setPairedMap pairedKept s in
  let '(mateKept, s) :=
    cleanupMates cfg (match record with Some _ => true | None => false end)
      mateStopPos (myMateMap s) s in
  setMateMap mateKept s.

(** *** [Dedup::hasPositionChanged] *)

Definition hasPositionChanged (record : SamRecord) (s : Dedup) : bool * Dedup :=
  if negb (lastReference s =? getReferenceID record)
     || (lastCoordinate s <? get0BasedPosition record)
  then (true, setLast (getReferenceID record) (get0BasedPosition record) s)
  else (false, s).

(** *** [Dedup::checkDups] *)

(** [recordPaired]: paired with a mapped mate, unless one-chromosome mode
    finds the mate on another chromosome. *)
Definition isRecordPaired (cfg : Settings) (record : SamRecord) : bool :=
  let flag := getFlag record in
  let recordPaired := SamFlag.isPaired flag && SamFlag.isMateMapped flag in
  if myOneChrom cfg && negb (getReferenceID record =? getMateReferenceID record)
  then false
  else recordPaired.

(** The fragment-map part of [checkDups] (from the [insert] to the end of the
    first [if]/[else]). *)
Definition fragmentStep (record : SamRecord) (recordCount : Z) (key : DupKey)
    (recordPaired : bool) (sumQual : Z) (s : Dedup) : Dedup :=
  let '(m, readData, inserted) :=
    om_insert DupKey_ltb key defaultReadData (myFragmentMap s) in
  let s := setFragmentMap m s in
  if inserted
     || (negb (paired readData)
         && (recordPaired || (sumQual >? sumBaseQual readData)))
  then
    let s :=
      if negb inserted
      then releaseRecord (recordPtr readData) (pushDup (recordIndex readData) s)
      else s in
    setFragmentMap
      (om_put DupKey_ltb key
         (mkReadData sumQual (if recordPaired then None else Some record)
                     recordCount recordPaired)
         (myFragmentMap s)) s
  else if negb recordPaired
    then releaseRecord (Some record) (pushDup recordCount s)
    else s.

(** [keepStored] of the paired-map part. *)
Definition keepStored (storedPair : PairedData) (sumQual mateIndex : Z) : bool :=
  if pSumBaseQual storedPair <? sumQual then false
  else if pSumBaseQual storedPair =? sumQual then
    if mateIndex <? record2Index storedPair then false else true
  else true.

(** The paired-map part of [checkDups] (from "Make the paired key" to the
    end): [sumQual] is the combined quality of the two mates. *)
Definition pairedStep (cfg : Settings) (record : SamRecord) (recordCount : Z)
    (key : DupKey) (sumQual : Z) (mateRecord : SamRecord) (mateIndex : Z)
    (s : Dedup) : Result Dedup :=
  lib ← getLibraryID cfg mateRecord checkTagsDefault;
  let s := logLines lib.2 s in
  let mateKey := updateKey mateRecord lib.1 in
  let pkey := mkPairedKey key mateKey in
  let '(m, storedPair, inserted) :=
    om_insert PairedKey_ltb pkey defaultPairedData (myPairedMap s) in
  let s := setPairedMap m s in
  let thisPair :=
    mkPairedData sumQual (Some record) (Some mateRecord) recordCount mateIndex in
  if negb inserted then
    if keepStored storedPair sumQual mateIndex then
      Ok (releaseRecord (Some mateRecord)
            (releaseRecord (Some record)
               (pushDup recordCount (pushDup mateIndex s))))
    else
      let s :=
        releaseRecord (record2Ptr storedPair)
          (releaseRecord (record1Ptr storedPair)
             (pushDup (record2Index storedPair)
                (pushDup (record1Index storedPair) s))) in
      Ok (setPairedMap (om_put PairedKey_ltb pkey thisPair (myPairedMap s)) s)
  else
    Ok (setPairedMap (om_put PairedKey_ltb pkey thisPair (myPairedMap s)) s).

Definition checkDups (cfg : Settings) (record : SamRecord) (recordCount : Z)
    (s : Dedup) : Result Dedup :=
  lib ← getLibraryID cfg record checkTagsDefault;
  let s := logLines lib.2 s in
  let key := updateKey record lib.1 in
  let recordPaired := isRecordPaired cfg record in
  let sumQual := getBaseQuality cfg record in
  let s := fragmentStep record recordCount key recordPaired sumQual s in
  if negb recordPaired then Ok s
  else
    let readPos :=
      SamHelper.combineChromPos (getReferenceID record)
                                (get0BasedPosition record) in
    let matePos :=
      SamHelper.combineChromPos (getMateReferenceID record)
                                (get0BasedMatePosition record) in
    found ← (if matePos <=? readPos
             then findMate readPos (getReadName record) (myMateMap s)
             else Ok None);
    let '(mateRecord, mateIndex, sumQual, s) :=
      match found with
      | Some (mateData, rest) =>
          (recordPtr mateData, recordIndex mateData,
           sumQual + sumBaseQual mateData, setMateMap rest s)
      | None => (None, 0, sumQual, s)
      end in
    match mateRecord with
    | None =>
        if matePos >=? readPos then
          Ok (setMateMap
                (mm_insert matePos
                   (mkReadData sumQual (Some record) recordCount false)
                   (myMateMap s)) s)
        else Ok (handleMissingMate cfg (Some record) s)
    | Some mateRecord =>
        pairedStep cfg record recordCount key sumQual mateRecord mateIndex s
    end.

(** *** [Dedup::execute]

    The input file is the list of records that [samIn.ReadRecord] delivers,
    read twice; [GetCurrentRecordCount] is the 1-based position in it.  The
    counters that only feed the summary log of pass 1 are left out. *)

Inductive Pass1 : Type :=
  | Pass1Done (s : Dedup)
    (** every record was read; [s] is the engine before the final cleanup *)
  | Pass1Abort (e : FatalError) (s : Dedup)
    (** the run ended in the loop; [s] is the engine as it was then *).

(** [mySamPool.getRecord()] returns NULL: every record of the pool is in
    use.  The loop has taken [recordCount] records from the pool, one for each
    record read, and [released] lists the records given back. *)
Definition poolExhausted (cfg : Settings) (recordCount : Z) (s : Dedup) : bool :=
  poolCapacity cfg <=? recordCount - Z.of_nat (length (released s)).

(** The engine when [checkDups] reaches [Logger::error]: as [checkDups] found
    it when the library of the record itself is not resolved; after the
    fragment-map step, and without the mate in the mate map, when the library
    of the mate is not. *)
Definition engineAtError (cfg : Settings) (record : SamRecord) (recordCount : Z)
    (s : Dedup) : Dedup :=
  match getLibraryID cfg record checkTagsDefault with
  | Fatal _ => s
  | Ok lib =>
      let s :=
        fragmentStep record recordCount (updateKey record lib.1)
          (isRecordPaired cfg record) (getBaseQuality cfg record)
          (logLines lib.2 s) in
      let readPos :=
        SamHelper.combineChromPos (getReferenceID record)
                                  (get0BasedPosition record) in
      match findMate readPos (getReadName record) (myMateMap s) with
      | Ok (Some (_, rest)) => setMateMap rest s
      | _ => s
      end
  end.

(** The first [while] loop; [recordCount] records were read before.  Each
    round takes a record from the pool before it asks the reader for the next
    record, also the last round, which finds the end of the input. *)
Fixpoint pass1 (cfg : Settings) (records : list SamRecord) (recordCount : Z)
    (s : Dedup) : Pass1 :=
  if poolExhausted cfg recordCount s then Pass1Abort PoolExhausted s
  else
    match records with
    | [] => Pass1Done s
    | record :: rest =>
        let flag := getFlag record in
        if SamFlag.isDuplicate flag && negb (myForceFlag cfg)
        then Pass1Abort AlreadyDuplicateMarked s
        else
          let recordCount := recordCount + 1 in
          let '(changed, s1) := hasPositionChanged record s in
          let s2 :=
            if changed then cleanupPriorReads cfg (Some record) s1 else s1 in
          if negb (SamFlag.isMapped flag)
          then pass1 cfg rest recordCount (releaseRecord (Some record) s2)
          else
            match checkDups cfg record recordCount s2 with
            | Ok s3 => pass1 cfg rest recordCount s3
            | Fatal e => Pass1Abort e (engineAtError cfg record recordCount s2)
            end
    end.

(** [moreDups && (currentIndex == myDupList[currentDupIndex])]: [None] when
    the vector is read at or past its end. *)
Definition foundDupAt (dupList : list Z) (moreDups : bool)
    (currentDupIndex currentIndex : Z) : option bool :=
  if moreDups then
    match dupList !! Z.to_nat currentDupIndex with
    | Some d => Some (currentIndex =? d)
    | None => None
    end
  else Some false.

Inductive Pass2 : Type :=
  | Pass2Done (written : list SamRecord) (singleDuplicates pairedDuplicates : Z)
  | Pass2OutOfBounds (written : list SamRecord) (currentIndex currentDupIndex : Z)
    (** the record with index [currentIndex] made the loop read
        [myDupList[currentDupIndex]] outside the vector *).

(** [if(myDoRecab) myRecab.processReadApplyTable(record)] of pass 2, when
    [processReadBuildTable] was called with the records [table] in pass 1. *)
Definition recalibrate (cfg : Settings) (table : list SamRecord)
    (record : SamRecord) : SamRecord :=
  if myDoRecab cfg then processReadApplyTable cfg table record else record.

(** The second [while] loop; [written] is what [samOut.WriteRecord] received
    so far, and [table] the records that the recalibration table was built
    from. *)
Fixpoint pass2 (cfg : Settings) (table : list SamRecord) (dupList : list Z)
    (moreDups : bool)
    (records : list SamRecord) (recordCount currentDupIndex : Z)
    (written : list SamRecord) (singleDuplicates pairedDuplicates : Z)
  : Pass2 :=
  match records with
  | [] => Pass2Done written singleDuplicates pairedDuplicates
  | record :: rest =>
      let currentIndex := recordCount + 1 in
      match foundDupAt dupList moreDups currentDupIndex currentIndex with
      | None => Pass2OutOfBounds written currentIndex currentDupIndex
      | Some true =>
          let flag := getFlag record in
          let record := setFlag record (Z.lor flag 0x400) in
          let single :=
            (Z.land flag 0x0001 =? 0) || negb (Z.land flag 0x0008 =? 0) in
          let record := recalibrate cfg table record in
          pass2 cfg table dupList moreDups rest currentIndex (currentDupIndex + 1)
            (if removeFlag cfg then written else written ++ [record])
            (if single then singleDuplicates + 1 else singleDuplicates)
            (if single then pairedDuplicates else pairedDuplicates + 1)
      | Some false =>
          let flag := getFlag record in
          let record :=
            if myForceFlag cfg then setFlag record (Z.land flag 0xfffffbff)
            else record in
          let record := recalibrate cfg table record in
          pass2 cfg table dupList moreDups rest currentIndex currentDupIndex
            (written ++ [record]) singleDuplicates pairedDuplicates
      end
  end.

Inductive Outcome : Type :=
  | Aborted (e : FatalError) (s : Dedup)
    (** ended before the output file was opened *)
  | OutOfBounds (written : list SamRecord) (currentIndex currentDupIndex : Z)
  | Finished (s : Dedup) (written : list SamRecord)
      (singleDuplicates pairedDuplicates : Z).

Definition withLibraries (opts : Settings) (m : gmap string Z) (n : Z)
  : Settings :=
  mkSettings (myMinQual opts) (myOneChrom opts) (myDoRecab opts)
             (myForceFlag opts) (removeFlag opts) n m (poolCapacity opts)
             (processReadApplyTable opts).

(** The engine after pass 1: final cleanup, then the duplicate indices in
    increasing order. *)
Definition finishPass1 (cfg : Settings) (s : Dedup) : Dedup :=
  let s := cleanupPriorReads cfg None s in
  setDupList (merge_sort Z.le (myDupList s)) s.

Definition execute (opts : Settings) (header : list RGRecord)
    (records : list SamRecord) : Outcome :=
  match buildReadGroupLibraryMap header with
  | Fatal e => Aborted e initialDedup
  | Ok (rgidMap, numLib, warned) =>
      let cfg := withLibraries opts rgidMap numLib in
      match pass1 cfg records 0 (logLines warned initialDedup) with
      | Pass1Abort e s => Aborted e s
      | Pass1Done s =>
          let s := finishPass1 cfg s in
          match pass2 cfg (recabBuilt s) (myDupList s)
                      (negb (bool_decide (myDupList s = [])))
                      records 0 0 [] 0 0 with
          | Pass2OutOfBounds written i c => OutOfBounds written i c
          | Pass2Done written single paired => Finished s written single paired
          end
      end
  end.

(** ** Vocabulary of the statements *)

(** Expected mate positions do not decrease along the multimap. *)
Definition mm_sorted (m : list (Z * ReadData)) : Prop :=
  StronglySorted (fun a b => a.1 <= b.1) m.

(** The four tracked structures of one engine state are those of another. *)
Definition sameTracking (s s' : Dedup) : Prop :=
  myFragmentMap s' = myFragmentMap s
  /\ myPairedMap s' = myPairedMap s
  /\ myMateMap s' = myMateMap s
  /\ myDupList s' = myDupList s.

(** The maps are in key order: what [std::map] and [std::multimap]
    guarantee, and what the model has to keep. *)
Record Ordered (s : Dedup) : Prop := mkOrdered {
  ordered_fragment : om_sorted DupKey_ltb (myFragmentMap s);
  ordered_paired : om_sorted PairedKey_ltb (myPairedMap s);
  ordered_mate : mm_sorted (myMateMap s)
}.

(** The data that [checkDups] stores for a record that takes the entry. *)
Definition readDataOf (record : SamRecord) (recordCount : Z)
    (recordPaired : bool) (sumQual : Z) : ReadData :=
  mkReadData sumQual (if recordPaired then None else Some record)
             recordCount recordPaired.

(** The condition of the first [if] of the fragment-map part, on the entry
    found ([None]: the key was inserted fresh). *)
Definition takesEntry (old : option ReadData) (recordPaired : bool)
    (sumQual : Z) : bool :=
  match old with
  | None => true
  | Some d => negb (paired d) && (recordPaired || (sumQual >? sumBaseQual d))
  end.

(** The data that [checkDups] stores for a pair that takes the entry. *)
Definition pairDataOf (record : SamRecord) (recordCount sumQual : Z)
    (mateRecord : SamRecord) (mateIndex : Z) : PairedData :=
  mkPairedData sumQual (Some record) (Some mateRecord) recordCount mateIndex.

(** [readPos] and [matePos] of [checkDups]. *)
Definition readPosOf (record : SamRecord) : Z :=
  SamHelper.combineChromPos (getReferenceID record) (get0BasedPosition record).
Definition matePosOf (record : SamRecord) : Z :=
  SamHelper.combineChromPos (getMateReferenceID record)
                            (get0BasedMatePosition record).

(** The test on a tag in the loop of [getLibraryID]. *)
Definition isRGTag (t : SamTag) : bool :=
  Ascii.eqb (tag0 t) "R" && Ascii.eqb (tag1 t) "G" && Ascii.eqb (vtype t) "Z".

(** The values of the record's [RG:Z] tags, in order. *)
Definition rgValues (record : SamRecord) : list string :=
  map tagValue (List.filter isRGTag (getTags record)).

(** The tag loop only looks at the [RG:Z] values. *)
Fixpoint scanValues (readName : string) (values : list string) (rgID : string)
  : Result string :=
  match values with
  | [] => Ok rgID
  | v :: rest =>
      if negb (isEmpty rgID) then Fatal (MultipleRGTag readName)
      else scanValues readName rest v
  end.

(** [idx] is on the duplicate list, or is the index of a record that the
    engine can still put there: an unpaired fragment-map entry, a mate-map
    entry, or one of the two records of a paired-map entry. *)
Definition tracked (idx : Z) (s : Dedup) : Prop :=
  In idx (myDupList s)
  \/ (exists e, In e (myFragmentMap s) /\ paired e.2 = false /\ recordIndex e.2 = idx)
  \/ (exists e, In e (myMateMap s) /\ recordIndex e.2 = idx)
  \/ (exists e, In e (myPairedMap s)
                /\ (record1Index e.2 = idx \/ record2Index e.2 = idx)).

(** ** Sample inputs *)

(** A pool of a million records. *)
Definition SAMPLE_POOL : Z := 1000000.

(** A recalibration that gives every base of a record the quality ['I']
    (phred 40). *)
Definition flatRecab (table : list SamRecord) (r : SamRecord) : SamRecord :=
  mkRecord (getFlag r) (getReferenceID r) (get0BasedPosition r)
           (getMateReferenceID r) (get0BasedMatePosition r) (getReadName r)
           (String.concat "" (repeat "I"%string (String.length (getQuality r))))
           (getReadLength r) (getTags r) (clippedStart r).

(** The settings when no option is given and the header has no read group. *)
Definition defaultOptions : Settings :=
  mkSettings DEFAULT_MIN_QUAL false false false false 0 ∅ SAMPLE_POOL flatRecab.

(** The default settings with a floor of 0 for the base qualities. *)
Definition noFloorOptions : Settings :=
  mkSettings 0 false false false false 0 ∅ SAMPLE_POOL flatRecab.

(** A mapped single-end forward read at reference 0, position 100, with the
    given read name and quality string. *)
Definition singleRead (name quality : string) : SamRecord :=
  mkRecord 0 0 100 (-1) (-1) name quality (Z.of_nat (String.length quality)) [] 100.

(** Three reads at one key whose only base has phred quality 10, 25 and 10. *)
Definition threeReads : list SamRecord :=
  [singleRead "r1" "+"; singleRead "r2" ":"; singleRead "r3" "+"].

(** A state with entries on both sides of a boundary at reference 0,
    position 2000: the cutoff key is at coordinate 1000.  Of the two stored
    pairs, the first has both reads before the cutoff, the second has its
    later read behind it. *)
Definition windowState : Dedup :=
  setPairedMap
    [(mkPairedKey (mkDupKey 0 100 false 0) (mkDupKey 0 200 true 0),
      mkPairedData 40 (Some (singleRead "p1" "5")) (Some (singleRead "p1" "5")) 5 6);
     (mkPairedKey (mkDupKey 0 500 false 0) (mkDupKey 0 1200 true 0),
      mkPairedData 40 (Some (singleRead "p2" "5")) (Some (singleRead "p2" "5")) 7 8)]
    (setMateMap [(1500, mkReadData 7 (Some (singleRead "m1" "+")) 3 false);
                 (2000, mkReadData 8 (Some (singleRead "m2" "+")) 4 false)]
       (setFragmentMap
          [(mkDupKey 0 999 false 0, mkReadData 10 (Some (singleRead "a" "+")) 1 false);
           (mkDupKey 0 1000 false 0, mkReadData 10 (Some (singleRead "b" "+")) 2 false)]
          initialDedup)).

(** The record that moves the window to reference 0, position 2000. *)
Definition boundaryRead : SamRecord :=
  mkRecord 0 0 2000 (-1) (-1) "c" "+" 1 [] 2000.

(** A single-end read of quality sum 50 holds the key; a read of sum 20
    arrives at the same key. *)
Definition heldBy50 : Dedup :=
  fragmentStep (singleRead "u" "S") 1 (updateKey (singleRead "u" "S") 0) false 50
    initialDedup.

(** One-chromosome mode: [--oneChrom] on, everything else as by default. *)
Definition oneChromOptions : Settings :=
  mkSettings DEFAULT_MIN_QUAL true false false false 0 ∅ SAMPLE_POOL flatRecab.

(** A paired read with a mapped mate, of quality sum 20, at reference 0,
    position 100; its mate is on reference 1. *)
Definition crossChromRead : SamRecord :=
  mkRecord 0x41 0 100 1 500 "p" "5" 1 [] 100.

(** Two pairs at the same two loci, each mate with quality sum 20: the first
    mates are records 1 and 2, the second mates records 3 and 4. *)
Definition firstMate (name : string) : SamRecord :=
  mkRecord 0x63 0 100 0 200 name "5" 1 [] 100.
Definition secondMate (name : string) : SamRecord :=
  mkRecord 0x93 0 200 0 100 name "5" 1 [] 200.

(** The two pairs in coordinate order. *)
Definition twoPairs : list SamRecord :=
  [firstMate "A"; firstMate "B"; secondMate "A"; secondMate "B"].

(** The engine after the first three records of [twoPairs]: pair A is
    stored, and the first mate of pair B waits for its mate. *)
Definition pairBWaiting : Dedup :=
  match pass1 defaultOptions (take 3 twoPairs) 0 initialDedup with
  | Pass1Done s | Pass1Abort _ s => s
  end.

(** A single-end read at position 1200 whose clipped start, 100, is that of
    [singleRead]. *)
Definition clippedRead (name quality : string) : SamRecord :=
  mkRecord 0 0 1200 (-1) (-1) name quality (Z.of_nat (String.length quality)) []
           100.

(** The optional field [RG:Z:value]. *)
Definition rgTag (value : string) : SamTag := mkTag "R" "G" "Z" value.

(** A single-end read carrying the read group [rg]. *)
Definition taggedRead (name rg : string) : SamRecord :=
  mkRecord 0 0 100 (-1) (-1) name "5" 1 [rgTag rg] 100.

(** A single-end read that carries the duplicate flag. *)
Definition markedRead : SamRecord :=
  mkRecord 0x400 0 300 (-1) (-1) "d" "5" 1 [] 300.

(** The second mate of a pair at reference 0, position 500; its mate is at
    position 100 and was never read. *)
Definition lateMate : SamRecord :=
  mkRecord 0x93 0 500 0 100 "M" "5" 1 [] 500.

(** A paired read with a mapped mate at reference 1, position 100; its mate
    is on reference 0, behind it. *)
Definition mateOnEarlierChrom : SamRecord :=
  mkRecord 0x41 1 100 0 500 "p" "5" 1 [] 100.

(** A single-end read of quality sum 50 at the same key. *)
Definition betterSingle : SamRecord :=
  mkRecord 0 1 100 (-1) (-1) "h" "S" 1 [] 100.

(** ** The rest of the engine *)

(** *** [Dedup::~Dedup] *)

(** The destructor gives every record that a map still holds back to the
    pool and clears the three maps. *)
Definition destructor (s : Dedup) : Dedup :=
  let s :=
    fold_left (fun s e => releaseRecord (recordPtr e.2) s) (myFragmentMap s) s in
  let s := setFragmentMap [] s in
  let s :=
    fold_left
      (fun s e =>
         releaseRecord (record2Ptr e.2) (releaseRecord (record1Ptr e.2) s))
      (myPairedMap s) s in
  let s := setPairedMap [] s in
  let s :=
    fold_left (fun s e => releaseRecord (recordPtr e.2) s) (myMateMap s) s in
  setMateMap [] s.

(** ** Vocabulary of the further statements *)

(** The records that the maps hold, in the order in which the destructor
    walks them. *)
Definition heldRecords (s : Dedup) : list SamRecord :=
  flat_map (fun e => option_list (recordPtr e.2)) (myFragmentMap s)
  ++ flat_map (fun e => option_list (record1Ptr e.2) ++ option_list (record2Ptr e.2))
       (myPairedMap s)
  ++ flat_map (fun e => option_list (recordPtr e.2)) (myMateMap s).

#[global] Instance SamTag_eq_dec : EqDecision SamTag.
Proof. solve_decision. Defined.

#[global] Instance SamRecord_eq_dec : EqDecision SamRecord.
Proof. solve_decision. Defined.

(** The total of a weight over the values of a container. *)
Definition sumw {K V} (w : V -> nat) (m : list (K * V)) : nat :=
  sum_list_with (fun e => w e.2) m.

(** The record indices that an entry of the fragment map, of the mate map and
    of the paired map can still send to the duplicate list. *)
Definition idxF (d : ReadData) : list Z :=
  if paired d then [] else [recordIndex d].
Definition idxM (d : ReadData) : list Z := [recordIndex d].
Definition idxP (p : PairedData) : list Z := [record1Index p; record2Index p].

(** The duplicate list followed by the indices that the maps can still send
    there. *)
Definition trackedIndices (s : Dedup) : list Z :=
  myDupList s
  ++ flat_map (fun e => idxF e.2) (myFragmentMap s)
  ++ flat_map (fun e => idxM e.2) (myMateMap s)
  ++ flat_map (fun e => idxP e.2) (myPairedMap s).

(** The records that an entry of the fragment map, of the mate map and of the
    paired map owns: those that the engine will release for it. *)
Definition recF (d : ReadData) : list SamRecord :=
  if paired d then [] else option_list (recordPtr d).
Definition recM (d : ReadData) : list SamRecord := option_list (recordPtr d).
Definition recP (p : PairedData) : list SamRecord :=
  option_list (record1Ptr p) ++ option_list (record2Ptr p).

(** The records released so far followed by those the maps own. *)
Definition accountedRecords (s : Dedup) : list SamRecord :=
  released s
  ++ flat_map (fun e => recF e.2) (myFragmentMap s)
  ++ flat_map (fun e => recM e.2) (myMateMap s)
  ++ flat_map (fun e => recP e.2) (myPairedMap s).

(** [index] is on the list of duplicate indices. *)
Definition listed (dups : list Z) (index : Z) : bool :=
  existsb (Z.eqb index) dups.

(** The record of pass 2 once its duplicate flag is settled, before
    recalibration: a duplicate has the flag; any other record is as it was
    read, without the flag in force mode. *)
Definition flagged (cfg : Settings) (isDup : bool) (record : SamRecord)
  : SamRecord :=
  if isDup then setFlag record (Z.lor (getFlag record) 0x400)
  else if myForceFlag cfg
       then setFlag record (Z.land (getFlag record) 0xfffffbff)
       else record.

(** What pass 2 passes to [samOut.WriteRecord] for one record: the record
    with its flag settled, recalibrated when recalibration is on; nothing for
    a duplicate when duplicates are removed. *)
Definition writtenFor (cfg : Settings) (table : list SamRecord) (isDup : bool)
    (record : SamRecord) : list SamRecord :=
  if isDup && removeFlag cfg then []
  else [recalibrate cfg table (flagged cfg isDup record)].

(** The output for the records after the first [recordCount], when exactly
    the records whose index is in [dups] are duplicates and the recalibration
    table was built from [table]. *)
Fixpoint expectedOutput (cfg : Settings) (table : list SamRecord)
    (dups : list Z) (records : list SamRecord) (recordCount : Z)
  : list SamRecord :=
  match records with
  | [] => []
  | record :: rest =>
      writtenFor cfg table (listed dups (recordCount + 1)) record
      ++ expectedOutput cfg table dups rest (recordCount + 1)
  end.

(** What the loop of [buildReadGroupLibraryMap] keeps true of [rgidLibMap]
    and its local [libNameMap] after the header lines [done]. *)
Record BuildInv (done : list RGRecord) (rgidMap libNameMap : gmap string Z)
    (numLib : Z) : Prop := mkBuildInv {
  inv_num : numLib = Z.of_nat (size libNameMap);
  inv_libs : dom libNameMap = list_to_set (rgLB <$> done);
  inv_range : forall LB v,
    libNameMap !! LB = Some v -> 1 <= v <= Z.of_nat (size libNameMap);
  inv_inj : forall LB1 LB2 v,
    libNameMap !! LB1 = Some v -> libNameMap !! LB2 = Some v -> LB1 = LB2;
  inv_ids : dom rgidMap = list_to_set (rgID <$> done);
  inv_link : forall rg, rg ∈ done -> rgidMap !! rgID rg = libNameMap !! rgLB rg;
  inv_nonempty : forall rg, rg ∈ done -> rgID rg <> EmptyString;
  inv_nodup : NoDup (rgID <$> done)
}.

(** The number of distinct library names of a header. *)
Definition libraryNames (header : list RGRecord) : list string :=
  remove_dups (rgLB <$> header).

(** The warnings of [buildReadGroupLibraryMap]: one for each header line
    without a library name. *)
Definition libraryWarnings (header : list RGRecord) : list LogLine :=
  flat_map (fun rg => if isEmpty (rgLB rg) then [WarnNoLibrary (rgID rg)] else [])
           header.

(** A header with three read groups in two libraries. *)
Definition threeGroups : list RGRecord :=
  [mkRG "rgA" "lib1"; mkRG "rgB" "lib2"; mkRG "rgC" "lib1"].

(** The records that the maps hold in a run with the settings [cfg]: a
    fragment entry holds a record exactly when it stands for an unpaired read;
    a waiting mate holds its record, whose library id [checkDups] has resolved;
    a stored pair holds both of its records. *)
Record Holding (cfg : Settings) (s : Dedup) : Prop := mkHolding {
  hold_fragment : forall e, In e (myFragmentMap s) ->
    (paired e.2 = true <-> recordPtr e.2 = None);
  hold_mate : forall e, In e (myMateMap s) ->
    paired e.2 = false
    /\ exists r, recordPtr e.2 = Some r
                 /\ exists lw, getLibraryID cfg r checkTagsDefault = Ok lw;
  hold_pair : forall e, In e (myPairedMap s) ->
    is_Some (record1Ptr e.2) /\ is_Some (record2Ptr e.2)
}.

(** Every mate that waits in the mate map is recorded with the quality sum
    of its own record. *)
Definition MateSums (cfg : Settings) (s : Dedup) : Prop :=
  forall e, In e (myMateMap s) ->
    exists r, recordPtr e.2 = Some r /\ sumBaseQual e.2 = getBaseQuality cfg r.

(** What the body of the pass-1 loop does with one record before it touches
    the engine: the [Logger::error] it reaches for the record itself, if any. *)
Definition offence (cfg : Settings) (record : SamRecord) : option FatalError :=
  if SamFlag.isDuplicate (getFlag record) && negb (myForceFlag cfg)
  then Some AlreadyDuplicateMarked
  else if negb (SamFlag.isMapped (getFlag record)) then None
  else match getLibraryID cfg record checkTagsDefault with
       | Fatal e => Some e
       | Ok _ => None
       end.

(** A record together with its index in the input. *)
Definition entry (index : Z) (p : option SamRecord) : list (Z * SamRecord) :=
  match p with
  | Some r => [(index, r)]
  | None => []
  end.

(** The reads, with their indices, that an entry of the fragment map, of the
    mate map and of the paired map stands for: those whose fate is still
    open. *)
Definition heldF (d : ReadData) : list (Z * SamRecord) :=
  if paired d then [] else entry (recordIndex d) (recordPtr d).
Definition heldM (d : ReadData) : list (Z * SamRecord) :=
  entry (recordIndex d) (recordPtr d).
Definition heldP (p : PairedData) : list (Z * SamRecord) :=
  entry (record1Index p) (record1Ptr p) ++ entry (record2Index p) (record2Ptr p).

Definition heldReads (s : Dedup) : list (Z * SamRecord) :=
  flat_map (fun e => heldF e.2) (myFragmentMap s)
  ++ flat_map (fun e => heldM e.2) (myMateMap s)
  ++ flat_map (fun e => heldP e.2) (myPairedMap s).

Definition IRec_eq_dec (x y : Z * SamRecord) : {x = y} + {x <> y} :=
  decide (x = y).

(** The record that [handleNonDuplicate] passes to
    [myRecab.processReadBuildTable]: without the duplicate flag in force
    mode. *)
Definition recabInput (cfg : Settings) (r : SamRecord) : SamRecord :=
  if myForceFlag cfg && SamFlag.isDuplicate (getFlag r)
  then setFlag r (SamFlag.setNotDuplicate (getFlag r))
  else r.

(** What [handleNonDuplicate] adds to the recalibration table for the
    records [l]. *)
Definition recabOf (cfg : Settings) (l : list SamRecord) : list SamRecord :=
  if myDoRecab cfg then map (recabInput cfg) l else [].

(** The mapped records after the first [recordCount], with their indices:
    those that pass 1 hands to [checkDups]. *)
Fixpoint mappedReads (records : list SamRecord) (recordCount : Z)
  : list (Z * SamRecord) :=
  match records with
  | [] => []
  | record :: rest =>
      (if SamFlag.isMapped (getFlag record) then [(recordCount + 1, record)] else [])
      ++ mappedReads rest (recordCount + 1)
  end.

(** The mapped records whose index is not in [dups]. *)
Definition nonDuplicates (dups : list Z) (records : list SamRecord)
  : list SamRecord :=
  map snd (List.filter (fun p => negb (listed dups p.1)) (mappedReads records 0)).

(** The default settings with recalibration on. *)
Definition recabOptions : Settings :=
  mkSettings DEFAULT_MIN_QUAL false true false false 0 ∅ SAMPLE_POOL flatRecab.

(** How often each of the two lines of [handleMissingMate] was written. *)
Definition differChromLines (s : Dedup) : nat :=
  length (List.filter
            (fun l => match l with MateOnDifferentChromNotFound => true | _ => false end)
            (logged s)).
Definition sameChromLines (s : Dedup) : nat :=
  length (List.filter
            (fun l => match l with MissingMateCannotBeChecked => true | _ => false end)
            (logged s)).

(** The two one-shot flags of [handleMissingMate] say which of its lines was
    written, and a mate was counted as missing exactly when one of them
    was. *)
Record OneShot (s : Dedup) : Prop := mkOneShot {
  shot_differ : differChromLines s = if firstDifferChrom s then 0%nat else 1%nat;
  shot_same : sameChromLines s = if firstSameChrom s then 0%nat else 1%nat;
  shot_count : Z.of_nat (differChromLines s + sameChromLines s)
               <= myNumMissingMate s;
  shot_none : myNumMissingMate s = 0
              <-> firstDifferChrom s = true /\ firstSameChrom s = true
}.

(** What [OneShot] depends on. *)
Definition warnView (s : Dedup) : nat * nat * bool * bool * Z :=
  (differChromLines s, sameChromLines s, firstDifferChrom s, firstSameChrom s,
   myNumMissingMate s).

(** * Properties *)

(** ** A first run: three single-end reads at one key *)

Example threeReads_qualities :
  map (getBaseQuality noFloorOptions) threeReads = [10; 25; 10].
Proof. vm_compute. reflexivity. Qed.

Example threeReads_pass1 :
  match pass1 noFloorOptions threeReads 0 initialDedup with
  | Pass1Done s => myDupList s = [1; 3]
  | _ => False
  end.
Proof. vm_compute. reflexivity. Qed.

(** ** The key orders *)

Ltac key_cases :=
  repeat match goal with
    | |- context [Z.eqb ?x ?y] => destruct (Z.eqb_spec x y)
    | H : context [Z.eqb ?x ?y] |- _ => destruct (Z.eqb_spec x y)
    | |- context [Z.ltb ?x ?y] => destruct (Z.ltb_spec x y)
    | H : context [Z.ltb ?x ?y] |- _ => destruct (Z.ltb_spec x y)
    end.

Lemma DupKey_ltb_irrefl a : DupKey_ltb a a = false.
Proof.
  destruct a as [r c o l]; unfold DupKey_ltb, bool_ltb; simpl.
  rewrite !Z.eqb_refl, Bool.eqb_reflx. apply Z.ltb_irrefl.
Qed.

Lemma DupKey_ltb_trans a b c :
  DupKey_ltb a b = true -> DupKey_ltb b c = true -> DupKey_ltb a c = true.
Proof.
  destruct a as [r1 c1 o1 l1], b as [r2 c2 o2 l2], c as [r3 c3 o3 l3].
  unfold DupKey_ltb, bool_ltb; simpl.
  destruct o1, o2, o3; simpl; intros; key_cases; subst;
    try lia; try discriminate; try reflexivity.
Qed.

Lemma DupKey_ltb_total a b :
  DupKey_ltb a b = false -> DupKey_ltb b a = false -> a = b.
Proof.
  destruct a as [r1 c1 o1 l1], b as [r2 c2 o2 l2].
  unfold DupKey_ltb, bool_ltb; simpl.
  destruct o1, o2; simpl; intros; key_cases; subst;
    try lia; try discriminate; f_equal; lia.
Qed.

Lemma DupKey_eqb_eq a b : DupKey_eqb a b = true <-> a = b.
Proof.
  destruct a as [r1 c1 o1 l1], b as [r2 c2 o2 l2].
  unfold DupKey_eqb; simpl. split.
  - intros H. repeat (apply andb_prop in H; destruct H as [H ?]).
    apply Z.eqb_eq in H. apply Z.eqb_eq in H0, H2.
    apply Bool.eqb_prop in H1. congruence.
  - intros [= -> -> -> ->]. now rewrite !Z.eqb_refl, Bool.eqb_reflx.
Qed.

Lemma DupKey_eqb_refl a : DupKey_eqb a a = true.
Proof. now apply DupKey_eqb_eq. Qed.

Lemma PairedKey_ltb_irrefl a : PairedKey_ltb a a = false.
Proof.
  unfold PairedKey_ltb. rewrite DupKey_eqb_refl. apply DupKey_ltb_irrefl.
Qed.

Lemma PairedKey_ltb_trans a b c :
  PairedKey_ltb a b = true -> PairedKey_ltb b c = true ->
  PairedKey_ltb a c = true.
Proof.
  destruct a as [a1 a2], b as [b1 b2], c as [c1 c2].
  unfold PairedKey_ltb; simpl.
  destruct (DupKey_eqb a2 b2) eqn:Eab, (DupKey_eqb b2 c2) eqn:Ebc;
    try apply DupKey_eqb_eq in Eab; try apply DupKey_eqb_eq in Ebc; subst.
  - rewrite DupKey_eqb_refl. apply DupKey_ltb_trans.
  - rewrite Ebc. auto.
  - rewrite Eab. auto.
  - intros H1 H2. pose proof (DupKey_ltb_trans _ _ _ H1 H2) as H3.
    destruct (DupKey_eqb a2 c2) eqn:Eac; [| exact H3].
    apply DupKey_eqb_eq in Eac; subst.
    now rewrite DupKey_ltb_irrefl in H3.
Qed.

Lemma PairedKey_ltb_total a b :
  PairedKey_ltb a b = false -> PairedKey_ltb b a = false -> a = b.
Proof.
  destruct a as [a1 a2], b as [b1 b2]. unfold PairedKey_ltb; simpl.
  destruct (DupKey_eqb a2 b2) eqn:Eab.
  - apply DupKey_eqb_eq in Eab; subst. rewrite DupKey_eqb_refl.
    intros H1 H2. now rewrite (DupKey_ltb_total _ _ H1 H2).
  - destruct (DupKey_eqb b2 a2) eqn:Eba.
    + apply DupKey_eqb_eq in Eba; subst. now rewrite DupKey_eqb_refl in Eab.
    + intros H1 H2. rewrite (DupKey_ltb_total _ _ H1 H2) in Eab.
      now rewrite DupKey_eqb_refl in Eab.
Qed.

(** The pair key does not depend on the order of the two mates. *)
Lemma mkPairedKey_comm a b : mkPairedKey a b = mkPairedKey b a.
Proof.
  unfold mkPairedKey.
  destruct (DupKey_ltb b a) eqn:Hba, (DupKey_ltb a b) eqn:Hab; try reflexivity.
  - pose proof (DupKey_ltb_trans _ _ _ Hab Hba) as H.
    now rewrite DupKey_ltb_irrefl in H.
  - now rewrite (DupKey_ltb_total _ _ Hab Hba).
Qed.

(** ** The ordered containers *)

Section OrderedMapFacts.
Context {K V : Type} (ltb : K -> K -> bool).
Hypothesis ltb_irrefl : forall a, ltb a a = false.
Hypothesis ltb_trans :
  forall a b c, ltb a b = true -> ltb b c = true -> ltb a c = true.
Hypothesis ltb_total :
  forall a b, ltb a b = false -> ltb b a = false -> a = b.

Lemma om_lookup_put_eq (k : K) (v : V) (m : list (K * V)) : om_lookup ltb k (om_put ltb k v m) = Some v.
Proof using ltb_irrefl.
  induction m as [| [k' v'] m IH]; simpl.
  - now rewrite ltb_irrefl.
  - destruct (ltb k' k) eqn:H1; simpl.
    + now rewrite H1.
    + destruct (ltb k k') eqn:H2; simpl; now rewrite ltb_irrefl.
Qed.

Lemma om_put_put (k : K) (v v0 : V) (m : list (K * V)) :
  om_put ltb k v (om_put ltb k v0 m) = om_put ltb k v m.
Proof using ltb_irrefl.
  induction m as [| [k' v'] m IH]; simpl.
  - now rewrite ltb_irrefl.
  - destruct (ltb k' k) eqn:H1; simpl.
    + now rewrite H1, IH.
    + destruct (ltb k k') eqn:H2; simpl; now rewrite ltb_irrefl.
Qed.

Lemma om_put_In (k : K) (v : V) (m : list (K * V)) e : In e (om_put ltb k v m) -> e = (k, v) \/ In e m.
Proof.
  induction m as [| [k' v'] m IH]; simpl.
  - intros [<- | []]; auto.
  - destruct (ltb k' k); [| destruct (ltb k k')]; simpl; intros [<- | H]; auto.
    destruct (IH H); auto.
Qed.

Lemma om_lookup_In (k : K) (v : V) (m : list (K * V)) : om_lookup ltb k m = Some v -> In (k, v) m.
Proof using ltb_total.
  induction m as [| [k' v'] m IH]; simpl; [discriminate |].
  destruct (ltb k' k) eqn:H1; [auto |].
  destruct (ltb k k') eqn:H2; [discriminate |].
  intros [= ->]. left. now rewrite (ltb_total _ _ H1 H2).
Qed.

Lemma om_put_Forall (P : K * V -> Prop) (k : K) (v : V) (m : list (K * V)) :
  P (k, v) -> Forall P m -> Forall P (om_put ltb k v m).
Proof.
  intros Hk Hm. apply List.Forall_forall. intros e He.
  destruct (om_put_In _ _ _ _ He) as [-> | Hin]; [exact Hk |].
  rewrite List.Forall_forall in Hm. auto.
Qed.

Lemma om_put_sorted (k : K) (v : V) (m : list (K * V)) : om_sorted ltb m -> om_sorted ltb (om_put ltb k v m).
Proof using ltb_trans ltb_total.
  induction 1 as [| [k' v'] m Hs IH Hall]; simpl.
  - repeat constructor.
  - destruct (ltb k' k) eqn:H1.
    + constructor; [exact IH |]. now apply om_put_Forall.
    + destruct (ltb k k') eqn:H2.
      * constructor; [now constructor |].
        constructor; [exact H2 |].
        eapply List.Forall_impl; [| exact Hall]. simpl. eauto.
      * rewrite (ltb_total _ _ H2 H1). now constructor.
Qed.

Lemma om_insert_sorted (k : K) (v : V) (m : list (K * V)) :
  om_sorted ltb m -> om_sorted ltb (om_insert ltb k v m).1.1.
Proof using ltb_trans ltb_total.
  unfold om_insert. destruct (om_lookup ltb k m); simpl; [auto |].
  apply om_put_sorted.
Qed.

(** What [insert] reports: the existing entry, or the new one. *)
Lemma om_insert_spec (k : K) (v : V) (m : list (K * V)) :
  om_insert ltb k v m =
    match om_lookup ltb k m with
    | Some old => (m, old, false)
    | None => (om_put ltb k v m, v, true)
    end.
Proof. reflexivity. Qed.

Lemma om_split_app (k : K) (m : list (K * V)) : (om_split ltb k m).1 ++ (om_split ltb k m).2 = m.
Proof.
  induction m as [| e m IH]; simpl; [reflexivity |].
  destruct (ltb e.1 k); [| reflexivity].
  destruct (om_split ltb k m); simpl in *. now rewrite IH.
Qed.

Lemma om_split_below (k : K) (m : list (K * V)) :
  Forall (fun e => ltb e.1 k = true) (om_split ltb k m).1.
Proof.
  induction m as [| e m IH]; simpl; [constructor |].
  destruct (ltb e.1 k) eqn:He; [| constructor].
  destruct (om_split ltb k m); simpl in *. now constructor.
Qed.

(** On a sorted map, erasing up to [lower_bound(k)] keeps exactly the
    entries whose key is not below [k], as they were. *)
Lemma om_split_rest (k : K) (m : list (K * V)) :
  om_sorted ltb m ->
  (om_split ltb k m).2 = List.filter (fun e => negb (ltb e.1 k)) m.
Proof using ltb_trans.
  induction 1 as [| e m Hs IH Hall]; simpl; [reflexivity |].
  destruct (ltb e.1 k) eqn:He; simpl.
  - destruct (om_split ltb k m); simpl in *. exact IH.
  - f_equal. symmetry. apply forallb_filter_id.
    apply List.forallb_forall. intros e' He'.
    rewrite List.Forall_forall in Hall. specialize (Hall _ He').
    apply negb_true_iff. destruct (ltb e'.1 k) eqn:Hk; [| reflexivity].
    now rewrite (ltb_trans _ _ _ Hall Hk) in He.
Qed.

Lemma om_sorted_filter (f : K * V -> bool) (m : list (K * V)) :
  om_sorted ltb m -> om_sorted ltb (List.filter f m).
Proof.
  induction 1 as [| e m Hs IH Hall]; simpl; [constructor |].
  destruct (f e); [| exact IH].
  constructor; [exact IH |].
  apply List.Forall_forall. intros x Hx. apply List.filter_In in Hx as [Hx _].
  rewrite List.Forall_forall in Hall. auto.
Qed.

Lemma om_split_sorted (k : K) (m : list (K * V)) : om_sorted ltb m -> om_sorted ltb (om_split ltb k m).2.
Proof using ltb_trans.
  intros H. rewrite om_split_rest by exact H. now apply om_sorted_filter.
Qed.
End OrderedMapFacts.

(** ** The mate map *)

Lemma mm_insert_In pos d m e :
  In e (mm_insert pos d m) <-> e = (pos, d) \/ In e m.
Proof.
  induction m as [| [p d'] m IH]; simpl.
  - intuition.
  - destruct (p <=? pos); simpl; rewrite ?IH; intuition.
Qed.

Lemma mm_insert_sorted pos d m : mm_sorted m -> mm_sorted (mm_insert pos d m).
Proof.
  induction 1 as [| [p d'] m Hs IH Hall]; simpl.
  - repeat constructor.
  - destruct (Z.leb_spec p pos).
    + constructor; [exact IH |].
      apply List.Forall_forall. intros e He. apply mm_insert_In in He as [-> | He].
      * simpl. lia.
      * rewrite List.Forall_forall in Hall. auto.
    + constructor; [now constructor |].
      constructor; [simpl; lia |].
      eapply List.Forall_impl; [| exact Hall]. simpl. intros. lia.
Qed.

Lemma keepEntry_Some e found d rest :
  keepEntry e found = Ok (Some (d, rest)) ->
  exists rest', found = Ok (Some (d, rest')) /\ rest = e :: rest'.
Proof.
  destruct found as [[[d' rest'] |] | err]; simpl; intros [=]; subst; eauto.
Qed.

Lemma keepEntry_None e found :
  keepEntry e found = Ok None -> found = Ok None.
Proof. destruct found as [[[d' rest'] |] | err]; simpl; intros [=]; auto. Qed.

(** A mate that is found was in the map at [readPos], holds a record with
    the wanted name, and is the only entry taken out. *)
Lemma findMate_Some readPos name m d rest :
  findMate readPos name m = Ok (Some (d, rest)) ->
  In (readPos, d) m
  /\ (exists mate, recordPtr d = Some mate /\ getReadName mate = name)
  /\ (forall e, In e rest -> In e m)
  /\ (mm_sorted m -> mm_sorted rest).
Proof.
  revert rest. induction m as [| [p d'] m IH]; simpl; intros rest; [discriminate |].
  assert (Hkeep : keepEntry (p, d') (findMate readPos name m) = Ok (Some (d, rest)) ->
    In (readPos, d) ((p, d') :: m)
    /\ (exists mate, recordPtr d = Some mate /\ getReadName mate = name)
    /\ (forall e, In e rest -> In e ((p, d') :: m))
    /\ (mm_sorted ((p, d') :: m) -> mm_sorted rest)).
  { intros H. apply keepEntry_Some in H as (rest' & H & ->).
    destruct (IH _ H) as (Hin & Hmate & Hsub & Hsorted).
    repeat split; auto.
    - now right.
    - intros e [<- | He]; [now left | right; auto].
    - intros Hs. inversion Hs as [| ? ? Hs' Hall]; subst.
      constructor; [apply Hsorted, Hs' |].
      apply List.Forall_forall. intros e He.
      rewrite List.Forall_forall in Hall. auto. }
  destruct (Z.ltb_spec p readPos); [exact Hkeep |].
  destruct (Z.ltb_spec readPos p); [discriminate |].
  destruct (recordPtr d') as [mate |] eqn:Hptr; [| discriminate].
  destruct (String.eqb (getReadName mate) name) eqn:Hname; [| exact Hkeep].
  intros [= -> ->]. apply String.eqb_eq in Hname.
  assert (p = readPos) as -> by lia.
  split; [now left |]. split; [eauto |]. split.
  - intros e He. now right.
  - intros Hs. inversion Hs; assumption.
Qed.

(** ** What the helpers leave alone *)

Lemma releaseRecord_fields p s :
  myFragmentMap (releaseRecord p s) = myFragmentMap s
  /\ myPairedMap (releaseRecord p s) = myPairedMap s
  /\ myMateMap (releaseRecord p s) = myMateMap s
  /\ myDupList (releaseRecord p s) = myDupList s
  /\ myNumMissingMate (releaseRecord p s) = myNumMissingMate s.
Proof. destruct p; simpl; auto. Qed.

Lemma handleNonDuplicate_fields cfg p s :
  myFragmentMap (handleNonDuplicate cfg p s) = myFragmentMap s
  /\ myPairedMap (handleNonDuplicate cfg p s) = myPairedMap s
  /\ myMateMap (handleNonDuplicate cfg p s) = myMateMap s
  /\ myDupList (handleNonDuplicate cfg p s) = myDupList s
  /\ myNumMissingMate (handleNonDuplicate cfg p s) = myNumMissingMate s.
Proof.
  unfold handleNonDuplicate. destruct p; [| auto].
  destruct (myDoRecab cfg); simpl; auto.
Qed.

Lemma handleMissingMate_fields cfg p s :
  myFragmentMap (handleMissingMate cfg p s) = myFragmentMap s
  /\ myPairedMap (handleMissingMate cfg p s) = myPairedMap s
  /\ myMateMap (handleMissingMate cfg p s) = myMateMap s
  /\ myDupList (handleMissingMate cfg p s) = myDupList s
  /\ myNumMissingMate (handleMissingMate cfg p s) =
       myNumMissingMate s + match p with Some _ => 1 | None => 0 end.
Proof.
  unfold handleMissingMate. destruct p as [r |]; [| simpl; repeat split; lia].
  match goal with
  | |- context [handleNonDuplicate cfg (Some r) ?s'] =>
      destruct (handleNonDuplicate_fields cfg (Some r) s')
        as (-> & -> & -> & -> & ->)
  end.
  destruct (negb (getMateReferenceID r =? getReferenceID r));
    [destruct (firstDifferChrom s) | destruct (firstSameChrom s)];
    simpl; auto.
Qed.

Lemma sameTracking_refl s : sameTracking s s.
Proof. repeat split. Qed.

Lemma sameTracking_trans s1 s2 s3 :
  sameTracking s1 s2 -> sameTracking s2 s3 -> sameTracking s1 s3.
Proof. unfold sameTracking. intuition congruence. Qed.

Lemma handleNonDuplicate_same cfg p s : sameTracking s (handleNonDuplicate cfg p s).
Proof. pose proof (handleNonDuplicate_fields cfg p s). unfold sameTracking. tauto. Qed.

Lemma handleMissingMate_same cfg p s : sameTracking s (handleMissingMate cfg p s).
Proof. pose proof (handleMissingMate_fields cfg p s). unfold sameTracking. tauto. Qed.

Lemma fold_left_same {A} (f : Dedup -> A -> Dedup) (l : list A) s :
  (forall s a, sameTracking s (f s a)) -> sameTracking s (fold_left f l s).
Proof.
  intros Hf. revert s. induction l as [| a l IH]; simpl; intros s.
  - apply sameTracking_refl.
  - eapply sameTracking_trans; [apply Hf | apply IH].
Qed.

Lemma cleanupMates_same cfg bounded stop m s :
  sameTracking s (cleanupMates cfg bounded stop m s).2.
Proof.
  revert s. induction m as [| e m IH]; simpl; intros s.
  - apply sameTracking_refl.
  - destruct (bounded && (e.1 >=? stop)); simpl.
    + apply sameTracking_refl.
    + eapply sameTracking_trans; [apply handleMissingMate_same | apply IH].
Qed.

Lemma cleanupMates_unbounded cfg stop m s :
  (cleanupMates cfg false stop m s).1 = [].
Proof. revert s. induction m as [| e m IH]; simpl; auto. Qed.

(** With a boundary, the loop keeps exactly the entries whose expected
    position is not below it. *)
Lemma cleanupMates_bounded cfg stop m s :
  mm_sorted m ->
  (cleanupMates cfg true stop m s).1 = List.filter (fun e => negb (e.1 <? stop)) m.
Proof.
  intros Hs. revert s. induction Hs as [| e m Hs IH Hall]; simpl; intros s.
  - reflexivity.
  - destruct (Z.geb_spec e.1 stop) as [Hge | Hlt]; simpl.
    + destruct (Z.ltb_spec e.1 stop); [lia |]. simpl. f_equal.
      symmetry. apply forallb_filter_id. apply List.forallb_forall.
      intros e' He'. rewrite List.Forall_forall in Hall.
      specialize (Hall _ He'). simpl in Hall.
      apply negb_true_iff, Z.ltb_ge. lia.
    + destruct (Z.ltb_spec e.1 stop); [| lia]. simpl. apply IH.
Qed.

(** ** Cleanup *)

(** The maps after a cleanup, whatever the records handed on: the parts at
    and after the three stopping points. *)
Lemma cleanupPriorReads_maps cfg record s :
  let s' := cleanupPriorReads cfg record s in
  myDupList s' = myDupList s
  /\ match record with
     | None =>
         myFragmentMap s' = [] /\ myPairedMap s' = [] /\ myMateMap s' = []
     | Some r =>
         let tempKey2 := cleanupKey (getReferenceID r) (get0BasedPosition r) in
         let mateStopPos :=
           SamHelper.combineChromPos (getReferenceID r) (get0BasedPosition r) in
         myFragmentMap s' = (om_split DupKey_ltb tempKey2 (myFragmentMap s)).2
         /\ myPairedMap s' =
              (om_split PairedKey_ltb (mkPairedKey emptyKey tempKey2)
                 (myPairedMap s)).2
         /\ forall s0, myMateMap s' =
              (cleanupMates cfg true mateStopPos (myMateMap s) s0).1
     end.
Proof.
  assert (Hmates : forall cfg b stop m s1 s2,
             (cleanupMates cfg b stop m s1).1 = (cleanupMates cfg b stop m s2).1).
  { clear. intros cfg b stop m. induction m as [| e m IH]; simpl; intros s1 s2.
    - reflexivity.
    - destruct (b && (e.1 >=? stop)); simpl; auto. }
  unfold cleanupPriorReads.
  set (fragF := fun (s : Dedup) (e : DupKey * ReadData) =>
         if negb (paired e.2) then handleNonDuplicate cfg (recordPtr e.2) s else s).
  set (pairF := fun (s : Dedup) (e : PairedKey * PairedData) =>
         handleNonDuplicate cfg (record2Ptr e.2)
           (handleNonDuplicate cfg (record1Ptr e.2) s)).
  assert (HfragF : forall s a, sameTracking s (fragF s a)).
  { intros s0 a. unfold fragF. destruct (negb (paired a.2)).
    - apply handleNonDuplicate_same.
    - apply sameTracking_refl. }
  assert (HpairF : forall s a, sameTracking s (pairF s a)).
  { intros s0 a. unfold pairF.
    eapply sameTracking_trans; apply handleNonDuplicate_same. }
  destruct record as [r |]; simpl.
  - destruct (om_split DupKey_ltb _ (myFragmentMap s)) as [fragDone fragKept].
    destruct (om_split PairedKey_ltb _ (myPairedMap s)) as [pairDone pairKept].
    simpl.
    pose proof (fold_left_same fragF fragDone s HfragF) as (_ & Hp1 & Hm1 & Hd1).
    pose proof (fold_left_same pairF pairDone
                  (setFragmentMap fragKept (fold_left fragF fragDone s)) HpairF)
      as (Hf2 & _ & Hm2 & Hd2).
    simpl in Hf2, Hm2, Hd2.
    match goal with
    | |- context [cleanupMates ?c ?b ?st ?m ?s0] =>
        pose proof (cleanupMates_same c b st m s0) as (Hf3 & Hp3 & _ & Hd3);
        pose proof (Hmates c b st m s0) as Hany;
        destruct (cleanupMates c b st m s0) as [mateKept s3]
    end.
    simpl in *. repeat split.
    + rewrite Hd3, Hd2, Hd1. reflexivity.
    + rewrite Hf3, Hf2. reflexivity.
    + rewrite Hp3. reflexivity.
    + intros s0. rewrite (Hany s0), Hm2, Hm1. reflexivity.
  - pose proof (fold_left_same fragF (myFragmentMap s) s HfragF) as (_ & Hp1 & Hm1 & Hd1).
    pose proof (fold_left_same pairF (myPairedMap s)
                  (setFragmentMap [] (fold_left fragF (myFragmentMap s) s)) HpairF)
      as (Hf2 & _ & Hm2 & Hd2).
    simpl in Hf2, Hm2, Hd2.
    match goal with
    | |- context [cleanupMates ?c ?b ?st ?m ?s0] =>
        pose proof (cleanupMates_same c b st m s0) as (Hf3 & Hp3 & _ & Hd3);
        pose proof (cleanupMates_unbounded c st m s0) as Hu;
        destruct (cleanupMates c b st m s0) as [mateKept s3]
    end.
    simpl in *. subst mateKept. repeat split.
    + rewrite Hd3, Hd2, Hd1. reflexivity.
    + rewrite Hf3, Hf2. reflexivity.
    + rewrite Hp3. reflexivity.
Qed.

(** C4.  After the cleanup without a boundary record, which [execute] runs
    when pass 1 has read every record, the fragment map, the paired map and
    the mate map are empty, whatever they held before. *)
Theorem final_cleanup_drains_maps (cfg : Settings) (s : Dedup) :
  (myFragmentMap (cleanupPriorReads cfg None s) = []
   /\ myPairedMap (cleanupPriorReads cfg None s) = []
   /\ myMateMap (cleanupPriorReads cfg None s) = [])
  /\ (myFragmentMap (finishPass1 cfg s) = []
      /\ myPairedMap (finishPass1 cfg s) = []
      /\ myMateMap (finishPass1 cfg s) = []).
Proof.
  pose proof (cleanupPriorReads_maps cfg None s) as [_ H]. simpl in H.
  split; [exact H |]. unfold finishPass1. simpl. exact H.
Qed.

(** The engine state that a finished run reports has empty maps. *)
Lemma execute_finished_drained opts header records s written single paired :
  execute opts header records = Finished s written single paired ->
  myFragmentMap s = [] /\ myPairedMap s = [] /\ myMateMap s = [].
Proof.
  unfold execute.
  destruct (buildReadGroupLibraryMap header) as [[[rgidMap numLib] warned] |];
    [| discriminate].
  destruct (pass1 _ records 0 _) as [s1 |]; [| discriminate].
  destruct (pass2 _ _ _ _ records 0 0 [] 0 0); intros [= <- _ _ _].
  unfold finishPass1. simpl.
  exact (proj2 (cleanupPriorReads_maps _ None s1)).
Qed.

(** A pair key is below the paired cutoff exactly when its larger key is
    below the cutoff key, as long as neither the cutoff nor the pair's smaller
    key is below the default key. *)
Lemma PairedKey_below_cutoff (pk : PairedKey) (cutoff : DupKey) :
  DupKey_ltb cutoff emptyKey = false ->
  DupKey_ltb (key1 pk) emptyKey = false ->
  PairedKey_ltb pk (mkPairedKey emptyKey cutoff) = DupKey_ltb (key2 pk) cutoff.
Proof.
  intros Hc Hk. unfold mkPairedKey. rewrite Hc.
  unfold PairedKey_ltb. cbn [key1 key2].
  destruct (DupKey_eqb (key2 pk) cutoff) eqn:E; [| reflexivity].
  rewrite Hk. apply DupKey_eqb_eq in E. rewrite E.
  symmetry. apply DupKey_ltb_irrefl.
Qed.

(** C5.  A cleanup with a boundary record keeps, unchanged and in order,
    every fragment-map and paired-map entry whose key is not below the cutoff
    key computed from the boundary record, and every mate-map entry whose
    expected position is not below the boundary's linearized position; the
    entries it removes are exactly those strictly below.  Pair keys are
    ordered by their larger key first: when neither the cutoff nor a pair's
    smaller key is below the default key, a pair is removed exactly when its
    larger key is strictly below the cutoff, so once both of its reads are. *)
Theorem cleanup_keeps_from_cutoff (cfg : Settings) (r : SamRecord) (s : Dedup) :
  Ordered s ->
  let s' := cleanupPriorReads cfg (Some r) s in
  let cutoff := cleanupKey (getReferenceID r) (get0BasedPosition r) in
  let pairedCutoff := mkPairedKey emptyKey cutoff in
  let mateStopPos :=
    SamHelper.combineChromPos (getReferenceID r) (get0BasedPosition r) in
  myFragmentMap s' =
    List.filter (fun e => negb (DupKey_ltb e.1 cutoff)) (myFragmentMap s)
  /\ myPairedMap s' =
       List.filter (fun e => negb (PairedKey_ltb e.1 pairedCutoff)) (myPairedMap s)
  /\ myMateMap s' =
       List.filter (fun e => negb (e.1 <? mateStopPos)) (myMateMap s)
  /\ (DupKey_ltb cutoff emptyKey = false ->
      (forall e, In e (myPairedMap s) -> DupKey_ltb (key1 e.1) emptyKey = false) ->
      myPairedMap s' =
        List.filter (fun e => negb (DupKey_ltb (key2 e.1) cutoff)) (myPairedMap s)).
Proof.
  intros [Hf Hp Hm].
  pose proof (cleanupPriorReads_maps cfg (Some r) s) as (_ & Ef & Ep & Em).
  simpl in *. rewrite Ef, Ep, (Em s).
  rewrite (om_split_rest DupKey_ltb DupKey_ltb_trans) by exact Hf.
  rewrite (om_split_rest PairedKey_ltb PairedKey_ltb_trans) by exact Hp.
  rewrite cleanupMates_bounded by exact Hm.
  split; [reflexivity |]. split; [reflexivity |]. split; [reflexivity |].
  intros Hc Hall. apply List.filter_ext_in. intros e He.
  now rewrite PairedKey_below_cutoff by auto.
Qed.

Lemma windowState_Ordered : Ordered windowState.
Proof.
  constructor; repeat constructor; simpl; lia.
Defined.

Lemma cleanup_keeps_from_cutoff_witness :
  Ordered windowState
  /\ myFragmentMap (cleanupPriorReads defaultOptions (Some boundaryRead) windowState) =
    [(mkDupKey 0 1000 false 0, mkReadData 10 (Some (singleRead "b" "+")) 2 false)]
  /\ myPairedMap (cleanupPriorReads defaultOptions (Some boundaryRead) windowState) =
    [(mkPairedKey (mkDupKey 0 500 false 0) (mkDupKey 0 1200 true 0),
      mkPairedData 40 (Some (singleRead "p2" "5")) (Some (singleRead "p2" "5")) 7 8)]
  /\ myMateMap (cleanupPriorReads defaultOptions (Some boundaryRead) windowState) =
    [(2000, mkReadData 8 (Some (singleRead "m2" "+")) 4 false)].
Proof.
  split; [exact windowState_Ordered |].
  destruct (cleanup_keeps_from_cutoff defaultOptions boundaryRead windowState
              windowState_Ordered) as (Hf & Hp & Hm & _).
  split; [rewrite Hf | split; [rewrite Hp | rewrite Hm]]; reflexivity.
Defined.

(** ** The fragment-map step *)

Lemma fragmentStep_frame record recordCount key recordPaired sumQual s :
  let s1 := fragmentStep record recordCount key recordPaired sumQual s in
  myPairedMap s1 = myPairedMap s /\ myMateMap s1 = myMateMap s
  /\ myNumMissingMate s1 = myNumMissingMate s.
Proof.
  unfold fragmentStep. rewrite om_insert_spec.
  destruct (om_lookup DupKey_ltb key (myFragmentMap s)) as [d |]; simpl.
  - destruct (negb (paired d) && (recordPaired || (sumQual >? sumBaseQual d)));
      [destruct (recordPtr d) | destruct recordPaired]; simpl; auto.
  - auto.
Qed.

Lemma fragmentStep_spec record recordCount key recordPaired sumQual s :
  let old := om_lookup DupKey_ltb key (myFragmentMap s) in
  let s1 := fragmentStep record recordCount key recordPaired sumQual s in
  if takesEntry old recordPaired sumQual then
    myFragmentMap s1
      = om_put DupKey_ltb key (readDataOf record recordCount recordPaired sumQual)
          (myFragmentMap s)
    /\ om_lookup DupKey_ltb key (myFragmentMap s1)
      = Some (readDataOf record recordCount recordPaired sumQual)
    /\ myDupList s1
       = myDupList s ++ match old with Some d => [recordIndex d] | None => [] end
    /\ released s1
       = released s ++ match old with Some d => option_list (recordPtr d) | None => [] end
  else
    myFragmentMap s1 = myFragmentMap s
    /\ myDupList s1 = myDupList s ++ (if recordPaired then [] else [recordCount])
    /\ released s1 = released s ++ (if recordPaired then [] else [record]).
Proof.
  unfold fragmentStep, takesEntry, readDataOf. rewrite om_insert_spec.
  destruct (om_lookup DupKey_ltb key (myFragmentMap s)) as [d |]; simpl.
  - destruct (negb (paired d) && (recordPaired || (sumQual >? sumBaseQual d))).
    + destruct (recordPtr d); simpl;
        rewrite (om_lookup_put_eq DupKey_ltb DupKey_ltb_irrefl);
        rewrite ?app_nil_r; repeat split.
    + destruct recordPaired; simpl; rewrite ?app_nil_r; repeat split.
  - rewrite (om_put_put DupKey_ltb DupKey_ltb_irrefl).
    rewrite (om_lookup_put_eq DupKey_ltb DupKey_ltb_irrefl), !app_nil_r.
    repeat split.
Qed.

(** Every entry of the fragment map after the step was there before or is
    the record's own. *)
Lemma fragmentStep_In record recordCount key recordPaired sumQual s e :
  In e (myFragmentMap (fragmentStep record recordCount key recordPaired sumQual s)) ->
  In e (myFragmentMap s)
  \/ e = (key, readDataOf record recordCount recordPaired sumQual).
Proof.
  pose proof (fragmentStep_spec record recordCount key recordPaired sumQual s) as H.
  simpl in H. destruct (takesEntry _ _ _).
  - destruct H as (-> & _). intros He. apply om_put_In in He. tauto.
  - destruct H as (-> & _). auto.
Qed.

Lemma fragmentStep_sorted record recordCount key recordPaired sumQual s :
  om_sorted DupKey_ltb (myFragmentMap s) ->
  om_sorted DupKey_ltb
    (myFragmentMap (fragmentStep record recordCount key recordPaired sumQual s)).
Proof.
  pose proof (fragmentStep_spec record recordCount key recordPaired sumQual s) as H.
  simpl in H. destruct (takesEntry _ _ _).
  - destruct H as (-> & _).
    apply (om_put_sorted DupKey_ltb DupKey_ltb_trans DupKey_ltb_total).
  - destruct H as (-> & _). auto.
Qed.

(** ** The paired-map step *)

Lemma keepStored_false storedPair sumQual mateIndex :
  keepStored storedPair sumQual mateIndex = false <->
  pSumBaseQual storedPair < sumQual
  \/ (pSumBaseQual storedPair = sumQual /\ mateIndex < record2Index storedPair).
Proof.
  unfold keepStored.
  destruct (Z.ltb_spec (pSumBaseQual storedPair) sumQual); [intuition |].
  destruct (Z.eqb_spec (pSumBaseQual storedPair) sumQual).
  - destruct (Z.ltb_spec mateIndex (record2Index storedPair)); intuition; lia.
  - intuition; lia.
Qed.

Lemma pairedStep_spec cfg record recordCount key sumQual mateRecord mateIndex s lib w :
  getLibraryID cfg mateRecord checkTagsDefault = Ok (lib, w) ->
  let pkey := mkPairedKey key (updateKey mateRecord lib) in
  let thisPair := pairDataOf record recordCount sumQual mateRecord mateIndex in
  exists s',
    pairedStep cfg record recordCount key sumQual mateRecord mateIndex s = Ok s'
    /\ myFragmentMap s' = myFragmentMap s
    /\ myMateMap s' = myMateMap s
    /\ myNumMissingMate s' = myNumMissingMate s
    /\ match om_lookup PairedKey_ltb pkey (myPairedMap s) with
       | None =>
           myPairedMap s' = om_put PairedKey_ltb pkey thisPair (myPairedMap s)
           /\ myDupList s' = myDupList s
           /\ released s' = released s
       | Some storedPair =>
           if keepStored storedPair sumQual mateIndex then
             myPairedMap s' = myPairedMap s
             /\ myDupList s' = myDupList s ++ [mateIndex; recordCount]
             /\ released s' = released s ++ [record; mateRecord]
           else
             myPairedMap s' = om_put PairedKey_ltb pkey thisPair (myPairedMap s)
             /\ myDupList s' =
                  myDupList s ++ [record1Index storedPair; record2Index storedPair]
             /\ released s' =
                  released s ++ option_list (record1Ptr storedPair)
                             ++ option_list (record2Ptr storedPair)
       end.
Proof.
  intros Hlib. unfold pairedStep, pairDataOf. rewrite Hlib. simpl.
  rewrite om_insert_spec.
  destruct (om_lookup PairedKey_ltb _ (myPairedMap s)) as [storedPair |]; simpl.
  - destruct (keepStored storedPair sumQual mateIndex); simpl.
    + eexists; split; [reflexivity |]. simpl.
      rewrite <- !app_assoc. repeat split.
    + eexists; split; [reflexivity |].
      destruct (record1Ptr storedPair), (record2Ptr storedPair); simpl;
        rewrite <- ?app_assoc, ?app_nil_r; repeat split.
  - eexists; split; [reflexivity |]. simpl.
    rewrite (om_put_put PairedKey_ltb PairedKey_ltb_irrefl). repeat split.
Qed.

(** ** The shape of [checkDups] *)

Lemma checkDups_unpaired cfg record recordCount s lib w :
  getLibraryID cfg record checkTagsDefault = Ok (lib, w) ->
  isRecordPaired cfg record = false ->
  checkDups cfg record recordCount s =
    Ok (fragmentStep record recordCount (updateKey record lib) false
          (getBaseQuality cfg record) (logLines w s)).
Proof. intros Hlib Hp. unfold checkDups. rewrite Hlib. simpl. now rewrite Hp. Qed.

(** A successful [checkDups] ran the fragment-map step and then did one of
    four things. *)
Lemma checkDups_cases cfg record recordCount s s' :
  checkDups cfg record recordCount s = Ok s' ->
  exists lib w,
    getLibraryID cfg record checkTagsDefault = Ok (lib, w)
    /\ let key := updateKey record lib in
       let sumQual := getBaseQuality cfg record in
       let s1 := fragmentStep record recordCount key (isRecordPaired cfg record)
                   sumQual (logLines w s) in
       (isRecordPaired cfg record = false /\ s' = s1)
       \/ (isRecordPaired cfg record = true
           /\ (s' = setMateMap
                      (mm_insert (matePosOf record)
                         (mkReadData sumQual (Some record) recordCount false)
                         (myMateMap s1)) s1
               \/ s' = handleMissingMate cfg (Some record) s1
               \/ exists mateData rest mateRecord,
                    findMate (readPosOf record) (getReadName record) (myMateMap s1)
                      = Ok (Some (mateData, rest))
                    /\ recordPtr mateData = Some mateRecord
                    /\ pairedStep cfg record recordCount key
                         (sumQual + sumBaseQual mateData) mateRecord
                         (recordIndex mateData) (setMateMap rest s1) = Ok s')).
Proof.
  unfold checkDups, readPosOf, matePosOf.
  destruct (getLibraryID cfg record checkTagsDefault) as [[lib w] | e] eqn:Hlib;
    simpl; [| discriminate].
  intros H. exists lib, w. split; [reflexivity |]. simpl.
  destruct (isRecordPaired cfg record) eqn:Hp; simpl in H.
  2: { left. split; [reflexivity |]. congruence. }
  right. split; [reflexivity |].
  set (s1 := fragmentStep record recordCount (updateKey record lib) true
               (getBaseQuality cfg record) (logLines w s)) in *.
  set (readPos := SamHelper.combineChromPos (getReferenceID record)
                    (get0BasedPosition record)) in *.
  set (matePos := SamHelper.combineChromPos (getMateReferenceID record)
                    (get0BasedMatePosition record)) in *.
  destruct (matePos <=? readPos) eqn:Hle.
  - destruct (findMate readPos (getReadName record) (myMateMap s1))
      as [[[mateData rest] |] | e] eqn:Hfind; simpl in H; [| | discriminate].
    + destruct (findMate_Some _ _ _ _ _ Hfind) as (_ & (mate & Hptr & _) & _).
      rewrite Hptr in H. right; right. exists mateData, rest, mate. auto.
    + destruct (matePos >=? readPos); injection H as <-; auto.
  - simpl in H. destruct (matePos >=? readPos); injection H as <-; auto.
Qed.

Lemma pairedStep_Ok_lib cfg record recordCount key sumQual mateRecord mateIndex s s' :
  pairedStep cfg record recordCount key sumQual mateRecord mateIndex s = Ok s' ->
  exists lib w, getLibraryID cfg mateRecord checkTagsDefault = Ok (lib, w).
Proof.
  unfold pairedStep.
  destruct (getLibraryID cfg mateRecord checkTagsDefault) as [[lib w] |];
    [eauto | discriminate].
Qed.

(** Whatever [checkDups] does after the fragment-map step, it leaves the
    fragment map as the step made it and only appends to the duplicate list. *)
Lemma checkDups_after_fragmentStep cfg record recordCount s s' lib w :
  getLibraryID cfg record checkTagsDefault = Ok (lib, w) ->
  checkDups cfg record recordCount s = Ok s' ->
  let s1 := fragmentStep record recordCount (updateKey record lib)
              (isRecordPaired cfg record) (getBaseQuality cfg record)
              (logLines w s) in
  myFragmentMap s' = myFragmentMap s1
  /\ exists later, myDupList s' = myDupList s1 ++ later.
Proof.
  intros Hlib H s1.
  destruct (checkDups_cases _ _ _ _ _ H) as (lib' & w' & Hlib' & Hc).
  rewrite Hlib in Hlib'. injection Hlib' as <- <-.
  cbv zeta in Hc. fold s1 in Hc.
  destruct Hc as [[_ ->] | [_ [-> | [-> | (mateData & rest & mate & _ & _ & Hp)]]]].
  - split; [reflexivity | exists []; now rewrite app_nil_r].
  - split; [reflexivity | exists []; now rewrite app_nil_r].
  - destruct (handleMissingMate_fields cfg (Some record) s1) as (-> & _ & _ & -> & _).
    split; [reflexivity | exists []; now rewrite app_nil_r].
  - destruct (pairedStep_Ok_lib _ _ _ _ _ _ _ _ _ Hp) as (mlib & mw & Hmlib).
    destruct (pairedStep_spec cfg record recordCount (updateKey record lib)
                (getBaseQuality cfg record + sumBaseQual mateData) mate
                (recordIndex mateData) (setMateMap rest s1) mlib mw Hmlib)
      as (s'' & Hs'' & Hf & _ & _ & Hcase).
    rewrite Hp in Hs''. injection Hs'' as <-.
    split; [exact Hf |]. cbv zeta in Hcase.
    destruct (om_lookup PairedKey_ltb _ _) as [stored |].
    + destruct (keepStored _ _ _); destruct Hcase as (_ & -> & _); simpl; eauto.
    + destruct Hcase as (_ & -> & _). exists []. now rewrite app_nil_r.
Qed.

(** C1 (amended).  A mapped record [r] takes the fragment-map entry at its key
    exactly when the key is fresh, or the existing entry is unpaired and
    either [r] is treated as paired (paired flag, mapped mate, and not demoted
    by one-chromosome mode) or [r]'s quality sum exceeds the entry's.  When it
    takes the entry, the superseded record's index, if any, is appended to the
    duplicate list and its record released.  Otherwise the entry stays, and if
    [r] is not treated as paired its index is appended to the duplicate list
    at once and [r] is released.  The rest of [checkDups] leaves the fragment
    map alone and only appends to the duplicate list. *)
Theorem fragment_entry_decision (cfg : Settings) (record : SamRecord)
    (recordCount : Z) (s : Dedup) (lib : Z) (w : list LogLine) :
  getLibraryID cfg record checkTagsDefault = Ok (lib, w) ->
  let key := updateKey record lib in
  let recordPaired := isRecordPaired cfg record in
  let sumQual := getBaseQuality cfg record in
  let s1 := fragmentStep record recordCount key recordPaired sumQual (logLines w s) in
  let mine := mkReadData sumQual (if recordPaired then None else Some record)
                recordCount recordPaired in
  (forall s', checkDups cfg record recordCount s = Ok s' ->
     myFragmentMap s' = myFragmentMap s1
     /\ exists later, myDupList s' = myDupList s1 ++ later)
  /\ (recordPaired = false -> checkDups cfg record recordCount s = Ok s1)
  /\ match om_lookup DupKey_ltb key (myFragmentMap s) with
     | None =>
         om_lookup DupKey_ltb key (myFragmentMap s1) = Some mine
         /\ myDupList s1 = myDupList s
         /\ released s1 = released s
     | Some old =>
         if negb (paired old) && (recordPaired || (sumQual >? sumBaseQual old))
         then
           om_lookup DupKey_ltb key (myFragmentMap s1) = Some mine
           /\ myDupList s1 = myDupList s ++ [recordIndex old]
           /\ released s1 = released s ++ option_list (recordPtr old)
         else
           myFragmentMap s1 = myFragmentMap s
           /\ (if recordPaired
               then myDupList s1 = myDupList s /\ released s1 = released s
               else myDupList s1 = myDupList s ++ [recordCount]
                    /\ released s1 = released s ++ [record])
     end.
Proof.
  intros Hlib key recordPaired sumQual s1 mine.
  split; [| split].
  - intros s' H. exact (checkDups_after_fragmentStep _ _ _ _ _ _ _ Hlib H).
  - intros Hp. unfold s1. rewrite Hp.
    apply checkDups_unpaired; assumption.
  - pose proof (fragmentStep_spec record recordCount key recordPaired sumQual
                  (logLines w s)) as H.
    simpl in H. fold s1 in H. unfold takesEntry, readDataOf in H. fold mine in H.
    destruct (om_lookup DupKey_ltb key (myFragmentMap s)) as [old |].
    + destruct (negb (paired old) && (recordPaired || (sumQual >? sumBaseQual old))).
      * tauto.
      * destruct H as (Hm & Hd & Hr). split; [exact Hm |].
        destruct recordPaired; rewrite ?app_nil_r in *; auto.
    + rewrite !app_nil_r in H. tauto.
Qed.

Lemma fragment_entry_decision_witness :
  getLibraryID defaultOptions (singleRead "v" "5") checkTagsDefault = Ok (0, [])
  /\ checkDups defaultOptions (singleRead "v" "5") 2 heldBy50 =
       Ok (fragmentStep (singleRead "v" "5") 2 (updateKey (singleRead "v" "5") 0)
             false 20 heldBy50).
Proof.
  split; [reflexivity |].
  apply (fragment_entry_decision defaultOptions (singleRead "v" "5") 2 heldBy50 0 []);
    reflexivity.
Defined.

(** C1 as stated fails.  In one-chromosome mode the entry at the key is
    unpaired (quality sum 50) and the arriving record is paired with a mapped
    mate (quality sum 20), so the claim has it take the entry; the code demotes
    it to unpaired first, keeps the old entry and marks the arriving record a
    duplicate. *)
Lemma fragment_entry_decision_counterexample :
  let key := updateKey crossChromRead 0 in
  exists old s',
    om_lookup DupKey_ltb key (myFragmentMap heldBy50) = Some old
    /\ paired old = false
    /\ SamFlag.isPaired (getFlag crossChromRead)
       && SamFlag.isMateMapped (getFlag crossChromRead) = true
    /\ checkDups oneChromOptions crossChromRead 2 heldBy50 = Ok s'
    /\ om_lookup DupKey_ltb key (myFragmentMap s') = Some old
    /\ recordIndex old = 1
    /\ myDupList s' = [2].
Proof.
  eexists; eexists. repeat split; vm_compute; reflexivity.
Qed.

(** The pair scenario through the whole run: both pairs have combined sum
    40, pair A's first mate is record 1, and pair B's two records are the
    duplicates. *)
Example twoPairs_run :
  exists s written,
    execute defaultOptions [] twoPairs = Finished s written 0 2
    /\ myDupList s = [2; 4]
    /\ map getFlag written = [0x63; Z.lor 0x63 0x400; 0x93; Z.lor 0x93 0x400].
Proof. eexists; eexists. split; [| split]; vm_compute; reflexivity. Qed.

(** ** Single-end candidates at one key *)

Lemma single_end_arrival cfg r i s lib w :
  getLibraryID cfg r checkTagsDefault = Ok (lib, w) ->
  isRecordPaired cfg r = false ->
  let key := updateKey r lib in
  let q := getBaseQuality cfg r in
  exists s',
    checkDups cfg r i s = Ok s'
    /\ match om_lookup DupKey_ltb key (myFragmentMap s) with
       | None =>
           om_lookup DupKey_ltb key (myFragmentMap s') =
             Some (mkReadData q (Some r) i false)
           /\ myDupList s' = myDupList s
           /\ released s' = released s
       | Some d =>
           if negb (paired d) && (q >? sumBaseQual d) then
             om_lookup DupKey_ltb key (myFragmentMap s') =
               Some (mkReadData q (Some r) i false)
             /\ myDupList s' = myDupList s ++ [recordIndex d]
             /\ released s' = released s ++ option_list (recordPtr d)
           else
             myFragmentMap s' = myFragmentMap s
             /\ myDupList s' = myDupList s ++ [i]
             /\ released s' = released s ++ [r]
       end.
Proof.
  intros Hlib Hp key q. eexists. split; [apply checkDups_unpaired; eassumption |].
  pose proof (fragmentStep_spec r i key false q (logLines w s)) as H.
  cbv zeta in H. unfold takesEntry, readDataOf in H. fold key q.
  change (myFragmentMap (logLines w s)) with (myFragmentMap s) in H.
  change (myDupList (logLines w s)) with (myDupList s) in H.
  change (released (logLines w s)) with (released s) in H.
  destruct (om_lookup DupKey_ltb key (myFragmentMap s)) as [d |] eqn:Hd.
  - rewrite orb_false_l in H.
    destruct (negb (paired d) && (q >? sumBaseQual d)); tauto.
  - rewrite !app_nil_r in H. tauto.
Qed.

(** C3 (amended).  A single-end record [r1] arriving at its key, in any state
    of the engine.  If the key is not in the fragment map, [r1] takes it and
    nothing is listed.  If an unpaired read holds the key, the one with the
    strictly higher quality sum survives: [r1] takes the entry when its sum is
    strictly higher, and the holder, which arrived earlier, stays otherwise,
    so also on equal sums; the index of the other is appended to the duplicate
    list and its record released.  If a paired read holds the key, [r1] is
    listed and released whatever its sum.  Hence, for single-end records that
    [checkDups] gets one after the other at a key that was not in the map: of
    the first two, the one with the strictly higher sum survives whichever
    arrived first, and on equal sums the one that arrived first survives; with
    sums 10, 25, 10 in that order, the duplicate list gains the indices of the
    first and the third read, and the second read holds the entry. *)
Theorem single_end_tie_break (cfg : Settings) (r1 : SamRecord) (i1 : Z)
    (s : Dedup) (lib1 : Z) (w1 : list LogLine) :
  getLibraryID cfg r1 checkTagsDefault = Ok (lib1, w1) ->
  isRecordPaired cfg r1 = false ->
  let key := updateKey r1 lib1 in
  let q1 := getBaseQuality cfg r1 in
  let mine := mkReadData q1 (Some r1) i1 false in
  exists s1,
    checkDups cfg r1 i1 s = Ok s1
    /\ match om_lookup DupKey_ltb key (myFragmentMap s) with
       | None =>
           om_lookup DupKey_ltb key (myFragmentMap s1) = Some mine
           /\ myDupList s1 = myDupList s
           /\ released s1 = released s
       | Some old =>
           if paired old then
             myFragmentMap s1 = myFragmentMap s
             /\ myDupList s1 = myDupList s ++ [i1]
             /\ released s1 = released s ++ [r1]
           else if q1 >? sumBaseQual old then
             om_lookup DupKey_ltb key (myFragmentMap s1) = Some mine
             /\ myDupList s1 = myDupList s ++ [recordIndex old]
             /\ released s1 = released s ++ option_list (recordPtr old)
           else
             myFragmentMap s1 = myFragmentMap s
             /\ myDupList s1 = myDupList s ++ [i1]
             /\ released s1 = released s ++ [r1]
       end
    /\ forall (r2 r3 : SamRecord) (i2 i3 lib2 lib3 : Z) (w2 w3 : list LogLine),
         getLibraryID cfg r2 checkTagsDefault = Ok (lib2, w2) ->
         getLibraryID cfg r3 checkTagsDefault = Ok (lib3, w3) ->
         updateKey r2 lib2 = key ->
         updateKey r3 lib3 = key ->
         isRecordPaired cfg r2 = false ->
         isRecordPaired cfg r3 = false ->
         om_lookup DupKey_ltb key (myFragmentMap s) = None ->
         let q2 := getBaseQuality cfg r2 in
         let q3 := getBaseQuality cfg r3 in
         exists s2 s3,
           checkDups cfg r2 i2 s1 = Ok s2
           /\ checkDups cfg r3 i3 s2 = Ok s3
           /\ (q2 > q1 ->
               om_lookup DupKey_ltb key (myFragmentMap s2) =
                 Some (mkReadData q2 (Some r2) i2 false)
               /\ myDupList s2 = myDupList s ++ [i1]
               /\ released s2 = released s ++ [r1])
           /\ (q2 <= q1 ->
               om_lookup DupKey_ltb key (myFragmentMap s2) = Some mine
               /\ myDupList s2 = myDupList s ++ [i2]
               /\ released s2 = released s ++ [r2])
           /\ (q1 = 10 -> q2 = 25 -> q3 = 10 ->
               om_lookup DupKey_ltb key (myFragmentMap s3) =
                 Some (mkReadData q2 (Some r2) i2 false)
               /\ myDupList s3 = myDupList s ++ [i1; i3]
               /\ released s3 = released s ++ [r1; r3]).
Proof.
  intros Hl1 Hp1 key q1 mine.
  destruct (single_end_arrival cfg r1 i1 s lib1 w1 Hl1 Hp1) as (s1 & Hs1 & H1).
  cbv zeta in H1. fold key q1 in H1. fold mine in H1.
  exists s1. split; [exact Hs1 |]. split.
  { destruct (om_lookup DupKey_ltb key (myFragmentMap s)) as [old |]; [| exact H1].
    destruct (paired old); cbn [negb andb] in H1; [exact H1 |].
    destruct (q1 >? sumBaseQual old); exact H1. }
  intros r2 r3 i2 i3 lib2 lib3 w2 w3 Hl2 Hl3 Hk2 Hk3 Hp2 Hp3 Hfresh q2 q3.
  rewrite Hfresh in H1. destruct H1 as (Hm1 & Hd1 & Hr1).
  destruct (single_end_arrival cfg r2 i2 s1 lib2 w2 Hl2 Hp2) as (s2 & Hs2 & H2).
  cbv zeta in H2. rewrite Hk2 in H2. fold q2 in H2. rewrite Hm1 in H2.
  unfold mine in H2. cbn [paired sumBaseQual recordIndex recordPtr negb andb] in H2.
  destruct (single_end_arrival cfg r3 i3 s2 lib3 w3 Hl3 Hp3) as (s3 & Hs3 & H3).
  cbv zeta in H3. rewrite Hk3 in H3. fold q3 in H3.
  exists s2, s3. split; [exact Hs2 |]. split; [exact Hs3 |].
  destruct (Z.gtb_spec q2 q1) as [Hgt | Hle].
  - destruct H2 as (Hm2 & Hd2 & Hr2). rewrite Hd1 in Hd2. rewrite Hr1 in Hr2.
    rewrite Hm2 in H3.
    cbn [paired sumBaseQual recordIndex recordPtr negb andb option_list] in H3, Hr2.
    split; [auto |]. split; [intros; lia |].
    intros E1 E2 E3. destruct (Z.gtb_spec q3 q2) as [| _]; [lia |].
    destruct H3 as (Hm3 & Hd3 & Hr3). rewrite Hd2 in Hd3. rewrite Hr2 in Hr3.
    rewrite <- app_assoc in Hd3, Hr3. rewrite Hm3. auto.
  - destruct H2 as (Hm2 & Hd2 & Hr2). rewrite Hd1 in Hd2. rewrite Hr1 in Hr2.
    split; [intros; lia |]. split; [rewrite Hm2; auto |]. intros; lia.
Qed.

Lemma single_end_tie_break_witness :
  let cfg := noFloorOptions in
  exists s1 s2 s3,
    checkDups cfg (singleRead "r1" "+") 1 initialDedup = Ok s1
    /\ checkDups cfg (singleRead "r2" ":") 2 s1 = Ok s2
    /\ checkDups cfg (singleRead "r3" "+") 3 s2 = Ok s3
    /\ myDupList s3 = [1; 3].
Proof.
  intros cfg.
  destruct (single_end_tie_break cfg (singleRead "r1" "+") 1 initialDedup 0 []
              eq_refl eq_refl)
    as (s1 & H1 & _ & Hnext).
  destruct (Hnext (singleRead "r2" ":") (singleRead "r3" "+") 2 3 0 0 [] []
              eq_refl eq_refl eq_refl eq_refl eq_refl eq_refl eq_refl)
    as (s2 & s3 & H2 & H3 & _ & _ & H).
  exists s1, s2, s3. split; [exact H1 |]. split; [exact H2 |]. split; [exact H3 |].
  apply H; reflexivity.
Defined.

(** C3 as stated fails.  Two single-end reads with quality sums 20 and 50
    arrive at a key that a paired read holds: neither of the two survives, and
    both are listed, the one with the strictly higher sum as well. *)
Lemma single_end_tie_break_counterexample :
  let r2 := singleRead "r2" "5" in
  let r3 := singleRead "r3" "S" in
  updateKey r2 0 = updateKey r3 0
  /\ isRecordPaired defaultOptions r2 = false
  /\ isRecordPaired defaultOptions r3 = false
  /\ getBaseQuality defaultOptions r2 = 20
  /\ getBaseQuality defaultOptions r3 = 50
  /\ exists s written,
       execute defaultOptions [] [firstMate "A"; r2; r3] = Finished s written 2 0
       /\ myDupList s = [2; 3]
       /\ map getFlag written = [0x63; 0x400; 0x400].
Proof.
  cbv zeta. split; [reflexivity |]. split; [reflexivity |]. split; [reflexivity |].
  split; [reflexivity |]. split; [reflexivity |].
  eexists; eexists. split; [| split]; vm_compute; reflexivity.
Qed.

(** Nor does it hold when the window moves between the two arrivals: the
    second read starts at position 1200 and is clipped back to the key of the
    first, which cleanup has settled by then; both reads have quality sum 10,
    and neither is listed. *)
Example single_reads_across_cleanup :
  let r1 := singleRead "r1" "+" in
  let r2 := clippedRead "r2" "+" in
  updateKey r1 0 = updateKey r2 0
  /\ exists s written,
       execute noFloorOptions [] [r1; r2] = Finished s written 0 0
       /\ myDupList s = []
       /\ map getFlag written = [0; 0].
Proof.
  cbv zeta. split; [reflexivity |].
  eexists; eexists. split; [| split]; vm_compute; reflexivity.
Qed.

(** The three reads through the whole run. *)
Example threeReads_run :
  exists s written,
    execute noFloorOptions [] threeReads
      = Finished s written 2 0
    /\ myDupList s = [1; 3]
    /\ map getFlag written = [0x400; 0; 0x400].
Proof. eexists; eexists. split; [| split]; vm_compute; reflexivity. Qed.

(** ** Library lookup *)

Lemma scanRGTags_values readName tags rgID :
  scanRGTags readName tags rgID =
    scanValues readName (map tagValue (List.filter isRGTag tags)) rgID.
Proof.
  revert rgID. induction tags as [| t tags IH]; simpl; intros rgID; [reflexivity |].
  unfold isRGTag at 1.
  destruct (Ascii.eqb (tag0 t) "R" && Ascii.eqb (tag1 t) "G") eqn:Hrg; simpl;
    [| apply IH].
  destruct (Ascii.eqb (vtype t) "Z") eqn:Hz; simpl; [| apply IH].
  destruct (negb (isEmpty rgID)); [reflexivity |].
  unfold isStringType. rewrite Hz. apply IH.
Qed.

(** C7 (amended).  The read-group tag of a record is consulted only when the
    header defines more than one library or tag checking is asked for;
    otherwise the library id is 0 for every record and nothing is fatal.  When
    the tag is consulted, a record with no [RG:Z] value is fatal, a record with
    a second [RG:Z] tag after a non-empty one is fatal, and a record whose one
    value is in the dictionary gets the library id stored there. *)
Theorem library_id_conditions (cfg : Settings) (record : SamRecord)
    (checkTags : bool) :
  if negb (checkTags || (1 <? numLibraries cfg)) then
    getLibraryID cfg record checkTags = Ok (0, [])
  else
    match rgValues record with
    | [] => getLibraryID cfg record checkTags = Fatal (NoRGTag (getReadName record))
    | [v] =>
        if isEmpty v
        then getLibraryID cfg record checkTags = Fatal (NoRGTag (getReadName record))
        else match rgidLibMap cfg !! v with
             | Some lib => getLibraryID cfg record checkTags = Ok (lib, [])
             | None => True
             end
    | v :: _ :: _ =>
        if isEmpty v then True
        else getLibraryID cfg record checkTags
             = Fatal (MultipleRGTag (getReadName record))
    end.
Proof.
  unfold getLibraryID, rgValues. rewrite scanRGTags_values.
  replace (1 <? numLibraries cfg) with (negb (numLibraries cfg <=? 1))
    by (destruct (Z.leb_spec (numLibraries cfg) 1), (Z.ltb_spec 1 (numLibraries cfg));
        simpl; try reflexivity; lia).
  destruct checkTags, (numLibraries cfg <=? 1); simpl; try reflexivity;
    destruct (map tagValue (List.filter isRGTag (getTags record))) as [| v [| v' vs]];
    simpl; try reflexivity;
    destruct (isEmpty v) eqn:Hv; simpl; rewrite ?Hv; try reflexivity; try exact I;
    destruct (rgidLibMap cfg !! v); try reflexivity; exact I.
Qed.

(** C7 as stated fails.  The header defines the one read group [A]; a
    record refers to read group [B], which is not in the dictionary.  The
    lookup does not consult the tag, and the run finishes. *)
Lemma library_id_counterexample :
  exists cfg s written,
    buildReadGroupLibraryMap [mkRG "A" "L"] = Ok (rgidLibMap cfg, numLibraries cfg, [])
    /\ rgValues (taggedRead "x" "B") = ["B"]
    /\ rgidLibMap cfg !! "B" = None
    /\ getLibraryID cfg (taggedRead "x" "B") checkTagsDefault = Ok (0, [])
    /\ execute defaultOptions [mkRG "A" "L"] [taggedRead "x" "B"]
       = Finished s written 0 0.
Proof.
  exists (withLibraries defaultOptions {["A" := 1]} 1).
  eexists; eexists.
  split; [| split; [| split; [| split]]]; vm_compute; reflexivity.
Qed.

(** With two libraries in the header the tag is consulted; for the unknown
    read group the code writes a warning and goes on with library 0. *)
Example unknown_read_group_two_libraries :
  exists cfg,
    buildReadGroupLibraryMap [mkRG "A" "L1"; mkRG "B" "L2"]
      = Ok (rgidLibMap cfg, numLibraries cfg, [])
    /\ numLibraries cfg = 2
    /\ rgidLibMap cfg !! "C" = None
    /\ getLibraryID cfg (taggedRead "x" "C") checkTagsDefault
       = Ok (0, [WarnUnknownRG "C"]).
Proof.
  exists (withLibraries defaultOptions {["A" := 1; "B" := 2]} 2).
  split; [| split; [| split]]; vm_compute; reflexivity.
Qed.

(** ** Base quality *)

(** A base whose quality is exactly the floor is added to the sum. *)
Lemma sumQualities_at_floor minQual baseQualities i n quality :
  charToInt (qualityAt baseQualities i) - 33 = minQual ->
  sumQualities minQual baseQualities i (S n) quality =
    sumQualities minQual baseQualities (S i) n (quality + minQual).
Proof.
  intros H. simpl. rewrite H.
  destruct (Z.geb_spec minQual minQual); [reflexivity | lia].
Qed.

(** C9 at the floor: with the default floor 15, a read whose only base has
    phred quality 15 (the character '0') has quality sum 15, not 0. *)
Theorem base_at_floor_is_counted :
  myMinQual defaultOptions = 15
  /\ charToInt (qualityAt "0" 0) - 33 = 15
  /\ getBaseQuality defaultOptions (singleRead "x" "0") = 15.
Proof. repeat split. Qed.

(** ** Input that is already duplicate-marked *)

(** With the pool exhausted the loop ends where it is, whatever is left of
    the input. *)
Lemma pass1_exhausted cfg records n s :
  poolExhausted cfg n s = true ->
  pass1 cfg records n s = Pass1Abort PoolExhausted s.
Proof. intros H. destruct records; cbn [pass1]; now rewrite H. Qed.

Lemma pass1_app cfg pre post n s :
  pass1 cfg (pre ++ post) n s =
    match pass1 cfg pre n s with
    | Pass1Done s' => pass1 cfg post (n + Z.of_nat (length pre)) s'
    | Pass1Abort e s' => Pass1Abort e s'
    end.
Proof.
  revert n s. induction pre as [| r pre IH]; intros n s.
  - cbn [app pass1 length]. rewrite Z.add_0_r.
    destruct (poolExhausted cfg n s) eqn:He; [| reflexivity].
    now apply pass1_exhausted.
  - cbn [app pass1 length].
    replace (n + Z.of_nat (S (length pre))) with (n + 1 + Z.of_nat (length pre))
      by lia.
    destruct (poolExhausted cfg n s); [reflexivity |].
    destruct (SamFlag.isDuplicate (getFlag r) && negb (myForceFlag cfg));
      [reflexivity |].
    destruct (hasPositionChanged r s) as [changed s1].
    destruct (negb (SamFlag.isMapped (getFlag r))); [apply IH |].
    destruct (checkDups cfg r (n + 1) _); [apply IH | reflexivity].
Qed.

(** When the loop has read the whole input, the pool had a record for the
    last round. *)
Lemma pass1_Done_pool cfg records n s s' :
  pass1 cfg records n s = Pass1Done s' ->
  poolExhausted cfg (n + Z.of_nat (length records)) s' = false.
Proof.
  revert n s. induction records as [| r records IH]; intros n s; cbn [pass1 length].
  - rewrite Z.add_0_r.
    destruct (poolExhausted cfg n s) eqn:He; [discriminate |]. now intros [= <-].
  - replace (n + Z.of_nat (S (length records)))
      with (n + 1 + Z.of_nat (length records)) by lia.
    destruct (poolExhausted cfg n s); [discriminate |].
    destruct (SamFlag.isDuplicate (getFlag r) && negb (myForceFlag cfg));
      [discriminate |].
    destruct (hasPositionChanged r s) as [changed s1].
    destruct (negb (SamFlag.isMapped (getFlag r))); [apply IH |].
    destruct (checkDups cfg r (n + 1) _); [apply IH | discriminate].
Qed.

(** C8 (amended).  Without force mode, an input that contains a record
    already marked as duplicate ends in a fatal abort during pass 1, before the
    output file is opened, so nothing is written.  The records in front of the
    first such record are processed by pass 1 as usual; the abort comes when
    that record is read, before the engine sees it or any later record. *)
Theorem duplicate_marked_input_aborts (opts : Settings) (header : list RGRecord)
    (pre post : list SamRecord) (r : SamRecord) :
  myForceFlag opts = false ->
  SamFlag.isDuplicate (getFlag r) = true ->
  (exists e s, execute opts header (pre ++ r :: post) = Aborted e s)
  /\ forall libs n m s0,
       pass1 (withLibraries opts libs n) (pre ++ r :: post) m s0 =
         match pass1 (withLibraries opts libs n) pre m s0 with
         | Pass1Done s1 => Pass1Abort AlreadyDuplicateMarked s1
         | Pass1Abort e s1 => Pass1Abort e s1
         end.
Proof.
  intros Hforce Hdup.
  assert (Hpass : forall libs n m s0,
             pass1 (withLibraries opts libs n) (pre ++ r :: post) m s0 =
               match pass1 (withLibraries opts libs n) pre m s0 with
               | Pass1Done s1 => Pass1Abort AlreadyDuplicateMarked s1
               | Pass1Abort e s1 => Pass1Abort e s1
               end).
  { intros libs n m s0. rewrite pass1_app.
    destruct (pass1 _ pre m s0) as [s1 | e s1] eqn:Hpre; [| reflexivity].
    cbn [pass1]. rewrite (pass1_Done_pool _ _ _ _ _ Hpre), Hdup. simpl.
    rewrite Hforce. reflexivity. }
  split; [| exact Hpass].
  unfold execute.
  destruct (buildReadGroupLibraryMap header) as [[[libs n] warned] | e]; [| eauto].
  rewrite Hpass. destruct (pass1 _ pre 0 _); eauto.
Qed.

Lemma duplicate_marked_input_aborts_witness :
  myForceFlag defaultOptions = false
  /\ SamFlag.isDuplicate (getFlag markedRead) = true
  /\ exists e s,
       execute defaultOptions [] ([singleRead "u" "S"] ++ markedRead :: []) =
         Aborted e s.
Proof.
  split; [reflexivity |]. split; [reflexivity |].
  apply (duplicate_marked_input_aborts defaultOptions [] [singleRead "u" "S"] []
           markedRead); reflexivity.
Defined.

(** C8 as stated fails: the abort does not come before any processing.  The
    read in front of the marked one has gone through the engine when the run
    aborts: it sits in the fragment map and a cleanup has run for it. *)
Lemma duplicate_marked_input_counterexample :
  exists s,
    execute defaultOptions [] [singleRead "u" "S"; markedRead] =
      Aborted AlreadyDuplicateMarked s
    /\ myFragmentMap s =
         [(mkDupKey 0 100 false 0,
           mkReadData 50 (Some (singleRead "u" "S")) 1 false)]
    /\ lastCoordinate s = 100
    /\ s <> initialDedup.
Proof.
  eexists. split; [vm_compute; reflexivity |].
  split; [reflexivity |]. split; [reflexivity |]. discriminate.
Qed.

(** ** Pass 2 *)

(** Once the cursor has reached the end of a non-empty duplicate list, the
    next record makes the loop read the vector past its end. *)
Lemma pass2_reads_past_end cfg table dupList record rest n written single paired :
  pass2 cfg table dupList true (record :: rest) n (Z.of_nat (length dupList))
        written single paired
  = Pass2OutOfBounds written (n + 1) (Z.of_nat (length dupList)).
Proof.
  cbn [pass2]. unfold foundDupAt. rewrite Nat2Z.id.
  now rewrite (lookup_ge_None_2 dupList (length dupList)) by lia.
Qed.

(** C10 at a failing input: two single-end reads at one key, quality sums
    20 and 50.  Pass 1 puts record 1 on the duplicate list; in pass 2 record 1
    moves the cursor to 1, the length of the list, and for record 2 the loop
    reads [myDupList[1]]. *)
Theorem pass2_cursor_out_of_bounds :
  execute defaultOptions [] [singleRead "r1" "5"; singleRead "r2" "S"]
  = OutOfBounds [setFlag (singleRead "r1" "5") 0x400] 2 1.
Proof. vm_compute. reflexivity. Qed.

(** ** Indices that can reach the duplicate list *)

Lemma tracked_same idx s s' : sameTracking s s' -> tracked idx s' -> tracked idx s.
Proof. unfold tracked. intros (-> & -> & -> & ->). auto. Qed.

Lemma om_split_rest_In {K V} (ltb : K -> K -> bool) k (m : list (K * V)) e :
  In e (om_split ltb k m).2 -> In e m.
Proof.
  intros H. rewrite <- (om_split_app ltb k m). apply in_or_app. now right.
Qed.

Lemma cleanupMates_In cfg bounded stop m s e :
  In e (cleanupMates cfg bounded stop m s).1 -> In e m.
Proof.
  revert s. induction m as [| e' m IH]; simpl; intros s; [auto |].
  destruct (bounded && (e'.1 >=? stop)); simpl; [auto |].
  intros H. right. eauto.
Qed.

Lemma cleanupPriorReads_tracked cfg record idx s :
  tracked idx (cleanupPriorReads cfg record s) -> tracked idx s.
Proof.
  pose proof (cleanupPriorReads_maps cfg record s) as [Hd Hm]. cbv zeta in *.
  unfold tracked. rewrite Hd.
  destruct record as [r |].
  - destruct Hm as (-> & -> & Hmate). rewrite (Hmate s).
    intros [H | [(e & H & ?) | [(e & H & ?) | (e & H & ?)]]]; auto.
    + apply om_split_rest_In in H. eauto.
    + apply cleanupMates_In in H. eauto 6.
    + apply om_split_rest_In in H. eauto 6.
  - destruct Hm as (-> & -> & ->).
    intros [H | [(e & [] & ?) | [(e & [] & ?) | (e & [] & ?)]]]; auto.
Qed.

Lemma fragmentStep_tracked record recordCount key recordPaired sumQual idx s :
  recordPaired = true \/ recordCount <> idx ->
  tracked idx (fragmentStep record recordCount key recordPaired sumQual s) ->
  tracked idx s.
Proof.
  intros Hne.
  pose proof (fragmentStep_frame record recordCount key recordPaired sumQual s)
    as (Hp & Hm & _).
  pose proof (fragmentStep_spec record recordCount key recordPaired sumQual s) as H.
  cbv zeta in *. unfold tracked. rewrite Hp, Hm.
  assert (Hmine : forall e,
             In e (om_put DupKey_ltb key
                     (readDataOf record recordCount recordPaired sumQual)
                     (myFragmentMap s)) ->
             paired e.2 = false -> recordIndex e.2 = idx ->
             In e (myFragmentMap s)).
  { intros e He He1 He2. apply om_put_In in He as [-> | He]; [| exact He].
    simpl in He1, He2. destruct Hne; congruence. }
  destruct (om_lookup DupKey_ltb key (myFragmentMap s)) as [d |] eqn:Hold;
    unfold takesEntry in H.
  - apply (om_lookup_In DupKey_ltb DupKey_ltb_total) in Hold.
    destruct (negb (paired d) && (recordPaired || (sumQual >? sumBaseQual d)))
      eqn:Hcond.
    + apply andb_prop in Hcond as [Hunp _]. apply negb_true_iff in Hunp.
      destruct H as (Hmap & _ & Hd & _). rewrite Hmap, Hd.
      intros [Hin | [(e & Hin & He1 & He2) | Hrest]]; [| | auto].
      * apply in_app_or in Hin as [Hin | [<- | []]]; [auto |].
        right; left. exists (key, d). auto.
      * right; left. eauto.
    + destruct H as (-> & -> & _).
      intros [Hin | Hrest]; [| auto].
      apply in_app_or in Hin as [Hin | Hin]; [auto |].
      destruct recordPaired; [destruct Hin |].
      destruct Hin as [<- | []]. destruct Hne; congruence.
  - destruct H as (Hmap & _ & Hd & _). rewrite Hmap, Hd, app_nil_r.
    intros [Hin | [(e & Hin & He1 & He2) | Hrest]]; [auto | | auto].
    right; left. eauto.
Qed.

Lemma pairedStep_tracked cfg record recordCount key sumQual mateRecord mateIndex
    idx s s' :
  recordCount <> idx ->
  mateIndex <> idx ->
  pairedStep cfg record recordCount key sumQual mateRecord mateIndex s = Ok s' ->
  tracked idx s' -> tracked idx s.
Proof.
  intros Hne Hmne Hstep.
  destruct (pairedStep_Ok_lib _ _ _ _ _ _ _ _ _ Hstep) as (lib & w & Hlib).
  destruct (pairedStep_spec cfg record recordCount key sumQual mateRecord
              mateIndex s lib w Hlib) as (s'' & Hs'' & Hf & Hm & _ & Hcase).
  rewrite Hstep in Hs''. injection Hs'' as <-. cbv zeta in Hcase.
  unfold tracked. rewrite Hf, Hm.
  assert (Hput : forall e,
             In e (om_put PairedKey_ltb (mkPairedKey key (updateKey mateRecord lib))
                     (pairDataOf record recordCount sumQual mateRecord mateIndex)
                     (myPairedMap s)) ->
             record1Index e.2 = idx \/ record2Index e.2 = idx ->
             In e (myPairedMap s)).
  { intros e He Hidx. apply om_put_In in He as [-> | He]; [| exact He].
    simpl in Hidx. destruct Hidx; congruence. }
  destruct (om_lookup PairedKey_ltb _ (myPairedMap s)) as [stored |] eqn:Hold.
  - apply (om_lookup_In PairedKey_ltb PairedKey_ltb_total) in Hold.
    destruct (keepStored stored sumQual mateIndex);
      destruct Hcase as (-> & -> & _);
      intros [Hin | [Hfr | [Hmt | (e & Hin & Hidx)]]]; auto.
    + apply in_app_or in Hin as [Hin | [<- | [<- | []]]]; auto; congruence.
    + eauto 7.
    + apply in_app_or in Hin as [Hin | [<- | [<- | []]]]; auto.
      * do 3 right. exists (mkPairedKey key (updateKey mateRecord lib), stored). auto.
      * do 3 right. exists (mkPairedKey key (updateKey mateRecord lib), stored). auto.
    + do 3 right. exists e. auto.
  - destruct Hcase as (-> & -> & _).
    intros [Hin | [Hfr | [Hmt | (e & Hin & Hidx)]]]; auto.
    do 3 right. exists e. auto.
Qed.

(** A record index that is not tracked stays untracked while records with
    other indices are processed. *)
Lemma checkDups_tracked cfg record recordCount idx s s' :
  recordCount <> idx ->
  checkDups cfg record recordCount s = Ok s' ->
  tracked idx s' -> tracked idx s.
Proof.
  intros Hne H Ht.
  destruct (checkDups_cases _ _ _ _ _ H) as (lib & w & _ & Hc). cbv zeta in Hc.
  set (s1 := fragmentStep record recordCount (updateKey record lib)
               (isRecordPaired cfg record) (getBaseQuality cfg record)
               (logLines w s)) in *.
  assert (H1 : tracked idx s1 -> tracked idx s).
  { intros Ht1. apply fragmentStep_tracked in Ht1; [| right; exact Hne].
    revert Ht1. apply tracked_same. repeat split. }
  destruct Hc as [[_ ->] | [_ [-> | [-> | (mateData & rest & mate & Hfind & _ & Hp)]]]].
  - auto.
  - apply H1. destruct Ht as [Hin | [Hfr | [(e & Hin & Hidx) | Hpr]]];
      unfold tracked; auto.
    simpl in Hin. apply mm_insert_In in Hin as [-> | Hin]; [simpl in Hidx; congruence |].
    eauto 6.
  - apply H1. revert Ht. apply tracked_same, handleMissingMate_same.
  - apply H1. destruct (findMate_Some _ _ _ _ _ Hfind) as (Hin & _ & Hsub & _).
    destruct (Z.eq_dec (recordIndex mateData) idx) as [Heq | Hmne].
    + right; right; left. exists (readPosOf record, mateData). auto.
    + apply (pairedStep_tracked _ _ _ _ _ _ _ idx _ _ Hne Hmne Hp) in Ht.
      destruct Ht as [Hd | [Hfr | [(e & He & Hidx) | Hpr]]]; unfold tracked; auto.
      simpl in He. right; right; left. exists e. auto.
Qed.

Lemma pass1_tracked cfg records idx n s s' :
  idx <= n ->
  pass1 cfg records n s = Pass1Done s' ->
  tracked idx s' -> tracked idx s.
Proof.
  revert n s. induction records as [| r records IH]; intros n s Hn; cbn [pass1].
  all: (destruct (poolExhausted cfg n s); [discriminate |]).
  - intros [= <-]. auto.
  - destruct (SamFlag.isDuplicate (getFlag r) && negb (myForceFlag cfg));
      [discriminate |].
    assert (Hclean :
               tracked idx (let '(changed, s1) := hasPositionChanged r s in
                            if changed then cleanupPriorReads cfg (Some r) s1 else s1)
               -> tracked idx s).
    { unfold hasPositionChanged.
      destruct (negb (lastReference s =? getReferenceID r)
                || (lastCoordinate s <? get0BasedPosition r)); [| auto].
      intros Ht. apply cleanupPriorReads_tracked in Ht. exact Ht. }
    assert (Hn1 : idx <= n + 1) by lia.
    assert (Hne : n + 1 <> idx) by lia.
    destruct (hasPositionChanged r s) as [changed s1].
    destruct (negb (SamFlag.isMapped (getFlag r))).
    + intros Hp Ht. apply Hclean. apply (IH (n + 1) _ Hn1 Hp) in Ht.
      revert Ht. apply tracked_same. destruct (releaseRecord_fields (Some r)
        (if changed then cleanupPriorReads cfg (Some r) s1 else s1))
        as (? & ? & ? & ? & _). repeat split; assumption.
    + destruct (checkDups cfg r (n + 1) _) as [s3 |] eqn:Hc; [| discriminate].
      intros Hp Ht. apply Hclean. apply (IH (n + 1) _ Hn1 Hp) in Ht.
      apply (checkDups_tracked _ _ _ idx _ _ Hne Hc Ht).
Qed.

Lemma finishPass1_dupList cfg s idx :
  In idx (myDupList (finishPass1 cfg s)) -> tracked idx s.
Proof.
  unfold finishPass1. simpl. intros H.
  apply list_elem_of_In in H. rewrite merge_sort_Permutation in H.
  apply list_elem_of_In in H.
  apply (cleanupPriorReads_tracked cfg None). now left.
Qed.

(** A record whose index is not on the sorted list is never found as a
    duplicate in pass 2, wherever the cursor stands. *)
Lemma foundDupAt_not_listed dupList moreDups cursor idx :
  ~ In idx dupList -> foundDupAt dupList moreDups cursor idx <> Some true.
Proof.
  unfold foundDupAt. intros Hnot. destruct moreDups; [| discriminate].
  destruct (dupList !! Z.to_nat cursor) as [d |] eqn:Hd; [| discriminate].
  destruct (Z.eqb_spec idx d) as [-> |]; [| discriminate].
  exfalso. apply Hnot. apply list_elem_of_In. eapply list_elem_of_lookup_2. exact Hd.
Qed.

(** ** Missing mates *)

(** C6 (amended).  A record that is treated as paired (paired flag, mapped
    mate, not demoted by one-chromosome mode), whose mate's linearized position
    is strictly behind its own and for which the mate map has no entry of the
    same read name at its own position: [checkDups] returns without a fatal
    error, the missing-mate counter has grown by exactly one, and the record's
    index is not tracked as a duplicate candidate.  Whatever records follow, the
    index is not on the duplicate list when pass 1 has finished, so pass 2 never
    finds the record as a duplicate. *)
Theorem missing_mate_counted_once (cfg : Settings) (record : SamRecord)
    (recordCount : Z) (s : Dedup) (lib : Z) (w : list LogLine) :
  getLibraryID cfg record checkTagsDefault = Ok (lib, w) ->
  isRecordPaired cfg record = true ->
  matePosOf record < readPosOf record ->
  findMate (readPosOf record) (getReadName record) (myMateMap s) = Ok None ->
  ~ tracked recordCount s ->
  exists s',
    checkDups cfg record recordCount s = Ok s'
    /\ myNumMissingMate s' = myNumMissingMate s + 1
    /\ ~ tracked recordCount s'
    /\ forall rest s'',
         pass1 cfg rest recordCount s' = Pass1Done s'' ->
         ~ In recordCount (myDupList (finishPass1 cfg s''))
         /\ forall moreDups cursor,
              foundDupAt (myDupList (finishPass1 cfg s'')) moreDups cursor
                         recordCount <> Some true.
Proof.
  intros Hlib Hp Hbehind Hnone Hfresh.
  set (s1 := fragmentStep record recordCount (updateKey record lib) true
               (getBaseQuality cfg record) (logLines w s)).
  pose proof (fragmentStep_frame record recordCount (updateKey record lib) true
                (getBaseQuality cfg record) (logLines w s)) as (_ & Hm1 & Hn1).
  fold s1 in Hm1, Hn1. cbv zeta in Hm1, Hn1.
  change (myMateMap (logLines w s)) with (myMateMap s) in Hm1.
  change (myNumMissingMate (logLines w s)) with (myNumMissingMate s) in Hn1.
  assert (Hrun : checkDups cfg record recordCount s
                 = Ok (handleMissingMate cfg (Some record) s1)).
  { unfold checkDups. rewrite Hlib. cbn [mbind Result_bind fst snd].
    rewrite Hp. cbn [negb]. fold s1. fold (readPosOf record) (matePosOf record).
    destruct (Z.leb_spec (matePosOf record) (readPosOf record)); [| lia].
    rewrite Hm1, Hnone. cbn [mbind Result_bind].
    destruct (Z.geb_spec (matePosOf record) (readPosOf record)); [lia |].
    reflexivity. }
  assert (Hnot : ~ tracked recordCount (handleMissingMate cfg (Some record) s1)).
  { intros Ht. apply Hfresh.
    apply (tracked_same _ _ _ (handleMissingMate_same cfg (Some record) s1)) in Ht.
    apply fragmentStep_tracked in Ht; [| now left].
    revert Ht. apply tracked_same. repeat split. }
  exists (handleMissingMate cfg (Some record) s1).
  split; [exact Hrun |]. split; [| split; [exact Hnot |]].
  - destruct (handleMissingMate_fields cfg (Some record) s1) as (_ & _ & _ & _ & ->).
    now rewrite Hn1.
  - intros rest s'' Hpass.
    assert (Hlist : ~ In recordCount (myDupList (finishPass1 cfg s''))).
    { intros Hin. apply Hnot. apply finishPass1_dupList in Hin.
      exact (pass1_tracked cfg rest recordCount recordCount _ _ (Z.le_refl _)
               Hpass Hin). }
    split; [exact Hlist |]. intros moreDups cursor.
    now apply foundDupAt_not_listed.
Qed.

Lemma initialDedup_untracked idx : ~ tracked idx initialDedup.
Proof.
  intros [H | [(e & H & _) | [(e & H & _) | (e & H & _)]]]; exact H.
Defined.

Lemma missing_mate_counted_once_witness :
  getLibraryID defaultOptions lateMate checkTagsDefault = Ok (0, [])
  /\ isRecordPaired defaultOptions lateMate = true
  /\ matePosOf lateMate < readPosOf lateMate
  /\ findMate (readPosOf lateMate) (getReadName lateMate) (myMateMap initialDedup)
     = Ok None
  /\ ~ tracked 1 initialDedup
  /\ exists s',
       checkDups defaultOptions lateMate 1 initialDedup = Ok s'
       /\ myNumMissingMate s' = 1.
Proof.
  assert (Hbehind : matePosOf lateMate < readPosOf lateMate)
    by (vm_compute; reflexivity).
  split; [reflexivity |]. split; [reflexivity |]. split; [exact Hbehind |].
  split; [reflexivity |]. split; [apply initialDedup_untracked |].
  destruct (missing_mate_counted_once defaultOptions lateMate 1 initialDedup 0 []
              eq_refl eq_refl Hbehind eq_refl (initialDedup_untracked 1))
    as (s' & Hs' & Hn & _).
  exists s'. split; [exact Hs' | exact Hn].
Defined.

(** C6 as stated fails.  In one-chromosome mode a paired, mate-mapped record
    whose mate lies behind it on another chromosome, with nothing in the mate
    map, is handled as a single-end read: the missing-mate counter stays at 0,
    and a better single-end read at the same key puts its index on the
    duplicate list. *)
Lemma missing_mate_counterexample :
  exists s1 s2,
    SamFlag.isPaired (getFlag mateOnEarlierChrom)
    && SamFlag.isMateMapped (getFlag mateOnEarlierChrom) = true
    /\ matePosOf mateOnEarlierChrom < readPosOf mateOnEarlierChrom
    /\ findMate (readPosOf mateOnEarlierChrom) (getReadName mateOnEarlierChrom)
         (myMateMap initialDedup) = Ok None
    /\ checkDups oneChromOptions mateOnEarlierChrom 1 initialDedup = Ok s1
    /\ myNumMissingMate s1 = 0
    /\ checkDups oneChromOptions betterSingle 2 s1 = Ok s2
    /\ myDupList s2 = [1].
Proof.
  eexists; eexists.
  split; [reflexivity |]. split; [vm_compute; reflexivity |].
  split; [reflexivity |]. split; [vm_compute; reflexivity |].
  split; [reflexivity |]. split; [vm_compute; reflexivity |]. reflexivity.
Qed.

(** ** The containers stay in key order *)

Lemma mm_sorted_suffix cfg bounded stop m s :
  mm_sorted m -> mm_sorted (cleanupMates cfg bounded stop m s).1.
Proof.
  intros Hs. revert s. induction Hs as [| e m Hs IH Hall]; simpl; intros s.
  - constructor.
  - destruct (bounded && (e.1 >=? stop)); simpl; [now constructor | apply IH].
Qed.

Lemma cleanupPriorReads_Ordered cfg record s :
  Ordered s -> Ordered (cleanupPriorReads cfg record s).
Proof.
  intros [Hf Hp Hm].
  pose proof (cleanupPriorReads_maps cfg record s) as [_ H]. cbv zeta in H.
  destruct record as [r |].
  - destruct H as (Ef & Ep & Em). constructor.
    + rewrite Ef. now apply (om_split_sorted DupKey_ltb DupKey_ltb_trans).
    + rewrite Ep. now apply (om_split_sorted PairedKey_ltb PairedKey_ltb_trans).
    + rewrite (Em s). now apply mm_sorted_suffix.
  - destruct H as (Ef & Ep & Em). constructor; rewrite ?Ef, ?Ep, ?Em; constructor.
Qed.

Lemma checkDups_Ordered cfg record recordCount s s' :
  Ordered s -> checkDups cfg record recordCount s = Ok s' -> Ordered s'.
Proof.
  intros [Hf Hp Hm] H.
  destruct (checkDups_cases _ _ _ _ _ H) as (lib & w & _ & Hc). cbv zeta in Hc.
  set (s1 := fragmentStep record recordCount (updateKey record lib)
               (isRecordPaired cfg record) (getBaseQuality cfg record)
               (logLines w s)) in *.
  assert (H1 : Ordered s1).
  { pose proof (fragmentStep_frame record recordCount (updateKey record lib)
                  (isRecordPaired cfg record) (getBaseQuality cfg record)
                  (logLines w s)) as (Ep & Em & _).
    cbv zeta in Ep, Em. fold s1 in Ep, Em.
    constructor; [now apply fragmentStep_sorted | now rewrite Ep | now rewrite Em]. }
  destruct H1 as [Hf1 Hp1 Hm1].
  destruct Hc as [[_ ->] | [_ [-> | [-> | (mateData & rest & mate & Hfind & _ & Hstep)]]]].
  - now constructor.
  - constructor; simpl; auto. now apply mm_insert_sorted.
  - destruct (handleMissingMate_fields cfg (Some record) s1) as (Ef & Ep & Em & _).
    constructor; rewrite ?Ef, ?Ep, ?Em; assumption.
  - destruct (findMate_Some _ _ _ _ _ Hfind) as (_ & _ & _ & Hrest).
    destruct (pairedStep_Ok_lib _ _ _ _ _ _ _ _ _ Hstep) as (mlib & mw & Hmlib).
    destruct (pairedStep_spec cfg record recordCount (updateKey record lib)
                (getBaseQuality cfg record + sumBaseQual mateData) mate
                (recordIndex mateData) (setMateMap rest s1) mlib mw Hmlib)
      as (s'' & Hs'' & Ef & Em & _ & Hcase).
    rewrite Hstep in Hs''. injection Hs'' as <-. cbv zeta in Hcase.
    constructor; [rewrite Ef; exact Hf1 | | rewrite Em; simpl; auto].
    simpl in Hcase.
    destruct (om_lookup PairedKey_ltb _ (myPairedMap s1));
      [destruct (keepStored _ _ _) |]; destruct Hcase as (-> & _); auto;
      now apply (om_put_sorted PairedKey_ltb PairedKey_ltb_trans PairedKey_ltb_total).
Qed.

(** Every state that pass 1 goes through has its maps in key order, so each
    cleanup that pass 1 calls starts from such a state. *)
Lemma pass1_Ordered cfg records n s s' :
  Ordered s -> pass1 cfg records n s = Pass1Done s' -> Ordered s'.
Proof.
  revert n s. induction records as [| r records IH]; intros n s Ho; cbn [pass1].
  all: (destruct (poolExhausted cfg n s); [discriminate |]).
  - now intros [= <-].
  - destruct (SamFlag.isDuplicate (getFlag r) && negb (myForceFlag cfg));
      [discriminate |].
    assert (Hclean :
              Ordered (let '(changed, s1) := hasPositionChanged r s in
                       if changed then cleanupPriorReads cfg (Some r) s1 else s1)).
    { unfold hasPositionChanged.
      destruct (negb (lastReference s =? getReferenceID r)
                || (lastCoordinate s <? get0BasedPosition r)); [| exact Ho].
      apply cleanupPriorReads_Ordered. destruct Ho. now constructor. }
    destruct (hasPositionChanged r s) as [changed s1].
    destruct (negb (SamFlag.isMapped (getFlag r))).
    + apply IH. destruct Hclean. now constructor.
    + destruct (checkDups cfg r (n + 1) _) as [s3 |] eqn:Hc; [| discriminate].
      apply IH. eapply checkDups_Ordered; eassumption.
Qed.

Lemma initialDedup_Ordered : Ordered initialDedup.
Proof. repeat constructor. Qed.


(** ** Record indices in a run *)

(** The tracked indices are indices of records already read. *)
Lemma pass1_tracked_bound cfg records n s s' :
  (forall idx, tracked idx s -> idx <= n) ->
  pass1 cfg records n s = Pass1Done s' ->
  forall idx, tracked idx s' -> idx <= n + Z.of_nat (length records).
Proof.
  revert n s. induction records as [| r records IH]; intros n s Hb; cbn [pass1 length].
  all: (destruct (poolExhausted cfg n s); [discriminate |]).
  - intros [= <-] idx Ht. specialize (Hb idx Ht). lia.
  - destruct (SamFlag.isDuplicate (getFlag r) && negb (myForceFlag cfg));
      [discriminate |].
    assert (Hclean : forall idx,
               tracked idx (let '(changed, s1) := hasPositionChanged r s in
                            if changed then cleanupPriorReads cfg (Some r) s1 else s1)
               -> idx <= n).
    { intros idx. unfold hasPositionChanged.
      destruct (negb (lastReference s =? getReferenceID r)
                || (lastCoordinate s <? get0BasedPosition r)); [| apply Hb].
      intros Ht. apply cleanupPriorReads_tracked in Ht. apply Hb. exact Ht. }
    replace (n + Z.of_nat (S (length records)))
      with (n + 1 + Z.of_nat (length records)) by lia.
    destruct (hasPositionChanged r s) as [changed s1].
    destruct (negb (SamFlag.isMapped (getFlag r))).
    + apply IH. intros idx Ht. enough (idx <= n) by lia. apply Hclean.
      revert Ht. apply tracked_same.
      destruct (releaseRecord_fields (Some r)
                  (if changed then cleanupPriorReads cfg (Some r) s1 else s1))
        as (? & ? & ? & ? & _).
      repeat split; assumption.
    + destruct (checkDups cfg r (n + 1) _) as [s3 |] eqn:Hc; [| discriminate].
      apply IH. intros idx Ht.
      destruct (Z.eq_dec (n + 1) idx) as [<- | Hne]; [lia |].
      enough (idx <= n) by lia. apply Hclean.
      exact (checkDups_tracked _ _ _ idx _ _ Hne Hc Ht).
Qed.

(** In a run, the index of the record being read is not tracked yet. *)
Lemma pass1_next_index_untracked cfg records s' :
  pass1 cfg records 0 initialDedup = Pass1Done s' ->
  ~ tracked (Z.of_nat (length records) + 1) s'.
Proof.
  intros Hp Ht.
  assert (Hb : forall idx, tracked idx initialDedup -> idx <= 0).
  { intros idx H. now apply initialDedup_untracked in H. }
  pose proof (pass1_tracked_bound cfg records 0 initialDedup s' Hb Hp _ Ht). lia.
Qed.

(** * Further properties of the code *)

(** ** The mate map: a waiting mate is found *)

(** X1.  A record put into the mate map at an expected position is what the
    partner's lookup at that position finds, when no entry with its read name
    was there before; the lookup takes exactly that entry out again. *)
Theorem waiting_mate_is_found (pos : Z) (name : string) (d : ReadData)
    (r : SamRecord) (m : list (Z * ReadData)) :
  findMate pos name m = Ok None ->
  recordPtr d = Some r ->
  getReadName r = name ->
  findMate pos name (mm_insert pos d m) = Ok (Some (d, m)).
Proof.
  intros Hnone Hptr Hname.
  induction m as [| [p d'] m IH]; simpl in *.
  - rewrite Z.ltb_irrefl, Hptr, Hname, String.eqb_refl. reflexivity.
  - destruct (Z.ltb_spec p pos) as [Hlt | Hge].
    + apply keepEntry_None in Hnone.
      destruct (Z.leb_spec p pos); [| lia]. simpl.
      destruct (Z.ltb_spec p pos); [| lia]. now rewrite (IH Hnone).
    + destruct (Z.ltb_spec pos p) as [Hgt | Hle].
      * destruct (Z.leb_spec p pos); [lia |]. simpl.
        rewrite Z.ltb_irrefl, Hptr, Hname, String.eqb_refl. reflexivity.
      * destruct (recordPtr d') as [mate |] eqn:Hd'; [| discriminate].
        destruct (String.eqb (getReadName mate) name) eqn:Hn; [discriminate |].
        apply keepEntry_None in Hnone.
        destruct (Z.leb_spec p pos); [| lia]. simpl.
        destruct (Z.ltb_spec p pos); [lia |].
        destruct (Z.ltb_spec pos p); [lia |].
        now rewrite Hd', Hn, (IH Hnone).
Qed.

Lemma waiting_mate_is_found_witness :
  findMate 2000 "m9" (myMateMap windowState) = Ok None
  /\ findMate 2000 "m9"
       (mm_insert 2000 (mkReadData 20 (Some (singleRead "m9" "5")) 5 false)
          (myMateMap windowState))
     = Ok (Some (mkReadData 20 (Some (singleRead "m9" "5")) 5 false,
                 myMateMap windowState)).
Proof.
  split; [reflexivity |].
  apply (waiting_mate_is_found 2000 "m9" _ (singleRead "m9" "5")); reflexivity.
Defined.

(** ** Base quality within bounds *)

Lemma charToInt_bounds c : -128 <= charToInt c <= 127.
Proof.
  unfold charToInt.
  pose proof (nat_ascii_bounded c) as Hb.
  destruct (Z.ltb_spec (Z.of_nat (nat_of_ascii c)) 128); lia.
Qed.

Lemma sumQualities_bounds minQual baseQualities i n quality :
  0 <= minQual ->
  quality <= sumQualities minQual baseQualities i n quality
          <= quality + 94 * Z.of_nat n.
Proof.
  intros Hmin. revert i quality. induction n as [| n IH]; intros i quality.
  - simpl. lia.
  - cbn [sumQualities].
    pose proof (charToInt_bounds (qualityAt baseQualities i)) as Hc.
    destruct (Z.geb_spec (charToInt (qualityAt baseQualities i) - 33) minQual);
      match goal with
      | |- _ <= sumQualities _ _ _ _ ?q <= _ =>
          specialize (IH (S i) q)
      end; lia.
Qed.

(** X2.  With a non-negative quality floor, the quality sum of a record is
    never negative and is at most 94 for each base of the read; a record
    without qualities (the string "*") has sum 0. *)
Theorem base_quality_bounds (cfg : Settings) (record : SamRecord) :
  0 <= myMinQual cfg ->
  0 <= getBaseQuality cfg record <= 94 * Z.max 0 (getReadLength record)
  /\ (getQuality record = "*"%string -> getBaseQuality cfg record = 0).
Proof.
  intros Hmin. unfold getBaseQuality. split.
  - destruct (String.eqb (getQuality record) "*"); [lia |].
    pose proof (sumQualities_bounds (myMinQual cfg) (getQuality record) 0
                  (Z.to_nat (getReadLength record)) 0 Hmin).
    lia.
  - intros ->. reflexivity.
Qed.

Lemma base_quality_bounds_witness :
  0 <= myMinQual defaultOptions
  /\ 0 <= getBaseQuality defaultOptions (singleRead "x" "S5+") <= 94 * 3.
Proof.
  split; [vm_compute; discriminate |].
  apply (base_quality_bounds defaultOptions (singleRead "x" "S5+")).
  vm_compute; discriminate.
Defined.

(** ** Cleanup twice *)

Lemma om_split_again {K V} (ltb : K -> K -> bool) (k : K) (m : list (K * V)) :
  om_split ltb k (om_split ltb k m).2 = ([], (om_split ltb k m).2).
Proof.
  induction m as [| e m IH]; simpl; [reflexivity |].
  destruct (ltb e.1 k) eqn:He.
  - destruct (om_split ltb k m); simpl in *. exact IH.
  - simpl. now rewrite He.
Qed.

Lemma cleanupMates_again cfg bounded stop m s s' :
  cleanupMates cfg bounded stop (cleanupMates cfg bounded stop m s).1 s' =
    ((cleanupMates cfg bounded stop m s).1, s').
Proof.
  revert s. induction m as [| e m IH]; simpl; intros s; [reflexivity |].
  destruct (bounded && (e.1 >=? stop)) eqn:He; simpl.
  - now rewrite He.
  - apply IH.
Qed.

Lemma Dedup_eta s :
  mkDedup (myFragmentMap s) (myPairedMap s) (myMateMap s) (myDupList s)
          (myNumMissingMate s) (lastReference s) (lastCoordinate s)
          (firstDifferChrom s) (firstSameChrom s) (released s) (recabBuilt s)
          (logged s) = s.
Proof. now destruct s. Qed.

(** A state whose maps have nothing in front of the stopping points is left
    as it is. *)
Lemma cleanupPriorReads_nothing_to_do cfg record s :
  match record with
  | None => myFragmentMap s = [] /\ myPairedMap s = [] /\ myMateMap s = []
  | Some r =>
      let tempKey2 := cleanupKey (getReferenceID r) (get0BasedPosition r) in
      om_split DupKey_ltb tempKey2 (myFragmentMap s) = ([], myFragmentMap s)
      /\ om_split PairedKey_ltb (mkPairedKey emptyKey tempKey2) (myPairedMap s)
         = ([], myPairedMap s)
      /\ cleanupMates cfg true
           (SamHelper.combineChromPos (getReferenceID r) (get0BasedPosition r))
           (myMateMap s) s = (myMateMap s, s)
  end ->
  cleanupPriorReads cfg record s = s.
Proof.
  unfold cleanupPriorReads. destruct record as [r |]; cbv zeta.
  - intros (Hf & Hp & Hm). rewrite Hf, Hp.
    destruct s as [fm pm mm dl nm lr lc fd fs rel rb lg].
    unfold setPairedMap, setFragmentMap. cbn in Hm |- *. rewrite Hm. reflexivity.
  - intros (Hf & Hp & Hm).
    destruct s as [fm pm mm dl nm lr lc fd fs rel rb lg].
    cbn in Hf, Hp, Hm |- *. subst. reflexivity.
Qed.

(** X3.  Cleaning up again at the same boundary (or again without a
    boundary) changes nothing: no record is handed on or released a second
    time, no missing mate is counted twice. *)
Theorem cleanup_twice (cfg : Settings) (record : option SamRecord) (s : Dedup) :
  cleanupPriorReads cfg record (cleanupPriorReads cfg record s)
  = cleanupPriorReads cfg record s.
Proof.
  apply cleanupPriorReads_nothing_to_do.
  pose proof (cleanupPriorReads_maps cfg record s) as [_ H]. cbv zeta in H.
  destruct record as [r |].
  - destruct H as (Ef & Ep & Em). cbv zeta.
    rewrite Ef, Ep, (Em s). split; [apply om_split_again |].
    split; [apply om_split_again |]. apply cleanupMates_again.
  - exact H.
Qed.

(** ** The destructor *)

Lemma releaseRecord_released p s :
  released (releaseRecord p s) = released s ++ option_list p.
Proof. destruct p; simpl; [reflexivity | now rewrite app_nil_r]. Qed.

Lemma releaseRecord_same p s : sameTracking s (releaseRecord p s).
Proof. destruct p; repeat split. Qed.

(** A loop whose body only releases records. *)
Lemma fold_left_release {A} (f : A -> list (option SamRecord)) (l : list A)
    fm pm mm dl nm lr lc fd fs rel rb lg :
  fold_left (fun s e => fold_left (fun s p => releaseRecord p s) (f e) s) l
    (mkDedup fm pm mm dl nm lr lc fd fs rel rb lg)
  = mkDedup fm pm mm dl nm lr lc fd fs
      (rel ++ flat_map (fun e => flat_map option_list (f e)) l) rb lg.
Proof.
  assert (Hone : forall ps rel,
             fold_left (fun s p => releaseRecord p s) ps
               (mkDedup fm pm mm dl nm lr lc fd fs rel rb lg)
             = mkDedup fm pm mm dl nm lr lc fd fs
                 (rel ++ flat_map option_list ps) rb lg).
  { induction ps as [| [r |] ps IH]; intros rel0; cbn.
    - now rewrite app_nil_r.
    - unfold setReleased. cbn. rewrite IH, <- app_assoc. reflexivity.
    - apply IH. }
  revert rel. induction l as [| a l IH]; intros rel; cbn [fold_left flat_map].
  - now rewrite app_nil_r.
  - rewrite Hone, IH, <- app_assoc. reflexivity.
Qed.

(** X4.  The destructor releases exactly the records that the maps hold,
    fragment map first, then both records of every pair, then the waiting
    mates, and leaves the maps empty and the duplicate list alone.  After the
    final cleanup of pass 1 it has nothing left to release. *)
Theorem destructor_releases_held (cfg : Settings) (s : Dedup) :
  (released (destructor s) = released s ++ heldRecords s
   /\ myFragmentMap (destructor s) = []
   /\ myPairedMap (destructor s) = []
   /\ myMateMap (destructor s) = []
   /\ myDupList (destructor s) = myDupList s)
  /\ released (destructor (finishPass1 cfg s)) = released (finishPass1 cfg s).
Proof.
  assert (Hgen : forall s,
             released (destructor s) = released s ++ heldRecords s
             /\ myFragmentMap (destructor s) = []
             /\ myPairedMap (destructor s) = []
             /\ myMateMap (destructor s) = []
             /\ myDupList (destructor s) = myDupList s).
  { clear s. intros [fm pm mm dl nm lr lc fd fs rel rb lg].
    unfold destructor, heldRecords.
    cbn [myFragmentMap myPairedMap myMateMap myDupList released].
    pose proof (fold_left_release
                  (fun e : DupKey * ReadData => [recordPtr e.2]) fm) as H1.
    pose proof (fold_left_release
                  (fun e : PairedKey * PairedData => [record1Ptr e.2; record2Ptr e.2])
                  pm) as H2.
    pose proof (fold_left_release
                  (fun e : Z * ReadData => [recordPtr e.2]) mm) as H3.
    cbn [fold_left] in H1, H2, H3.
    rewrite H1. unfold setFragmentMap.
    cbn [myFragmentMap myPairedMap myMateMap myDupList myNumMissingMate
         lastReference lastCoordinate firstDifferChrom firstSameChrom released
         recabBuilt logged].
    rewrite H2. unfold setPairedMap.
    cbn [myFragmentMap myPairedMap myMateMap myDupList myNumMissingMate
         lastReference lastCoordinate firstDifferChrom firstSameChrom released
         recabBuilt logged].
    rewrite H3. unfold setMateMap.
    cbn [myFragmentMap myPairedMap myMateMap myDupList myNumMissingMate
         lastReference lastCoordinate firstDifferChrom firstSameChrom released
         recabBuilt logged].
    split; [| repeat split].
    rewrite <- !app_assoc. f_equal. f_equal; [| f_equal].
    - apply List.flat_map_ext. intros e. cbn. now rewrite app_nil_r.
    - apply List.flat_map_ext. intros e. cbn. now rewrite app_nil_r.
    - apply List.flat_map_ext. intros e. cbn. now rewrite app_nil_r. }
  split; [apply Hgen |].
  destruct (Hgen (finishPass1 cfg s)) as (-> & _).
  unfold heldRecords.
  pose proof (cleanupPriorReads_maps cfg None s) as (_ & Hf & Hp & Hm).
  unfold finishPass1. simpl in *. rewrite Hf, Hp, Hm. simpl.
  now rewrite app_nil_r.
Qed.

(** ** Unmapped records *)

(** X5.  An unmapped record is released as soon as it is read, and its index
    is not on the duplicate list when pass 1 has finished: pass 2 never finds
    it as a duplicate. *)
Theorem unmapped_never_duplicate (cfg : Settings) (pre post : list SamRecord)
    (r : SamRecord) (s' : Dedup) :
  SamFlag.isMapped (getFlag r) = false ->
  pass1 cfg (pre ++ r :: post) 0 initialDedup = Pass1Done s' ->
  let index := Z.of_nat (length pre) + 1 in
  ~ In index (myDupList (finishPass1 cfg s'))
  /\ forall moreDups cursor,
       foundDupAt (myDupList (finishPass1 cfg s')) moreDups cursor index
       <> Some true.
Proof.
  intros Hunmapped Hpass index.
  assert (Hnot : ~ In index (myDupList (finishPass1 cfg s'))).
  { intros Hin. apply finishPass1_dupList in Hin.
    rewrite pass1_app in Hpass.
    destruct (pass1 cfg pre 0 initialDedup) as [s1 |] eqn:Hpre; [| discriminate].
    pose proof (pass1_next_index_untracked cfg pre s1 Hpre) as Hfresh. fold index in Hfresh.
    cbn [pass1] in Hpass.
    rewrite (pass1_Done_pool _ _ _ _ _ Hpre), Hunmapped in Hpass.
    destruct (SamFlag.isDuplicate (getFlag r) && negb (myForceFlag cfg));
      [discriminate |].
    cbn [negb] in Hpass.
    replace (0 + Z.of_nat (length pre) + 1) with index in Hpass
      by (unfold index; lia).
    apply Hfresh. unfold hasPositionChanged in Hpass.
    destruct (negb (lastReference s1 =? getReferenceID r)
              || (lastCoordinate s1 <? get0BasedPosition r)).
    - apply (pass1_tracked cfg post index index _ _ (Z.le_refl _) Hpass) in Hin.
      apply (tracked_same _ _ _ (releaseRecord_same (Some r) _)) in Hin.
      now apply cleanupPriorReads_tracked in Hin.
    - apply (pass1_tracked cfg post index index _ _ (Z.le_refl _) Hpass) in Hin.
      now apply (tracked_same _ _ _ (releaseRecord_same (Some r) _)) in Hin. }
  split; [exact Hnot |]. intros moreDups cursor.
  now apply foundDupAt_not_listed.
Qed.

(** An unmapped read between two mapped single-end reads. *)
Lemma unmapped_never_duplicate_witness :
  SamFlag.isMapped (getFlag (mkRecord 0x4 0 100 (-1) (-1) "n" "5" 1 [] 100)) = false
  /\ exists s',
       pass1 defaultOptions
         ([singleRead "r1" "5"]
          ++ mkRecord 0x4 0 100 (-1) (-1) "n" "5" 1 [] 100 :: [singleRead "r2" "S"])
         0 initialDedup = Pass1Done s'
       /\ ~ In 2 (myDupList (finishPass1 defaultOptions s')).
Proof.
  split; [reflexivity |].
  eexists. split; [vm_compute; reflexivity |].
  apply (unmapped_never_duplicate defaultOptions [singleRead "r1" "5"]
           [singleRead "r2" "S"] (mkRecord 0x4 0 100 (-1) (-1) "n" "5" 1 [] 100));
    [reflexivity | vm_compute; reflexivity].
Defined.

(** ** Counting over the containers *)

Lemma sumw_app {K V} (w : V -> nat) (m1 m2 : list (K * V)) :
  sumw w (m1 ++ m2) = (sumw w m1 + sumw w m2)%nat.
Proof. apply sum_list_with_app. Qed.

Lemma count_occ_flat_map {A B} (dec : forall x y : B, {x = y} + {x <> y})
    (f : A -> list B) (l : list A) (x : B) :
  count_occ dec (flat_map f l) x = sum_list_with (fun a => count_occ dec (f a) x) l.
Proof.
  induction l as [| a l IH]; simpl; [reflexivity |].
  now rewrite count_occ_app, IH.
Qed.

Section ContainerCounts.
Context {K V : Type} (ltb : K -> K -> bool) (w : V -> nat).

Lemma sumw_om_put (k : K) (v : V) (m : list (K * V)) :
  (match om_lookup ltb k m with Some d => w d | None => 0 end
   + sumw w (om_put ltb k v m) = w v + sumw w m)%nat.
Proof.
  induction m as [| [k' v'] m IH]; simpl.
  - reflexivity.
  - destruct (ltb k' k); simpl.
    + unfold sumw in *. simpl. lia.
    + destruct (ltb k k'); unfold sumw; simpl; lia.
Qed.

Lemma sumw_om_split (k : K) (m : list (K * V)) :
  (sumw w (om_split ltb k m).1 + sumw w (om_split ltb k m).2 = sumw w m)%nat.
Proof. now rewrite <- sumw_app, om_split_app. Qed.
End ContainerCounts.

Lemma sumw_mm_insert (w : ReadData -> nat) pos d m :
  sumw w (mm_insert pos d m) = (w d + sumw w m)%nat.
Proof.
  induction m as [| [p d'] m IH]; simpl; [reflexivity |].
  destruct (p <=? pos); unfold sumw in *; simpl; lia.
Qed.

Lemma sumw_findMate (w : ReadData -> nat) pos name m d rest :
  findMate pos name m = Ok (Some (d, rest)) ->
  sumw w m = (w d + sumw w rest)%nat.
Proof.
  revert rest. induction m as [| [p d'] m IH]; simpl; intros rest; [discriminate |].
  assert (Hkeep : keepEntry (p, d') (findMate pos name m) = Ok (Some (d, rest)) ->
                  sumw w ((p, d') :: m) = (w d + sumw w rest)%nat).
  { intros H. apply keepEntry_Some in H as (rest' & H & ->).
    specialize (IH _ H). unfold sumw in *. simpl. lia. }
  destruct (p <? pos); [exact Hkeep |].
  destruct (pos <? p); [discriminate |].
  destruct (recordPtr d'); [| discriminate].
  destruct (String.eqb _ name); [| exact Hkeep].
  intros [= -> ->]. reflexivity.
Qed.

(** The mate loop of a cleanup hands on a front part of the map and keeps
    the rest. *)
Lemma cleanupMates_split cfg bounded stop m s :
  exists handled, m = handled ++ (cleanupMates cfg bounded stop m s).1.
Proof.
  revert s. induction m as [| e m IH]; simpl; intros s.
  - now exists [].
  - destruct (bounded && (e.1 >=? stop)); simpl.
    + now exists [].
    + destruct (IH (handleMissingMate cfg (recordPtr e.2) s)) as [h Hh].
      exists (e :: h). simpl. now rewrite <- Hh.
Qed.

(** ** Every index is tracked at most once *)

Local Abbreviation occ idx s := (count_occ Z.eq_dec (trackedIndices s) idx).
Local Abbreviation one n idx := (count_occ Z.eq_dec [n] idx).

Lemma occ_parts idx s :
  occ idx s
  = (count_occ Z.eq_dec (myDupList s) idx
     + sumw (fun d => count_occ Z.eq_dec (idxF d) idx) (myFragmentMap s)
     + sumw (fun d => count_occ Z.eq_dec (idxM d) idx) (myMateMap s)
     + sumw (fun d => count_occ Z.eq_dec (idxP d) idx) (myPairedMap s))%nat.
Proof.
  unfold trackedIndices, sumw.
  rewrite !count_occ_app, !count_occ_flat_map. lia.
Qed.

Lemma tracked_In idx s : tracked idx s <-> In idx (trackedIndices s).
Proof.
  unfold tracked, trackedIndices.
  rewrite !in_app_iff, !in_flat_map. split.
  - intros [H | [(e & He & Hp & Hi) | [(e & He & Hi) | (e & He & Hi)]]]; auto.
    + right; left. exists e. split; [exact He |]. unfold idxF. rewrite Hp. now left.
    + right; right; left. exists e. split; [exact He |]. now left.
    + do 3 right. exists e. split; [exact He |]. simpl. tauto.
  - intros [H | [(e & He & Hi) | [(e & He & Hi) | (e & He & Hi)]]]; auto.
    + right; left. exists e. split; [exact He |]. unfold idxF in Hi.
      destruct (paired e.2); [destruct Hi |]. destruct Hi as [Hi | []]. auto.
    + right; right; left. exists e. split; [exact He |].
      destruct Hi as [Hi | []]. exact Hi.
    + do 3 right. exists e. split; [exact He |]. simpl in Hi. tauto.
Qed.

Lemma occ_fragmentStep record n key recordPaired sumQual idx s :
  occ idx (fragmentStep record n key recordPaired sumQual s)
  = (occ idx s + if recordPaired then 0 else one n idx)%nat.
Proof.
  pose proof (fragmentStep_frame record n key recordPaired sumQual s)
    as (Hp & Hm & _).
  pose proof (fragmentStep_spec record n key recordPaired sumQual s) as H.
  pose proof (sumw_om_put DupKey_ltb (fun d => count_occ Z.eq_dec (idxF d) idx)
                key (readDataOf record n recordPaired sumQual) (myFragmentMap s))
    as Hput.
  cbv beta zeta in *. rewrite !occ_parts, Hp, Hm.
  assert (Hmine : count_occ Z.eq_dec (idxF (readDataOf record n recordPaired sumQual)) idx
                  = if recordPaired then 0%nat else one n idx).
  { unfold idxF, readDataOf. cbn [paired recordIndex]. now destruct recordPaired. }
  rewrite Hmine in Hput.
  destruct (om_lookup DupKey_ltb key (myFragmentMap s)) as [d |] eqn:Hold;
    unfold takesEntry in H.
  - destruct (negb (paired d) && (recordPaired || (sumQual >? sumBaseQual d)))
      eqn:Hcond.
    + apply andb_prop in Hcond as [Hunp _]. apply negb_true_iff in Hunp.
      destruct H as (Hmap & _ & Hd & _). rewrite Hmap, Hd, count_occ_app.
      unfold idxF at 1 in Hput. rewrite Hunp in Hput. lia.
    + destruct H as (-> & -> & _). rewrite count_occ_app.
      destruct recordPaired; simpl; lia.
  - destruct H as (Hmap & _ & Hd & _). rewrite Hmap, Hd, app_nil_r. lia.
Qed.

Lemma occ_pairedStep cfg record n key sumQual mateRecord mateIndex idx s s' :
  pairedStep cfg record n key sumQual mateRecord mateIndex s = Ok s' ->
  occ idx s' = (occ idx s + one mateIndex idx + one n idx)%nat.
Proof.
  intros Hstep.
  destruct (pairedStep_Ok_lib _ _ _ _ _ _ _ _ _ Hstep) as (lib & w & Hlib).
  destruct (pairedStep_spec cfg record n key sumQual mateRecord mateIndex s lib w
              Hlib) as (s'' & Hs'' & Hf & Hm & _ & Hcase).
  rewrite Hstep in Hs''. injection Hs'' as <-. cbv zeta in Hcase.
  pose proof (sumw_om_put PairedKey_ltb (fun d => count_occ Z.eq_dec (idxP d) idx)
                (mkPairedKey key (updateKey mateRecord lib))
                (pairDataOf record n sumQual mateRecord mateIndex) (myPairedMap s))
    as Hput.
  cbv beta in Hput.
  assert (Hmine : count_occ Z.eq_dec
                    (idxP (pairDataOf record n sumQual mateRecord mateIndex)) idx
                  = (one n idx + one mateIndex idx)%nat).
  { unfold idxP, pairDataOf. cbn [record1Index record2Index].
    change [n; mateIndex] with ([n] ++ [mateIndex]). now rewrite count_occ_app. }
  rewrite Hmine in Hput.
  rewrite !occ_parts, Hf, Hm.
  destruct (om_lookup PairedKey_ltb _ (myPairedMap s)) as [stored |].
  - destruct (keepStored stored sumQual mateIndex);
      destruct Hcase as (-> & -> & _); rewrite count_occ_app.
    + change [mateIndex; n] with ([mateIndex] ++ [n]). rewrite count_occ_app. lia.
    + unfold idxP at 1 in Hput.
      change [record1Index stored; record2Index stored]
        with ([record1Index stored] ++ [record2Index stored]) in *.
      rewrite count_occ_app in *. lia.
  - destruct Hcase as (-> & -> & _). lia.
Qed.

(** What [checkDups] does to the number of times an index is tracked: the
    record's own index comes in at most once, nothing else changes. *)
Lemma occ_checkDups cfg record n idx s s' :
  checkDups cfg record n s = Ok s' ->
  (occ idx s' <= occ idx s + one n idx)%nat.
Proof.
  intros H.
  destruct (checkDups_cases _ _ _ _ _ H) as (lib & w & _ & Hc). cbv zeta in Hc.
  set (s1 := fragmentStep record n (updateKey record lib)
               (isRecordPaired cfg record) (getBaseQuality cfg record)
               (logLines w s)) in *.
  assert (H1 : occ idx s1
               = (occ idx s + if isRecordPaired cfg record then 0 else one n idx)%nat).
  { unfold s1. rewrite occ_fragmentStep. reflexivity. }
  destruct Hc as [[Hp ->] | [Hp [-> | [-> | (mateData & rest & mate & Hfind & _ & Hstep)]]]];
    rewrite Hp in H1.
  - lia.
  - rewrite occ_parts in *. cbn [myDupList myFragmentMap myMateMap myPairedMap setMateMap].
    rewrite sumw_mm_insert. unfold idxM at 1. cbn [recordIndex]. lia.
  - destruct (handleMissingMate_same cfg (Some record) s1) as (Ef & Ep & Em & Ed).
    rewrite occ_parts in *. rewrite Ef, Ep, Em, Ed. lia.
  - rewrite (occ_pairedStep _ _ _ _ _ _ _ idx _ _ Hstep).
    pose proof (sumw_findMate (fun d => count_occ Z.eq_dec (idxM d) idx) _ _ _ _ _ Hfind)
      as Hrest.
    rewrite occ_parts in *. cbn [myDupList myFragmentMap myMateMap myPairedMap setMateMap].
    cbv beta in Hrest.
    change (count_occ Z.eq_dec (idxM mateData) idx)
      with (one (recordIndex mateData) idx) in Hrest.
    lia.
Qed.

Lemma occ_cleanupPriorReads cfg record idx s :
  (occ idx (cleanupPriorReads cfg record s) <= occ idx s)%nat.
Proof.
  pose proof (cleanupPriorReads_maps cfg record s) as [Hd Hm]. cbv zeta in *.
  rewrite !occ_parts, Hd. destruct record as [r |].
  - destruct Hm as (-> & -> & Hmate). rewrite (Hmate s).
    pose proof (sumw_om_split DupKey_ltb (fun d => count_occ Z.eq_dec (idxF d) idx)
                  (cleanupKey (getReferenceID r) (get0BasedPosition r))
                  (myFragmentMap s)).
    pose proof (sumw_om_split PairedKey_ltb (fun d => count_occ Z.eq_dec (idxP d) idx)
                  (mkPairedKey emptyKey
                     (cleanupKey (getReferenceID r) (get0BasedPosition r)))
                  (myPairedMap s)).
    destruct (cleanupMates_split cfg true
                (SamHelper.combineChromPos (getReferenceID r) (get0BasedPosition r))
                (myMateMap s) s) as [handled Hh].
    rewrite Hh at 2. rewrite sumw_app. lia.
  - destruct Hm as (-> & -> & ->). unfold sumw. simpl. lia.
Qed.

Lemma occ_same idx s s' : sameTracking s s' -> occ idx s' = occ idx s.
Proof. intros (Ef & Ep & Em & Ed). unfold trackedIndices. now rewrite Ef, Ep, Em, Ed. Qed.

(** Through pass 1 every index is tracked at most once, and only indices of
    records already read are tracked. *)
Lemma pass1_occ cfg records n s s' :
  (forall idx, (occ idx s <= 1)%nat /\ ((0 < occ idx s)%nat -> 1 <= idx <= n)) ->
  0 <= n ->
  pass1 cfg records n s = Pass1Done s' ->
  forall idx,
    (occ idx s' <= 1)%nat
    /\ ((0 < occ idx s')%nat -> 1 <= idx <= n + Z.of_nat (length records)).
Proof.
  revert n s. induction records as [| r records IH]; intros n s Hinv Hn;
    cbn [pass1 length].
  all: (destruct (poolExhausted cfg n s); [discriminate |]).
  - intros [= <-] idx. destruct (Hinv idx). split; [assumption | lia].
  - destruct (SamFlag.isDuplicate (getFlag r) && negb (myForceFlag cfg));
      [discriminate |].
    assert (Hclean : forall idx,
               (occ idx (let '(changed, s1) := hasPositionChanged r s in
                         if changed then cleanupPriorReads cfg (Some r) s1 else s1)
                <= occ idx s)%nat).
    { intros idx. unfold hasPositionChanged.
      destruct (negb (lastReference s =? getReferenceID r)
                || (lastCoordinate s <? get0BasedPosition r)); [| lia].
      etransitivity; [apply occ_cleanupPriorReads |].
      rewrite (occ_same idx s); [lia | repeat split]. }
    replace (n + Z.of_nat (S (length records)))
      with (n + 1 + Z.of_nat (length records)) by lia.
    destruct (hasPositionChanged r s) as [changed s1].
    destruct (negb (SamFlag.isMapped (getFlag r))).
    + apply IH; [| lia]. intros idx.
      rewrite (occ_same idx _ _ (releaseRecord_same (Some r) _)).
      specialize (Hclean idx). destruct (Hinv idx). split; lia.
    + destruct (checkDups cfg r (n + 1) _) as [s3 |] eqn:Hc; [| discriminate].
      apply IH; [| lia]. intros idx.
      pose proof (occ_checkDups _ _ _ idx _ _ Hc) as Hstep.
      specialize (Hclean idx). destruct (Hinv idx) as [Hle Hrange].
      simpl in Hstep. destruct (Z.eq_dec (n + 1) idx) as [<- | Hne].
      * split; [| lia].
        destruct (Nat.eq_dec (occ (n + 1) s) 0%nat) as [Hz | Hnz]; [lia |].
        assert (1 <= n + 1 <= n) by (apply Hrange; lia). lia.
      * split; [lia |]. intros Hpos. assert (1 <= idx <= n) by (apply Hrange; lia). lia.
Qed.

Lemma StronglySorted_le_NoDup_lt (l : list Z) :
  StronglySorted Z.le l -> NoDup l -> StronglySorted Z.lt l.
Proof.
  induction 1 as [| a l Hs IH Hall]; intros Hnd; [constructor |].
  apply NoDup_cons in Hnd as [Hnotin Hnd].
  constructor; [auto |].
  apply List.Forall_forall. intros x Hx.
  rewrite List.Forall_forall in Hall. specialize (Hall x Hx).
  assert (a <> x).
  { intros ->. apply Hnotin. now apply list_elem_of_In. }
  lia.
Qed.

(** The duplicate list after pass 1, from any start without tracked
    indices. *)
Lemma pass1_dupList cfg records s0 s :
  trackedIndices s0 = [] ->
  pass1 cfg records 0 s0 = Pass1Done s ->
  StronglySorted Z.lt (myDupList (finishPass1 cfg s))
  /\ (forall d, In d (myDupList (finishPass1 cfg s)) ->
        1 <= d <= Z.of_nat (length records))
  /\ Permutation (myDupList (finishPass1 cfg s)) (myDupList s).
Proof.
  intros Hempty Hpass.
  assert (Hinit : forall idx,
             (occ idx s0 <= 1)%nat /\ ((0 < occ idx s0)%nat -> 1 <= idx <= 0)).
  { intros idx. rewrite Hempty. simpl. split; lia. }
  pose proof (pass1_occ cfg records 0 s0 s Hinit (Z.le_refl 0) Hpass) as Hinv.
  assert (Hdup : myDupList (finishPass1 cfg s) = merge_sort Z.le (myDupList s)).
  { unfold finishPass1. simpl.
    now rewrite (proj1 (cleanupPriorReads_maps cfg None s)). }
  assert (Hperm : Permutation (myDupList (finishPass1 cfg s)) (myDupList s)).
  { rewrite Hdup. apply merge_sort_Permutation. }
  assert (Hcount : forall idx,
             (count_occ Z.eq_dec (myDupList s) idx <= occ idx s)%nat).
  { intros idx. rewrite occ_parts. lia. }
  split; [| split; [| exact Hperm]].
  - apply StronglySorted_le_NoDup_lt.
    + rewrite Hdup. apply StronglySorted_merge_sort; apply _.
    + rewrite Hperm. apply NoDup_ListNoDup, (NoDup_count_occ Z.eq_dec).
      intros idx. specialize (Hcount idx). destruct (Hinv idx). lia.
  - intros d Hd. apply (Permutation_in _ Hperm) in Hd.
    apply (count_occ_In Z.eq_dec) in Hd.
    specialize (Hcount d). destruct (Hinv d) as [_ Hrange].
    assert (1 <= d <= 0 + Z.of_nat (length records)) by (apply Hrange; lia). lia.
Qed.

(** X6.  When pass 1 has read every record, the sorted duplicate list is
    strictly increasing, so no record index is on it twice, and every index on
    it is the index of a record of the input; sorting only reorders it. *)
Theorem duplicate_list_well_formed (cfg : Settings) (records : list SamRecord)
    (s : Dedup) :
  pass1 cfg records 0 initialDedup = Pass1Done s ->
  StronglySorted Z.lt (myDupList (finishPass1 cfg s))
  /\ (forall d, In d (myDupList (finishPass1 cfg s)) ->
        1 <= d <= Z.of_nat (length records))
  /\ Permutation (myDupList (finishPass1 cfg s)) (myDupList s).
Proof. apply pass1_dupList. reflexivity. Qed.

Lemma duplicate_list_well_formed_witness :
  exists s,
    pass1 defaultOptions twoPairs 0 initialDedup = Pass1Done s
    /\ StronglySorted Z.lt (myDupList (finishPass1 defaultOptions s)).
Proof.
  eexists. split; [vm_compute; reflexivity |].
  apply (duplicate_list_well_formed defaultOptions twoPairs).
  vm_compute; reflexivity.
Defined.

(** ** Pass 2 against the duplicate list *)

Lemma expectedOutput_ext cfg table dups dups' records n :
  (forall j, n < j -> listed dups j = listed dups' j) ->
  expectedOutput cfg table dups records n = expectedOutput cfg table dups' records n.
Proof.
  revert n. induction records as [| r records IH]; intros n H; simpl; [reflexivity |].
  rewrite (H (n + 1)) by lia. f_equal. apply IH. intros j Hj. apply H. lia.
Qed.

Lemma listed_false dups index :
  (forall d, In d dups -> d <> index) -> listed dups index = false.
Proof.
  intros H. unfold listed. apply not_true_is_false. intros Hex.
  apply existsb_exists in Hex as (d & Hd & Heq). apply Z.eqb_eq in Heq.
  now apply (H d Hd).
Qed.

Lemma drop_cons_inv {A} (l : list A) i x k :
  drop i l = x :: k -> l !! i = Some x /\ drop (S i) l = k.
Proof.
  revert i. induction l as [| a l IH]; intros [| i]; simpl; try discriminate.
  - intros [= -> ->]. split; [reflexivity | apply drop_0].
  - apply IH.
Qed.

Lemma last_In (l : list Z) a : l <> [] -> In (List.last l a) l.
Proof.
  induction l as [| x [| y l] IH]; intros H; [congruence | now left |].
  right. apply IH. discriminate.
Qed.

Lemma last_default (l : list Z) a b : l <> [] -> List.last l a = List.last l b.
Proof.
  induction l as [| x [| y l] IH]; intros H; [congruence | reflexivity |].
  apply IH. discriminate.
Qed.

(** Without a duplicate list the loop never looks at the vector. *)
Lemma pass2_no_dups cfg table dupList records n c written sg pr :
  pass2 cfg table dupList false records n c written sg pr
  = Pass2Done (written ++ expectedOutput cfg table [] records n) sg pr.
Proof.
  revert n written. induction records as [| r records IH]; intros n written;
    cbn [pass2 expectedOutput foundDupAt].
  - now rewrite app_nil_r.
  - rewrite IH. unfold writtenFor, listed. cbn [existsb app].
    now rewrite <- app_assoc.
Qed.

(** The loop with the cursor at [c]: [ds] is the part of the list from the
    cursor on. *)
Lemma pass2_step cfg table dupList r rest n c written sg pr d ds' :
  0 <= c ->
  drop (Z.to_nat c) dupList = d :: ds' ->
  StronglySorted Z.lt (d :: ds') ->
  n < d ->
  exists c' ds'' sg' pr',
    pass2 cfg table dupList true (r :: rest) n c written sg pr
    = pass2 cfg table dupList true rest (n + 1) c'
        (written ++ writtenFor cfg table (listed (d :: ds') (n + 1)) r) sg' pr'
    /\ 0 <= c'
    /\ drop (Z.to_nat c') dupList = ds''
    /\ StronglySorted Z.lt ds''
    /\ (forall x, In x ds'' -> n + 1 < x)
    /\ (forall j, n + 1 < j -> listed (d :: ds') j = listed ds'' j)
    /\ sg' + pr' + Z.of_nat (length ds'') = sg + pr + Z.of_nat (length (d :: ds'))
    /\ (Z.to_nat c' + length ds'' = Z.to_nat c + length (d :: ds'))%nat
    /\ ((ds'' = d :: ds' /\ n + 1 < d) \/ (ds'' = ds' /\ d = n + 1)).
Proof.
  intros Hc Hdrop Hsorted Hn.
  destruct (drop_cons_inv _ _ _ _ Hdrop) as [Hlook Hdrop'].
  destruct (StronglySorted_inv Hsorted) as [Hs' Hall].
  rewrite List.Forall_forall in Hall.
  cbn [pass2]. unfold foundDupAt. rewrite Hlook.
  destruct (Z.eqb_spec (n + 1) d) as [<- | Hne].
  - exists (c + 1), ds'.
    eexists; eexists. split; [| split; [lia | split; [| split; [exact Hs' | split; [| split; [| split; [| split]]]]]]].
    + unfold writtenFor, listed. cbn [existsb]. rewrite Z.eqb_refl. cbn [orb].
      destruct (removeFlag cfg); [rewrite app_nil_r |]; reflexivity.
    + rewrite Z2Nat.inj_add by lia. rewrite Nat.add_1_r. exact Hdrop'.
    + intros x Hx. apply Hall. exact Hx.
    + intros j Hj. unfold listed. cbn [existsb].
      destruct (Z.eqb_spec j (n + 1)); [lia | reflexivity].
    + cbn [length].
      destruct ((Z.land (getFlag r) 1 =? 0) || negb (Z.land (getFlag r) 8 =? 0)); lia.
    + cbn [length]. lia.
    + right. auto.
  - exists c, (d :: ds'), sg, pr.
    split; [| split; [exact Hc | split; [exact Hdrop | split; [exact Hsorted | split; [| split; [| split; [| split]]]]]]].
    + rewrite listed_false; [reflexivity |].
      intros x [<- | Hx]; [lia |]. specialize (Hall x Hx). lia.
    + intros x [<- | Hx]; [lia |]. specialize (Hall x Hx). lia.
    + reflexivity.
    + reflexivity.
    + reflexivity.
    + left. split; [reflexivity | lia].
Qed.

Lemma pass2_done cfg table dupList records :
  forall n c written sg pr ds,
    0 <= c ->
    drop (Z.to_nat c) dupList = ds ->
    StronglySorted Z.lt ds ->
    (forall d, In d ds -> n < d) ->
    (ds = [] /\ records = [])
    \/ (ds <> [] /\ List.last ds 0 = n + Z.of_nat (length records)) ->
    exists sg' pr',
      pass2 cfg table dupList true records n c written sg pr
      = Pass2Done (written ++ expectedOutput cfg table ds records n) sg' pr'
      /\ sg' + pr' = sg + pr + Z.of_nat (length ds).
Proof.
  induction records as [| r rest IH]; intros n c written sg pr ds Hc Hdrop Hs Hgt Hend.
  - cbn [pass2 expectedOutput]. rewrite app_nil_r.
    destruct Hend as [[-> _] | [Hne Hlast]].
    + exists sg, pr. split; [reflexivity | simpl; lia].
    + exfalso. pose proof (last_In ds 0 Hne) as Hin. apply Hgt in Hin.
      simpl in Hlast. lia.
  - destruct Hend as [[_ Hnil] | [Hne Hlast]]; [discriminate |].
    destruct ds as [| d ds']; [congruence |].
    destruct (pass2_step cfg table dupList r rest n c written sg pr d ds' Hc Hdrop Hs
                (Hgt d (or_introl eq_refl)))
      as (c' & ds'' & sg' & pr' & -> & Hc' & Hdrop' & Hs' & Hgt' & Hext & Hcnt & _ & Hwhich).
    cbn [length] in Hlast.
    assert (Hend' : (ds'' = [] /\ rest = [])
                    \/ (ds'' <> [] /\ List.last ds'' 0 = n + 1 + Z.of_nat (length rest))).
    { destruct Hwhich as [[-> _] | [-> ->]].
      - right. split; [discriminate | lia].
      - destruct ds' as [| x ds'].
        + left. split; [reflexivity |]. simpl in Hlast.
          destruct rest; [reflexivity | simpl in Hlast; lia].
        + right. split; [discriminate |].
          change (List.last (n + 1 :: x :: ds') 0) with (List.last (x :: ds') 0) in Hlast.
          lia. }
    destruct (IH (n + 1) c' (written ++ writtenFor cfg table (listed (d :: ds') (n + 1)) r)
                sg' pr' ds'' Hc' Hdrop' Hs' Hgt' Hend')
      as (sg'' & pr'' & -> & Hsum).
    exists sg'', pr''. split; [| lia].
    cbn [expectedOutput]. rewrite <- app_assoc.
    now rewrite (expectedOutput_ext cfg table (d :: ds') ds'' rest (n + 1) Hext).
Qed.

Lemma pass2_out_of_bounds cfg table dupList records :
  forall n c written sg pr ds,
    0 <= c ->
    drop (Z.to_nat c) dupList = ds ->
    (Z.to_nat c + length ds = length dupList)%nat ->
    StronglySorted Z.lt ds ->
    (forall d, In d ds -> n < d) ->
    List.last ds n < n + Z.of_nat (length records) ->
    pass2 cfg table dupList true records n c written sg pr
    = Pass2OutOfBounds
        (written
         ++ expectedOutput cfg table ds (take (Z.to_nat (List.last ds n - n)) records) n)
        (List.last ds n + 1) (Z.of_nat (length dupList)).
Proof.
  induction records as [| r rest IH];
    intros n c written sg pr ds Hc Hdrop Hlen Hs Hgt Hlast.
  - exfalso. simpl in Hlast. destruct ds as [| d ds']; [simpl in Hlast; lia |].
    assert (Hin : In (List.last (d :: ds') n) (d :: ds')) by (apply last_In; discriminate).
    apply Hgt in Hin. lia.
  - destruct ds as [| d ds'].
    + cbn [pass2 List.last]. unfold foundDupAt.
      rewrite (lookup_ge_None_2 dupList (Z.to_nat c)) by (simpl in Hlen; lia).
      rewrite Z.sub_diag. cbn [Z.to_nat take expectedOutput].
      rewrite app_nil_r. f_equal. simpl in Hlen. lia.
    + destruct (pass2_step cfg table dupList r rest n c written sg pr d ds' Hc Hdrop Hs
                  (Hgt d (or_introl eq_refl)))
        as (c' & ds'' & sg' & pr' & -> & Hc' & Hdrop' & Hs' & Hgt' & Hext & _ & Hlen' & Hwhich).
      assert (HL : n < List.last (d :: ds') n).
      { apply Hgt, last_In. discriminate. }
      assert (Hsame : List.last ds'' (n + 1) = List.last (d :: ds') n).
      { destruct Hwhich as [[-> _] | [-> ->]].
        - apply last_default. discriminate.
        - destruct ds' as [| x ds']; [reflexivity |].
          change (List.last (n + 1 :: x :: ds') n) with (List.last (x :: ds') n).
          apply last_default. discriminate. }
      cbn [length] in Hlast.
      assert (Hlen'' : (Z.to_nat c' + length ds'' = length dupList)%nat) by lia.
      assert (Hlast' : List.last ds'' (n + 1) < n + 1 + Z.of_nat (length rest))
        by (rewrite Hsame; lia).
      rewrite (IH (n + 1) c' (written ++ writtenFor cfg table (listed (d :: ds') (n + 1)) r)
                 sg' pr' ds'' Hc' Hdrop' Hlen'' Hs' Hgt' Hlast').
      rewrite Hsame.
      replace (Z.to_nat (List.last (d :: ds') n - n))
        with (S (Z.to_nat (List.last (d :: ds') n - (n + 1)))) by lia.
      cbn [take expectedOutput]. rewrite <- app_assoc.
      now rewrite (expectedOutput_ext cfg table (d :: ds') ds'' _ (n + 1) Hext).
Qed.

Lemma pass2_from_start (cfg : Settings) (table : list SamRecord)
    (dupList : list Z)
    (records : list SamRecord) :
  StronglySorted Z.lt dupList ->
  (forall d, In d dupList -> 1 <= d <= Z.of_nat (length records)) ->
  let moreDups := negb (bool_decide (dupList = [])) in
  let lastDup := List.last dupList (Z.of_nat (length records)) in
  if lastDup =? Z.of_nat (length records) then
    exists single paired,
      pass2 cfg table dupList moreDups records 0 0 [] 0 0
      = Pass2Done (expectedOutput cfg table dupList records 0) single paired
      /\ single + paired = Z.of_nat (length dupList)
  else
    pass2 cfg table dupList moreDups records 0 0 [] 0 0
    = Pass2OutOfBounds
        (expectedOutput cfg table dupList (take (Z.to_nat lastDup) records) 0)
        (lastDup + 1) (Z.of_nat (length dupList)).
Proof.
  intros Hs Hrange moreDups lastDup.
  destruct dupList as [| d ds].
  - subst moreDups lastDup. cbn [List.last]. rewrite Z.eqb_refl.
    rewrite bool_decide_eq_true_2 by reflexivity. cbn [negb].
    exists 0, 0. rewrite pass2_no_dups. split; reflexivity.
  - assert (Hmore : moreDups = true).
    { subst moreDups. now rewrite bool_decide_eq_false_2 by discriminate. }
    rewrite Hmore.
    assert (Hgt : forall x, In x (d :: ds) -> 0 < x).
    { intros x Hx. specialize (Hrange x Hx). lia. }
    assert (Hlast0 : List.last (d :: ds) 0 = lastDup).
    { apply last_default. discriminate. }
    destruct (Z.eqb_spec lastDup (Z.of_nat (length records))) as [Heq | Hne].
    + destruct (pass2_done cfg table (d :: ds) records 0 0 [] 0 0 (d :: ds)
                  (Z.le_refl 0) eq_refl Hs Hgt) as (sg & pr & Hrun & Hsum).
      { right. split; [discriminate | lia]. }
      exists sg, pr. split; [exact Hrun | lia].
    + assert (Hin : In lastDup (d :: ds)).
      { subst lastDup. apply last_In. discriminate. }
      specialize (Hrange _ Hin).
      rewrite (pass2_out_of_bounds cfg table (d :: ds) records 0 0 [] 0 0 (d :: ds)
                 (Z.le_refl 0) eq_refl eq_refl Hs Hgt) by lia.
      rewrite Hlast0, Z.sub_0_r. reflexivity.
Qed.

(** X7.  Pass 2 over a strictly increasing list of record indices of the
    input.  When the list is empty or ends with the index of the last record,
    the loop finishes: it has written the output in which exactly the listed
    records are duplicates (each record with its flag settled and then, when
    recalibration is on, passed through [processReadApplyTable]), and its two
    counters add up to the length of the list.  Otherwise the record after the
    last listed one makes the loop read the vector at its length; up to there
    the output is right. *)
Theorem pass2_outcome (cfg : Settings) (table : list SamRecord)
    (dupList : list Z)
    (records : list SamRecord) :
  StronglySorted Z.lt dupList ->
  (forall d, In d dupList -> 1 <= d <= Z.of_nat (length records)) ->
  let moreDups := negb (bool_decide (dupList = [])) in
  let lastDup := List.last dupList (Z.of_nat (length records)) in
  if lastDup =? Z.of_nat (length records) then
    exists single paired,
      pass2 cfg table dupList moreDups records 0 0 [] 0 0
      = Pass2Done (expectedOutput cfg table dupList records 0) single paired
      /\ single + paired = Z.of_nat (length dupList)
  else
    pass2 cfg table dupList moreDups records 0 0 [] 0 0
    = Pass2OutOfBounds
        (expectedOutput cfg table dupList (take (Z.to_nat lastDup) records) 0)
        (lastDup + 1) (Z.of_nat (length dupList)).
Proof.
  exact (pass2_from_start cfg table dupList records).
Qed.

Lemma pass2_outcome_witness :
  StronglySorted Z.lt [2; 4]
  /\ exists single paired,
       pass2 recabOptions [firstMate "A"] [2; 4] true twoPairs 0 0 [] 0 0
       = Pass2Done (expectedOutput recabOptions [firstMate "A"] [2; 4] twoPairs 0)
           single paired
       /\ single + paired = 2.
Proof.
  assert (Hs : StronglySorted Z.lt [2; 4]).
  { repeat constructor; lia. }
  split; [exact Hs |].
  apply (pass2_outcome recabOptions [firstMate "A"] [2; 4] twoPairs Hs).
  intros d [<- | [<- | []]]; simpl; lia.
Defined.

Lemma expectedOutput_withLibraries opts m k table dups records n :
  expectedOutput (withLibraries opts m k) table dups records n
  = expectedOutput opts table dups records n.
Proof.
  revert n. induction records as [| r records IH]; intros n; simpl; [reflexivity |].
  now rewrite IH.
Qed.

(** X8.  What a run puts out.  A run that finishes has written, in input
    order, every record that is not on the duplicate list (without the
    duplicate flag in force mode) and, unless duplicates are removed, every
    record on it with the duplicate flag set, each passed through
    [processReadApplyTable] with the table of pass 1 when recalibration is on;
    the two duplicate counters of pass 2 add up to the length of the list.  A
    run that reads the duplicate list out of bounds has finished pass 1 and
    does so at a record after the last duplicate, with the cursor at the
    length of the non-empty list, having written the right output for the
    records before. *)
Theorem run_output (opts : Settings) (header : list RGRecord)
    (records : list SamRecord) :
  match execute opts header records with
  | Finished s written single paired =>
      written = expectedOutput opts (recabBuilt s) (myDupList s) records 0
      /\ single + paired = Z.of_nat (length (myDupList s))
      /\ StronglySorted Z.lt (myDupList s)
      /\ (forall d, In d (myDupList s) -> 1 <= d <= Z.of_nat (length records))
  | OutOfBounds written currentIndex currentDupIndex =>
      exists libs k warned s1,
        buildReadGroupLibraryMap header = Ok (libs, k, warned)
        /\ pass1 (withLibraries opts libs k) records 0
             (logLines warned initialDedup) = Pass1Done s1
        /\ let s := finishPass1 (withLibraries opts libs k) s1 in
           let dups := myDupList s in
           StronglySorted Z.lt dups
           /\ dups <> []
           /\ currentDupIndex = Z.of_nat (length dups)
           /\ currentIndex = List.last dups 0 + 1
           /\ currentIndex <= Z.of_nat (length records)
           /\ written
              = expectedOutput opts (recabBuilt s) dups
                  (take (Z.to_nat (currentIndex - 1)) records) 0
  | Aborted _ _ => True
  end.
Proof.
  unfold execute.
  destruct (buildReadGroupLibraryMap header) as [[[libs k] warned] |]; [| exact I].
  destruct (pass1 _ records 0 _) as [s |] eqn:Hpass; [| exact I].
  destruct (pass1_dupList _ records (logLines warned initialDedup) s
              (eq_refl : trackedIndices (logLines warned initialDedup) = [])
              Hpass) as (Hs & Hrange & _).
  pose proof (pass2_from_start (withLibraries opts libs k)
                (recabBuilt (finishPass1 (withLibraries opts libs k) s))
                (myDupList (finishPass1 (withLibraries opts libs k) s)) records
                Hs Hrange) as Hout.
  cbv zeta in Hout.
  set (dups := myDupList (finishPass1 (withLibraries opts libs k) s)) in *.
  set (table := recabBuilt (finishPass1 (withLibraries opts libs k) s)) in *.
  destruct (Z.eqb_spec (List.last dups (Z.of_nat (length records)))
              (Z.of_nat (length records))) as [Heq | Hne].
  - destruct Hout as (sg & pr & -> & Hsum).
    rewrite expectedOutput_withLibraries. auto.
  - rewrite Hout. rewrite expectedOutput_withLibraries.
    assert (Hnonempty : dups <> []).
    { intros E. apply Hne. now rewrite E. }
    assert (Hin : In (List.last dups (Z.of_nat (length records))) dups)
      by now apply last_In.
    specialize (Hrange _ Hin).
    exists libs, k, warned, s.
    split; [reflexivity |]. split; [exact Hpass |]. cbv zeta.
    fold dups. fold table.
    rewrite (last_default dups 0 (Z.of_nat (length records)) Hnonempty).
    split; [exact Hs |]. split; [exact Hnonempty |].
    split; [reflexivity |]. split; [reflexivity |]. split; [lia |].
    now rewrite Z.add_simpl_r.
Qed.

(** ** Every record is released once *)

Local Abbreviation acc x s := (count_occ SamRecord_eq_dec (accountedRecords s) x).
Local Abbreviation oneRec r x := (count_occ SamRecord_eq_dec [r] x).

Lemma acc_parts x s :
  acc x s
  = (count_occ SamRecord_eq_dec (released s) x
     + sumw (fun d => count_occ SamRecord_eq_dec (recF d) x) (myFragmentMap s)
     + sumw (fun d => count_occ SamRecord_eq_dec (recM d) x) (myMateMap s)
     + sumw (fun d => count_occ SamRecord_eq_dec (recP d) x) (myPairedMap s))%nat.
Proof.
  unfold accountedRecords, sumw.
  rewrite !count_occ_app, !count_occ_flat_map. lia.
Qed.

Lemma handleNonDuplicate_released cfg p s :
  myDoRecab cfg && myForceFlag cfg = false ->
  released (handleNonDuplicate cfg p s) = released s ++ option_list p.
Proof.
  intros Hrf. unfold handleNonDuplicate.
  destruct p as [r |]; [| now rewrite app_nil_r].
  destruct (myDoRecab cfg); [| reflexivity].
  simpl in Hrf. rewrite Hrf. reflexivity.
Qed.

Lemma handleMissingMate_released cfg p s :
  myDoRecab cfg && myForceFlag cfg = false ->
  released (handleMissingMate cfg p s) = released s ++ option_list p.
Proof.
  intros Hrf. unfold handleMissingMate.
  destruct p as [r |]; [| now rewrite app_nil_r].
  rewrite handleNonDuplicate_released by exact Hrf.
  destruct (negb (getMateReferenceID r =? getReferenceID r));
    [destruct (firstDifferChrom s) | destruct (firstSameChrom s)]; reflexivity.
Qed.

(** A loop whose body releases the records [h a] and leaves the maps and the
    duplicate list alone. *)
Lemma fold_left_releasing {A} (g : Dedup -> A -> Dedup) (h : A -> list SamRecord)
    (l : list A) (s : Dedup) :
  (forall s a, sameTracking s (g s a) /\ released (g s a) = released s ++ h a
               /\ myNumMissingMate (g s a) = myNumMissingMate s) ->
  sameTracking s (fold_left g l s)
  /\ released (fold_left g l s) = released s ++ flat_map h l
  /\ myNumMissingMate (fold_left g l s) = myNumMissingMate s.
Proof.
  intros Hg. revert s. induction l as [| a l IH]; simpl; intros s.
  - split; [apply sameTracking_refl | now rewrite app_nil_r].
  - destruct (Hg s a) as (Hs & Hr & Hn). destruct (IH (g s a)) as (Hs' & Hr' & Hn').
    split; [eapply sameTracking_trans; eassumption |].
    split; [now rewrite Hr', Hr, app_assoc | congruence].
Qed.

Lemma cleanupMates_releasing cfg bounded stop m s :
  myDoRecab cfg && myForceFlag cfg = false ->
  exists handled,
    m = handled ++ (cleanupMates cfg bounded stop m s).1
    /\ sameTracking s (cleanupMates cfg bounded stop m s).2
    /\ released (cleanupMates cfg bounded stop m s).2
       = released s ++ flat_map (fun e => recM e.2) handled
    /\ myNumMissingMate (cleanupMates cfg bounded stop m s).2
       = myNumMissingMate s
         + Z.of_nat (length (flat_map (fun e => recM e.2) handled)).
Proof.
  intros Hrf. revert s. induction m as [| e m IH]; simpl; intros s.
  - exists []. simpl. rewrite app_nil_r.
    repeat split; lia.
  - destruct (bounded && (e.1 >=? stop)); simpl.
    + exists []. simpl. rewrite app_nil_r. repeat split; lia.
    + destruct (IH (handleMissingMate cfg (recordPtr e.2) s))
        as (h & Hh & Hs & Hr & Hn).
      exists (e :: h). split; [simpl; now rewrite <- Hh |].
      split; [eapply sameTracking_trans; [apply handleMissingMate_same | exact Hs] |].
      destruct (handleMissingMate_fields cfg (recordPtr e.2) s) as (_ & _ & _ & _ & Hn0).
      split.
      * rewrite Hr, handleMissingMate_released by exact Hrf.
        simpl. unfold recM at 2. now rewrite app_assoc.
      * rewrite Hn, Hn0. simpl. unfold recM at 2. rewrite length_app.
        destruct (recordPtr e.2); simpl; lia.
Qed.

(** What a cleanup hands on: a front part of each map, whose records it
    releases, counting the mates among them as missing. *)
Lemma cleanupPriorReads_releasing cfg record s :
  myDoRecab cfg && myForceFlag cfg = false ->
  let s' := cleanupPriorReads cfg record s in
  exists fragDone pairDone mateDone,
    myFragmentMap s = fragDone ++ myFragmentMap s'
    /\ myPairedMap s = pairDone ++ myPairedMap s'
    /\ myMateMap s = mateDone ++ myMateMap s'
    /\ released s'
       = released s ++ flat_map (fun e => recF e.2) fragDone
                    ++ flat_map (fun e => recP e.2) pairDone
                    ++ flat_map (fun e => recM e.2) mateDone
    /\ myNumMissingMate s'
       = myNumMissingMate s
         + Z.of_nat (length (flat_map (fun e => recM e.2) mateDone)).
Proof.
  intros Hrf. unfold cleanupPriorReads.
  set (fragF := fun (s : Dedup) (e : DupKey * ReadData) =>
         if negb (paired e.2) then handleNonDuplicate cfg (recordPtr e.2) s else s).
  set (pairF := fun (s : Dedup) (e : PairedKey * PairedData) =>
         handleNonDuplicate cfg (record2Ptr e.2)
           (handleNonDuplicate cfg (record1Ptr e.2) s)).
  assert (HfragF : forall s a,
             sameTracking s (fragF s a)
             /\ released (fragF s a) = released s ++ recF a.2
             /\ myNumMissingMate (fragF s a) = myNumMissingMate s).
  { intros s0 a. unfold fragF, recF. destruct (paired a.2); simpl.
    - split; [apply sameTracking_refl | now rewrite app_nil_r].
    - split; [apply handleNonDuplicate_same |].
      split; [now apply handleNonDuplicate_released |].
      apply handleNonDuplicate_fields. }
  assert (HpairF : forall s a,
             sameTracking s (pairF s a)
             /\ released (pairF s a) = released s ++ recP a.2
             /\ myNumMissingMate (pairF s a) = myNumMissingMate s).
  { intros s0 a. unfold pairF, recP.
    split; [eapply sameTracking_trans; apply handleNonDuplicate_same |].
    split.
    - rewrite !handleNonDuplicate_released by exact Hrf. now rewrite app_assoc.
    - destruct (handleNonDuplicate_fields cfg (record2Ptr a.2)
                  (handleNonDuplicate cfg (record1Ptr a.2) s0)) as (_ & _ & _ & _ & ->).
      apply handleNonDuplicate_fields. }
  assert (Hgen : forall fragDone fragKept pairDone pairKept bounded stop,
             myFragmentMap s = fragDone ++ fragKept ->
             myPairedMap s = pairDone ++ pairKept ->
             let s' :=
               let s1 := setFragmentMap fragKept (fold_left fragF fragDone s) in
               let s2 := setPairedMap pairKept (fold_left pairF pairDone s1) in
               let '(mateKept, s3) := cleanupMates cfg bounded stop (myMateMap s2) s2 in
               setMateMap mateKept s3 in
             exists mateDone,
               myFragmentMap s' = fragKept /\ myPairedMap s' = pairKept
               /\ myMateMap s = mateDone ++ myMateMap s'
               /\ released s'
                  = released s ++ flat_map (fun e => recF e.2) fragDone
                               ++ flat_map (fun e => recP e.2) pairDone
                               ++ flat_map (fun e => recM e.2) mateDone
               /\ myNumMissingMate s'
                  = myNumMissingMate s
                    + Z.of_nat (length (flat_map (fun e => recM e.2) mateDone))).
  { intros fragDone fragKept pairDone pairKept bounded stop Ef Ep. cbv zeta.
    destruct (fold_left_releasing fragF (fun e => recF e.2) fragDone s HfragF)
      as ((_ & Hp1 & Hm1 & _) & Hr1 & Hn1).
    destruct (fold_left_releasing pairF (fun e => recP e.2) pairDone
                (setFragmentMap fragKept (fold_left fragF fragDone s)) HpairF)
      as ((Hf2 & _ & Hm2 & _) & Hr2 & Hn2).
    cbn [myFragmentMap myPairedMap myMateMap released myNumMissingMate
         setFragmentMap] in Hf2, Hm2, Hr2, Hn2.
    match goal with
    | |- context [cleanupMates ?c ?b ?st ?m ?s0] =>
        destruct (cleanupMates_releasing c b st m s0 Hrf)
          as (mateDone & Hsplit & (Hf3 & Hp3 & _ & _) & Hr3 & Hn3);
        destruct (cleanupMates c b st m s0) as [mateKept s3]
    end.
    cbn [fst snd myFragmentMap myPairedMap myMateMap released myNumMissingMate
         setFragmentMap setPairedMap setMateMap] in *.
    exists mateDone.
    split; [now rewrite Hf3, Hf2 |]. split; [exact Hp3 |].
    split; [now rewrite <- Hsplit, Hm2, Hm1 |].
    split; [now rewrite Hr3, Hr2, Hr1, <- !app_assoc |].
    now rewrite Hn3, Hn2, Hn1. }
  destruct record as [r |]; cbv zeta.
  - pose proof (om_split_app DupKey_ltb
                  (cleanupKey (getReferenceID r) (get0BasedPosition r))
                  (myFragmentMap s)) as Ef.
    pose proof (om_split_app PairedKey_ltb
                  (mkPairedKey emptyKey
                     (cleanupKey (getReferenceID r) (get0BasedPosition r)))
                  (myPairedMap s)) as Ep.
    destruct (om_split DupKey_ltb _ (myFragmentMap s)) as [fragDone fragKept].
    destruct (om_split PairedKey_ltb _ (myPairedMap s)) as [pairDone pairKept].
    cbn [fst snd] in Ef, Ep.
    destruct (Hgen fragDone fragKept pairDone pairKept true
                (SamHelper.combineChromPos (getReferenceID r) (get0BasedPosition r))
                (eq_sym Ef) (eq_sym Ep)) as (mateDone & Hf & Hp & Hrest).
    cbv zeta in Hf, Hp, Hrest.
    exists fragDone, pairDone, mateDone. rewrite Hf, Hp.
    split; [now rewrite Ef |]. split; [now rewrite Ep |]. exact Hrest.
  - destruct (Hgen (myFragmentMap s) [] (myPairedMap s) [] false 0
                (eq_sym (app_nil_r _)) (eq_sym (app_nil_r _)))
      as (mateDone & Hf & Hp & Hrest).
    cbv zeta in Hf, Hp, Hrest.
    exists (myFragmentMap s), (myPairedMap s), mateDone. rewrite Hf, Hp.
    rewrite !app_nil_r. split; [reflexivity |]. split; [reflexivity |]. exact Hrest.
Qed.

Lemma acc_fragmentStep record n key recordPaired sumQual x s :
  acc x (fragmentStep record n key recordPaired sumQual s)
  = (acc x s + if recordPaired then 0 else oneRec record x)%nat.
Proof.
  pose proof (fragmentStep_frame record n key recordPaired sumQual s)
    as (Hp & Hm & _).
  pose proof (fragmentStep_spec record n key recordPaired sumQual s) as H.
  pose proof (sumw_om_put DupKey_ltb
                (fun d => count_occ SamRecord_eq_dec (recF d) x)
                key (readDataOf record n recordPaired sumQual) (myFragmentMap s))
    as Hput.
  cbv beta zeta in *. rewrite !acc_parts, Hp, Hm.
  assert (Hmine : count_occ SamRecord_eq_dec
                    (recF (readDataOf record n recordPaired sumQual)) x
                  = if recordPaired then 0%nat else oneRec record x).
  { unfold recF, readDataOf. cbn [paired recordPtr]. now destruct recordPaired. }
  rewrite Hmine in Hput.
  destruct (om_lookup DupKey_ltb key (myFragmentMap s)) as [d |] eqn:Hold;
    unfold takesEntry in H.
  - destruct (negb (paired d) && (recordPaired || (sumQual >? sumBaseQual d)))
      eqn:Hcond.
    + apply andb_prop in Hcond as [Hunp _]. apply negb_true_iff in Hunp.
      destruct H as (Hmap & _ & _ & Hr). rewrite Hmap, Hr, count_occ_app.
      unfold recF at 1 in Hput. rewrite Hunp in Hput. lia.
    + destruct H as (-> & _ & ->). rewrite count_occ_app.
      destruct recordPaired; simpl; lia.
  - destruct H as (Hmap & _ & _ & Hr). rewrite Hmap, Hr, app_nil_r. lia.
Qed.

Lemma acc_pairedStep cfg record n key sumQual mateRecord mateIndex x s s' :
  pairedStep cfg record n key sumQual mateRecord mateIndex s = Ok s' ->
  acc x s' = (acc x s + oneRec mateRecord x + oneRec record x)%nat.
Proof.
  intros Hstep.
  destruct (pairedStep_Ok_lib _ _ _ _ _ _ _ _ _ Hstep) as (lib & w & Hlib).
  destruct (pairedStep_spec cfg record n key sumQual mateRecord mateIndex s lib w
              Hlib) as (s'' & Hs'' & Hf & Hm & _ & Hcase).
  rewrite Hstep in Hs''. injection Hs'' as <-. cbv zeta in Hcase.
  pose proof (sumw_om_put PairedKey_ltb
                (fun d => count_occ SamRecord_eq_dec (recP d) x)
                (mkPairedKey key (updateKey mateRecord lib))
                (pairDataOf record n sumQual mateRecord mateIndex) (myPairedMap s))
    as Hput.
  cbv beta in Hput.
  assert (Hmine : count_occ SamRecord_eq_dec
                    (recP (pairDataOf record n sumQual mateRecord mateIndex)) x
                  = (oneRec record x + oneRec mateRecord x)%nat).
  { unfold recP, pairDataOf. cbn [record1Ptr record2Ptr option_list].
    now rewrite count_occ_app. }
  rewrite Hmine in Hput.
  rewrite !acc_parts, Hf, Hm.
  destruct (om_lookup PairedKey_ltb _ (myPairedMap s)) as [stored |].
  - destruct (keepStored stored sumQual mateIndex);
      destruct Hcase as (-> & _ & ->); rewrite !count_occ_app.
    + change [record; mateRecord] with ([record] ++ [mateRecord]).
      rewrite count_occ_app. lia.
    + unfold recP at 1 in Hput. rewrite count_occ_app in Hput. lia.
  - destruct Hcase as (-> & _ & ->). lia.
Qed.

(** Every record that [checkDups] is given is accounted for afterwards:
    released, or owned by a map entry. *)
Lemma acc_checkDups cfg record n x s s' :
  myDoRecab cfg && myForceFlag cfg = false ->
  checkDups cfg record n s = Ok s' ->
  acc x s' = (acc x s + oneRec record x)%nat.
Proof.
  intros Hrf H.
  destruct (checkDups_cases _ _ _ _ _ H) as (lib & w & _ & Hc). cbv zeta in Hc.
  set (s1 := fragmentStep record n (updateKey record lib)
               (isRecordPaired cfg record) (getBaseQuality cfg record)
               (logLines w s)) in *.
  assert (H1 : acc x s1
               = (acc x s + if isRecordPaired cfg record then 0
                            else oneRec record x)%nat).
  { unfold s1. rewrite acc_fragmentStep. reflexivity. }
  destruct Hc as [[Hp ->] | [Hp [-> | [-> | (mateData & rest & mate & Hfind & Hptr & Hstep)]]]];
    rewrite Hp in H1.
  - lia.
  - rewrite acc_parts in *.
    cbn [released myFragmentMap myMateMap myPairedMap setMateMap].
    rewrite sumw_mm_insert. unfold recM at 1. cbn [recordPtr].
    change (option_list (Some record)) with [record]. lia.
  - destruct (handleMissingMate_same cfg (Some record) s1) as (Ef & Ep & Em & _).
    rewrite acc_parts in *.
    rewrite Ef, Ep, Em, handleMissingMate_released by exact Hrf.
    rewrite count_occ_app. change (option_list (Some record)) with [record]. lia.
  - rewrite (acc_pairedStep _ _ _ _ _ _ _ x _ _ Hstep).
    pose proof (sumw_findMate (fun d => count_occ SamRecord_eq_dec (recM d) x)
                  _ _ _ _ _ Hfind) as Hrest.
    cbv beta in Hrest.
    assert (Hmate : count_occ SamRecord_eq_dec (recM mateData) x = oneRec mate x).
    { unfold recM. now rewrite Hptr. }
    rewrite Hmate in Hrest.
    rewrite acc_parts in *.
    cbn [released myFragmentMap myMateMap myPairedMap setMateMap]. lia.
Qed.

Lemma acc_cleanupPriorReads cfg record x s :
  myDoRecab cfg && myForceFlag cfg = false ->
  acc x (cleanupPriorReads cfg record s) = acc x s.
Proof.
  intros Hrf.
  destruct (cleanupPriorReads_releasing cfg record s Hrf)
    as (fragDone & pairDone & mateDone & Ef & Ep & Em & Er & _).
  rewrite !acc_parts, Ef, Ep, Em, Er, !sumw_app, !count_occ_app,
    !count_occ_flat_map.
  unfold sumw. lia.
Qed.

Lemma acc_pass1 cfg records n x s s' :
  myDoRecab cfg && myForceFlag cfg = false ->
  pass1 cfg records n s = Pass1Done s' ->
  acc x s' = (acc x s + count_occ SamRecord_eq_dec records x)%nat.
Proof.
  intros Hrf. revert n s. induction records as [| r records IH]; intros n s;
    cbn [pass1].
  all: (destruct (poolExhausted cfg n s); [discriminate |]).
  - intros [= <-]. simpl. lia.
  - destruct (SamFlag.isDuplicate (getFlag r) && negb (myForceFlag cfg));
      [discriminate |].
    assert (Hclean : acc x (let '(changed, s1) := hasPositionChanged r s in
                            if changed then cleanupPriorReads cfg (Some r) s1 else s1)
                     = acc x s).
    { unfold hasPositionChanged.
      destruct (negb (lastReference s =? getReferenceID r)
                || (lastCoordinate s <? get0BasedPosition r)); [| reflexivity].
      now rewrite acc_cleanupPriorReads by exact Hrf. }
    change (count_occ SamRecord_eq_dec (r :: records) x)
      with (count_occ SamRecord_eq_dec ([r] ++ records) x).
    rewrite count_occ_app.
    destruct (hasPositionChanged r s) as [changed s1].
    destruct (negb (SamFlag.isMapped (getFlag r))).
    + intros Hp. rewrite (IH _ _ Hp).
      rewrite acc_parts in *. rewrite releaseRecord_released, count_occ_app.
      destruct (releaseRecord_same (Some r)
                  (if changed then cleanupPriorReads cfg (Some r) s1 else s1))
        as (-> & -> & -> & _).
      change (option_list (Some r)) with [r]. lia.
    + destruct (checkDups cfg r (n + 1) _) as [s3 |] eqn:Hc; [| discriminate].
      intros Hp. rewrite (IH _ _ Hp), (acc_checkDups _ _ _ x _ _ Hrf Hc). lia.
Qed.

(** X9.  Unless both recalibration and force mode are on, pass 1 with its
    final cleanup releases every record of the input exactly once: the
    released records are the input, in another order. *)
Theorem every_record_released_once (cfg : Settings) (records : list SamRecord)
    (s : Dedup) :
  myDoRecab cfg && myForceFlag cfg = false ->
  pass1 cfg records 0 initialDedup = Pass1Done s ->
  Permutation (released (finishPass1 cfg s)) records.
Proof.
  intros Hrf Hpass.
  apply (Permutation_count_occ SamRecord_eq_dec). intros x.
  pose proof (acc_pass1 cfg records 0 x initialDedup s Hrf Hpass) as Hacc.
  pose proof (acc_cleanupPriorReads cfg None x s Hrf) as Hclean.
  pose proof (cleanupPriorReads_maps cfg None s) as (_ & Hf & Hp & Hm).
  cbv zeta in Hf, Hp, Hm.
  rewrite acc_parts, Hf, Hp, Hm in Hclean.
  unfold finishPass1. cbn [released setDupList].
  unfold sumw in Hclean. simpl in Hclean, Hacc. lia.
Qed.

Lemma every_record_released_once_witness :
  exists s,
    myDoRecab defaultOptions && myForceFlag defaultOptions = false
    /\ pass1 defaultOptions twoPairs 0 initialDedup = Pass1Done s
    /\ Permutation (released (finishPass1 defaultOptions s)) twoPairs.
Proof.
  eexists. split; [reflexivity |]. split; [vm_compute; reflexivity |].
  apply (every_record_released_once defaultOptions twoPairs);
    [reflexivity | vm_compute; reflexivity].
Defined.

(** ** The dictionary built from the header *)

Lemma isEmpty_false (s : string) : isEmpty s = false <-> s <> EmptyString.
Proof.
  unfold isEmpty. destruct (String.eqb_spec s EmptyString); split; congruence.
Qed.

Lemma list_to_set_snoc (l : list string) (x : string) :
  list_to_set (l ++ [x]) = (list_to_set l : gset string) ∪ {[x]}.
Proof.
  rewrite list_to_set_app_L. cbn. now rewrite (right_id_L ∅ (∪)).
Qed.

Lemma BuildInv_start : BuildInv [] ∅ ∅ 0.
Proof.
  constructor.
  - now rewrite map_size_empty.
  - now rewrite dom_empty_L.
  - intros LB v H. now rewrite lookup_empty in H.
  - intros LB1 LB2 v H. now rewrite lookup_empty in H.
  - now rewrite dom_empty_L.
  - intros rg H. inversion H.
  - intros rg H. inversion H.
  - constructor.
Qed.

Lemma BuildInv_step done rgidMap libNameMap numLib rg :
  BuildInv done rgidMap libNameMap numLib ->
  rgID rg <> EmptyString ->
  rgidMap !! rgID rg = None ->
  match libNameMap !! rgLB rg with
  | Some lib => BuildInv (done ++ [rg]) (<[rgID rg := lib]> rgidMap) libNameMap numLib
  | None =>
      BuildInv (done ++ [rg])
        (<[rgID rg := Z.of_nat (size libNameMap) + 1]> rgidMap)
        (<[rgLB rg := Z.of_nat (size libNameMap) + 1]> libNameMap)
        (Z.of_nat (size libNameMap) + 1)
  end.
Proof.
  intros [Hnum Hlibs Hrange Hinj Hids Hlink Hne Hnd] HID Hfresh.
  assert (Hnew : rgID rg ∉ rgID <$> done).
  { intros Hin. apply (elem_of_list_to_set (C := gset string)) in Hin.
    rewrite <- Hids in Hin. apply elem_of_dom in Hin. rewrite Hfresh in Hin.
    now destruct Hin. }
  assert (Hother : forall rg', rg' ∈ done -> rgID rg' <> rgID rg).
  { intros rg' Hin E. apply Hnew. rewrite <- E. now apply list_elem_of_fmap_2. }
  assert (Hnd' : NoDup (rgID <$> done ++ [rg])).
  { rewrite fmap_app. apply NoDup_app. split; [exact Hnd |]. split.
    - intros x Hx Hx'. apply list_elem_of_singleton in Hx'. now subst x.
    - apply NoDup_singleton. }
  assert (Hne' : forall rg', rg' ∈ done ++ [rg] -> rgID rg' <> EmptyString).
  { intros rg' Hin. apply elem_of_app in Hin as [Hin | Hin]; [now apply Hne |].
    apply list_elem_of_singleton in Hin. now subst rg'. }
  destruct (libNameMap !! rgLB rg) as [lib |] eqn:Hlib.
  - constructor; try assumption.
    + rewrite fmap_app. cbn [fmap list_fmap]. rewrite list_to_set_snoc, <- Hlibs.
      assert (Hin : rgLB rg ∈ dom libNameMap) by (apply elem_of_dom; eauto).
      apply set_eq. intros y. rewrite elem_of_union, elem_of_singleton.
      split; [auto | intros [? | ->]; auto].
    + rewrite dom_insert_L, fmap_app. cbn [fmap list_fmap].
      rewrite list_to_set_snoc, <- Hids. apply (comm_L (∪)).
    + intros rg' Hin. apply elem_of_app in Hin as [Hin | Hin].
      * rewrite lookup_insert_ne by (apply not_eq_sym; now apply Hother).
        now apply Hlink.
      * apply list_elem_of_singleton in Hin. subst rg'.
        now rewrite lookup_insert_eq, Hlib.
  - assert (Hsize : size (<[rgLB rg := Z.of_nat (size libNameMap) + 1]> libNameMap)
                    = S (size libNameMap)) by now apply map_size_insert_None.
    constructor; try assumption.
    + rewrite Hsize. lia.
    + rewrite dom_insert_L, fmap_app. cbn [fmap list_fmap].
      rewrite list_to_set_snoc, <- Hlibs. apply (comm_L (∪)).
    + intros LB v. rewrite Hsize. destruct (decide (LB = rgLB rg)) as [-> | Hd].
      * rewrite lookup_insert_eq. intros [= <-]. lia.
      * rewrite lookup_insert_ne by congruence. intros H.
        specialize (Hrange _ _ H). lia.
    + intros LB1 LB2 v.
      destruct (decide (LB1 = rgLB rg)) as [-> | Hd1];
        destruct (decide (LB2 = rgLB rg)) as [-> | Hd2]; [reflexivity | | |].
      * rewrite lookup_insert_eq, lookup_insert_ne by congruence.
        intros [= <-] H. specialize (Hrange _ _ H). lia.
      * rewrite lookup_insert_eq, lookup_insert_ne by congruence.
        intros H [= <-]. specialize (Hrange _ _ H). lia.
      * rewrite !lookup_insert_ne by congruence. apply Hinj.
    + rewrite dom_insert_L, fmap_app. cbn [fmap list_fmap].
      rewrite list_to_set_snoc, <- Hids. apply (comm_L (∪)).
    + intros rg' Hin. apply elem_of_app in Hin as [Hin | Hin].
      * rewrite lookup_insert_ne by (apply not_eq_sym; now apply Hother).
        assert (Hd : rgLB rg' <> rgLB rg).
        { intros E. assert (Hin' : rgLB rg' ∈ dom libNameMap).
          { rewrite Hlibs. apply elem_of_list_to_set. now apply list_elem_of_fmap_2. }
          apply elem_of_dom in Hin'. rewrite E, Hlib in Hin'. now destruct Hin'. }
        rewrite lookup_insert_ne by congruence. now apply Hlink.
      * apply list_elem_of_singleton in Hin. subst rg'.
        now rewrite !lookup_insert_eq.
Qed.

Lemma buildLoop_inv rgs :
  forall done rgidMap libNameMap numLib warned m n w,
    BuildInv done rgidMap libNameMap numLib ->
    buildLoop rgs rgidMap libNameMap numLib warned = Ok (m, n, w) ->
    (exists libNameMap', BuildInv (done ++ rgs) m libNameMap' n)
    /\ w = warned ++ libraryWarnings rgs.
Proof.
  induction rgs as [| rg rgs IH]; intros done rgidMap libNameMap numLib warned m n w
    Hinv Hrun.
  - cbn in Hrun. injection Hrun as <- <- <-. rewrite !app_nil_r. eauto.
  - cbn [buildLoop] in Hrun. cbv zeta in Hrun.
    destruct (isEmpty (rgID rg)) eqn:HID; [discriminate |].
    apply isEmpty_false in HID.
    destruct (bool_decide (is_Some (rgidMap !! rgID rg))) eqn:Hdup; [discriminate |].
    apply bool_decide_eq_false in Hdup.
    assert (Hfresh : rgidMap !! rgID rg = None).
    { destruct (rgidMap !! rgID rg); [exfalso; apply Hdup; eauto | reflexivity]. }
    pose proof (BuildInv_step _ _ _ _ rg Hinv HID Hfresh) as Hstep.
    replace (done ++ rg :: rgs) with ((done ++ [rg]) ++ rgs)
      by now rewrite <- app_assoc.
    assert (Hw : forall x : list LogLine,
               x = (if isEmpty (rgLB rg) then warned ++ [WarnNoLibrary (rgID rg)]
                    else warned) ++ libraryWarnings rgs ->
               x = warned ++ libraryWarnings (rg :: rgs)).
    { intros x ->. unfold libraryWarnings. cbn [flat_map].
      destruct (isEmpty (rgLB rg)); [now rewrite <- app_assoc | reflexivity]. }
    destruct (libNameMap !! rgLB rg) as [lib |].
    + destruct (IH _ _ _ _ _ _ _ _ Hstep Hrun) as [Hex E]. auto.
    + destruct (IH _ _ _ _ _ _ _ _ Hstep Hrun) as [Hex E]. auto.
Qed.

Lemma buildLoop_succeeds rgs :
  forall done rgidMap libNameMap numLib warned,
    BuildInv done rgidMap libNameMap numLib ->
    (forall rg, rg ∈ rgs -> rgID rg <> EmptyString) ->
    NoDup (rgID <$> done ++ rgs) ->
    exists built, buildLoop rgs rgidMap libNameMap numLib warned = Ok built.
Proof.
  induction rgs as [| rg rgs IH]; intros done rgidMap libNameMap numLib warned
    Hinv Hne Hnd.
  - cbn. eauto.
  - cbn [buildLoop]. cbv zeta.
    assert (HID : rgID rg <> EmptyString) by (apply Hne; left).
    rewrite (proj2 (isEmpty_false _) HID).
    assert (Hfresh : rgidMap !! rgID rg = None).
    { apply not_elem_of_dom. rewrite (inv_ids _ _ _ _ Hinv).
      rewrite elem_of_list_to_set. intros Hin.
      rewrite fmap_app in Hnd. apply NoDup_app in Hnd as (_ & Hdis & _).
      apply (Hdis _ Hin). cbn. left. }
    rewrite Hfresh. rewrite bool_decide_eq_false_2 by (intros [? [=]]).
    pose proof (BuildInv_step _ _ _ _ rg Hinv HID Hfresh) as Hstep.
    assert (Hne' : forall rg', rg' ∈ rgs -> rgID rg' <> EmptyString)
      by (intros rg' Hin; apply Hne; now right).
    assert (Hnd' : NoDup (rgID <$> (done ++ [rg]) ++ rgs))
      by now rewrite <- app_assoc.
    destruct (libNameMap !! rgLB rg) as [lib |]; now apply (IH (done ++ [rg])).
Qed.

Lemma BuildInv_size done rgidMap libNameMap numLib :
  BuildInv done rgidMap libNameMap numLib ->
  numLib = Z.of_nat (length (libraryNames done)).
Proof.
  intros Hinv. rewrite (inv_num _ _ _ _ Hinv). f_equal.
  rewrite <- (size_dom (D := gset string)), (inv_libs _ _ _ _ Hinv).
  unfold libraryNames.
  rewrite <- (size_list_to_set (C := gset string) (remove_dups (rgLB <$> done)))
    by apply NoDup_remove_dups.
  f_equal. apply set_eq. intros x.
  now rewrite !elem_of_list_to_set, elem_of_remove_dups.
Qed.

Lemma build_success header m n w :
  buildReadGroupLibraryMap header = Ok (m, n, w) ->
  n <= 255
  /\ w = libraryWarnings header
  /\ exists libNameMap, BuildInv header m libNameMap n.
Proof.
  unfold buildReadGroupLibraryMap. intros Hrun.
  destruct (buildLoop header ∅ ∅ 0 []) as [[[m' n'] w'] |] eqn:Hloop;
    [| discriminate].
  cbn in Hrun. destruct (Z.gtb_spec n' 255); [discriminate |].
  injection Hrun as <- <- <-.
  destruct (buildLoop_inv _ _ _ _ _ _ _ _ _ BuildInv_start Hloop) as [Hex Hw].
  split; [lia |]. split; [exact Hw | exact Hex].
Qed.

(** X10.  What a successful [buildReadGroupLibraryMap] has built.  The header
    has no read group without an ID and no ID twice; [numLibraries] is the
    number of distinct library names and at most 255; the dictionary holds
    exactly the IDs of the header, each with a library id between 1 and
    [numLibraries]; two read groups get the same id exactly when their library
    names are equal; and one warning was written for each line without a
    library name. *)
Theorem library_map_of_header (header : list RGRecord) (m : gmap string Z)
    (n : Z) (w : list LogLine) :
  buildReadGroupLibraryMap header = Ok (m, n, w) ->
  (forall rg, rg ∈ header -> rgID rg <> EmptyString)
  /\ NoDup (rgID <$> header)
  /\ n = Z.of_nat (length (libraryNames header))
  /\ n <= 255
  /\ (forall ID, is_Some (m !! ID) <-> ID ∈ rgID <$> header)
  /\ (forall rg, rg ∈ header -> exists lib, m !! rgID rg = Some lib /\ 1 <= lib <= n)
  /\ (forall rg1 rg2, rg1 ∈ header -> rg2 ∈ header ->
        (m !! rgID rg1 = m !! rgID rg2 <-> rgLB rg1 = rgLB rg2))
  /\ w = libraryWarnings header.
Proof.
  intros Hrun. destruct (build_success _ _ _ _ Hrun) as (H255 & Hw & libs & Hinv).
  pose proof (BuildInv_size _ _ _ _ Hinv) as Hsize.
  destruct Hinv as [Hnum Hlibs Hrange Hinj Hids Hlink Hne Hnd].
  assert (Hsome : forall rg, rg ∈ header -> is_Some (libs !! rgLB rg)).
  { intros rg Hin. apply elem_of_dom. rewrite Hlibs.
    apply elem_of_list_to_set. now apply list_elem_of_fmap_2. }
  split; [exact Hne |]. split; [exact Hnd |]. split; [exact Hsize |].
  split; [exact H255 |]. split; [| split; [| split]].
  - intros ID. rewrite <- (elem_of_dom m), Hids. apply elem_of_list_to_set.
  - intros rg Hin. destruct (Hsome rg Hin) as [lib Hlib].
    exists lib. rewrite (Hlink rg Hin). split; [exact Hlib |].
    specialize (Hrange _ _ Hlib). lia.
  - intros rg1 rg2 H1 H2. rewrite (Hlink rg1 H1), (Hlink rg2 H2). split.
    + intros E. destruct (Hsome rg1 H1) as [lib Hlib].
      apply (Hinj _ _ lib); [exact Hlib | now rewrite <- E].
    + now intros ->.
  - exact Hw.
Qed.

Lemma library_map_of_header_witness :
  NoDup (rgID <$> threeGroups)
  /\ 2 = Z.of_nat (length (libraryNames threeGroups))
  /\ [] = libraryWarnings threeGroups.
Proof.
  destruct (library_map_of_header threeGroups
              (<["rgA" := 1]> (<["rgB" := 2]> (<["rgC" := 1]> ∅))) 2 [])
    as (_ & Hnd & Hn & _ & _ & _ & _ & Hw).
  - vm_compute. reflexivity.
  - split; [exact Hnd |]. split; [exact Hn | exact Hw].
Defined.

(** X11.  When [buildReadGroupLibraryMap] returns.  It reaches no
    [Logger::error] exactly when every read group of the header has an ID, no
    ID occurs twice and there are at most 255 distinct library names (a
    missing library name counts as the empty name). *)
Theorem library_map_built_iff (header : list RGRecord) :
  (exists built, buildReadGroupLibraryMap header = Ok built)
  <-> (forall rg, rg ∈ header -> rgID rg <> EmptyString)
      /\ NoDup (rgID <$> header)
      /\ (length (libraryNames header) <= 255)%nat.
Proof.
  split.
  - intros [[[m n] w] Hrun].
    destruct (build_success _ _ _ _ Hrun) as (H255 & _ & libs & Hinv).
    pose proof (BuildInv_size _ _ _ _ Hinv) as Hsize.
    split; [exact (inv_nonempty _ _ _ _ Hinv) |].
    split; [exact (inv_nodup _ _ _ _ Hinv) | lia].
  - intros (Hne & Hnd & Hsize).
    destruct (buildLoop_succeeds header [] ∅ ∅ 0 [] BuildInv_start Hne Hnd)
      as [[[m n] w] Hloop].
    destruct (buildLoop_inv _ _ _ _ _ _ _ _ _ BuildInv_start Hloop)
      as [[libs Hinv] _].
    pose proof (BuildInv_size _ _ _ _ Hinv) as Hn. cbn [app] in Hn.
    unfold buildReadGroupLibraryMap. rewrite Hloop. cbn.
    destruct (Z.gtb_spec n 255); [lia |]. eauto.
Qed.

(** X12.  The library id of a record, with the dictionary of a header that
    [buildReadGroupLibraryMap] accepted: it is between 0 and [numLibraries],
    so at most 255.  It is 0 only when the tags are not consulted (at most one
    library and no checking asked for) or when the record's read group is not
    in the header, which is warned about; a positive id is the one that the
    dictionary holds for a read group of the header named by an RG tag of the
    record, without a warning. *)
Theorem library_id_range (opts : Settings) (header : list RGRecord)
    (m : gmap string Z) (n : Z) (w0 : list LogLine) (record : SamRecord)
    (checkTags : bool) (lib : Z) (w : list LogLine) :
  buildReadGroupLibraryMap header = Ok (m, n, w0) ->
  getLibraryID (withLibraries opts m n) record checkTags = Ok (lib, w) ->
  0 <= lib <= n /\ n <= 255
  /\ (lib = 0 ->
      (checkTags = false /\ n <= 1 /\ w = [])
      \/ exists v, v ∈ rgValues record /\ (v ∉ rgID <$> header)
                   /\ w = [WarnUnknownRG v])
  /\ (0 < lib ->
      w = []
      /\ exists rg, rg ∈ header /\ rgID rg ∈ rgValues record
                    /\ m !! rgID rg = Some lib).
Proof.
  intros Hbuild Hlib.
  destruct (build_success _ _ _ _ Hbuild) as (H255 & _ & libs & Hinv).
  pose proof (BuildInv_size _ _ _ _ Hinv) as Hsize.
  destruct Hinv as [Hnum Hlibs Hrange Hinj Hids Hlink Hne Hnd].
  unfold getLibraryID in Hlib. cbn [numLibraries rgidLibMap withLibraries] in Hlib.
  destruct (negb checkTags && (n <=? 1)) eqn:Hshort.
  - injection Hlib as <- <-.
    apply andb_true_iff in Hshort as [Hct Hn]. apply negb_true_iff in Hct.
    apply Z.leb_le in Hn.
    split; [lia |]. split; [exact H255 |]. split; [auto | lia].
  - rewrite scanRGTags_values in Hlib. fold (rgValues record) in Hlib.
    assert (Hscan : forall vs rgID v,
               scanValues (getReadName record) vs rgID = Ok v ->
               v = rgID \/ v ∈ vs).
    { induction vs as [| x vs IH]; intros rgID v Hv; cbn in Hv.
      - injection Hv as <-. now left.
      - destruct (negb (isEmpty rgID)); [discriminate |].
        destruct (IH _ _ Hv) as [-> | Hin]; right; [left | now right]. }
    destruct (scanValues (getReadName record) (rgValues record) EmptyString)
      as [v |] eqn:Hv; [| discriminate].
    cbn in Hlib. destruct (isEmpty v) eqn:Hempty; [discriminate |].
    apply isEmpty_false in Hempty.
    destruct (Hscan _ _ _ Hv) as [-> | Hin]; [congruence |].
    destruct (m !! v) as [lib' |] eqn:Hm.
    + injection Hlib as <- <-.
      assert (Hdom : v ∈ dom m) by (apply elem_of_dom; eauto).
      rewrite Hids in Hdom. apply elem_of_list_to_set in Hdom.
      apply list_elem_of_fmap_1 in Hdom as (rg & -> & Hrg).
      pose proof Hm as Hm'. rewrite (Hlink rg Hrg) in Hm'.
      specialize (Hrange _ _ Hm').
      split; [lia |]. split; [exact H255 |]. split; [intros ->; lia |].
      intros _. split; [reflexivity |]. eauto.
    + injection Hlib as <- <-.
      split; [lia |]. split; [exact H255 |]. split; [| lia].
      intros _. right. exists v. split; [exact Hin |]. split; [| reflexivity].
      intros Hv'. apply (elem_of_list_to_set (C := gset string)) in Hv'.
      rewrite <- Hids in Hv'. apply elem_of_dom in Hv'. rewrite Hm in Hv'.
      now destruct Hv'.
Qed.

Lemma library_id_range_witness :
  0 <= 2 <= 2 /\ 2 <= 255.
Proof.
  destruct (library_id_range defaultOptions threeGroups
              (<["rgA" := 1]> (<["rgB" := 2]> (<["rgC" := 1]> ∅))) 2 []
              (taggedRead "r1" "rgB") false 2 [])
    as (H1 & H2 & _).
  - vm_compute. reflexivity.
  - vm_compute. reflexivity.
  - split; [exact H1 | exact H2].
Defined.

(** ** The records that the maps hold *)

Lemma Holding_maps cfg s s' :
  myFragmentMap s' = myFragmentMap s ->
  myPairedMap s' = myPairedMap s ->
  myMateMap s' = myMateMap s ->
  Holding cfg s -> Holding cfg s'.
Proof.
  intros Hf Hp Hm [H1 H2 H3]. constructor; rewrite ?Hf, ?Hp, ?Hm; assumption.
Qed.

Lemma Holding_sub cfg s s' :
  (forall e, In e (myFragmentMap s') -> In e (myFragmentMap s)) ->
  (forall e, In e (myPairedMap s') -> In e (myPairedMap s)) ->
  (forall e, In e (myMateMap s') -> In e (myMateMap s)) ->
  Holding cfg s -> Holding cfg s'.
Proof.
  intros Hf Hp Hm [H1 H2 H3]. constructor; auto.
Qed.

Lemma initialDedup_Holding cfg : Holding cfg initialDedup.
Proof. constructor; intros e []. Qed.

Lemma cleanupPriorReads_Holding cfg record s :
  Holding cfg s -> Holding cfg (cleanupPriorReads cfg record s).
Proof.
  pose proof (cleanupPriorReads_maps cfg record s) as Hmaps. cbv zeta in Hmaps.
  destruct Hmaps as (_ & Hmaps).
  apply Holding_sub; destruct record as [r |].
  - destruct Hmaps as (-> & _). intros e. apply om_split_rest_In.
  - destruct Hmaps as (-> & _). intros e [].
  - destruct Hmaps as (_ & -> & _). intros e. apply om_split_rest_In.
  - destruct Hmaps as (_ & -> & _). intros e [].
  - destruct Hmaps as (_ & _ & Hm). rewrite (Hm s). intros e. apply cleanupMates_In.
  - destruct Hmaps as (_ & _ & ->). intros e [].
Qed.

Lemma fragmentStep_Holding cfg record recordCount key recordPaired sumQual s :
  Holding cfg s ->
  Holding cfg (fragmentStep record recordCount key recordPaired sumQual s).
Proof.
  intros [H1 H2 H3].
  destruct (fragmentStep_frame record recordCount key recordPaired sumQual s)
    as (Hp & Hm & _). cbv zeta in Hp, Hm.
  constructor; rewrite ?Hp, ?Hm; try assumption.
  intros e He. apply fragmentStep_In in He as [He | ->]; [auto |].
  unfold readDataOf. cbn. destruct recordPaired; split; congruence.
Qed.

Lemma pairedStep_Holding cfg record recordCount key sumQual mateRecord mateIndex s s' :
  pairedStep cfg record recordCount key sumQual mateRecord mateIndex s = Ok s' ->
  Holding cfg s -> Holding cfg s'.
Proof.
  intros Hp [H1 H2 H3].
  destruct (pairedStep_Ok_lib _ _ _ _ _ _ _ _ _ Hp) as (lib & w & Hlib).
  destruct (pairedStep_spec cfg record recordCount key sumQual mateRecord
              mateIndex s lib w Hlib) as (s'' & Hs'' & Hf & Hm & _ & Hcase).
  rewrite Hp in Hs''. injection Hs'' as <-. cbv zeta in Hcase.
  constructor; rewrite ?Hf, ?Hm; try assumption.
  assert (Hput : forall e,
             In e (om_put PairedKey_ltb (mkPairedKey key (updateKey mateRecord lib))
                     (pairDataOf record recordCount sumQual mateRecord mateIndex)
                     (myPairedMap s)) ->
             is_Some (record1Ptr e.2) /\ is_Some (record2Ptr e.2)).
  { intros e He. apply om_put_In in He as [-> | He]; [| auto].
    unfold pairDataOf. cbn. eauto. }
  destruct (om_lookup PairedKey_ltb _ (myPairedMap s)) as [stored |].
  - destruct (keepStored stored sumQual mateIndex);
      destruct Hcase as (-> & _); auto.
  - destruct Hcase as (-> & _). auto.
Qed.

Lemma checkDups_Holding cfg record recordCount s s' :
  checkDups cfg record recordCount s = Ok s' ->
  Holding cfg s -> Holding cfg s'.
Proof.
  intros H Hs.
  destruct (checkDups_cases _ _ _ _ _ H) as (lib & w & Hlib & Hc). cbv zeta in Hc.
  set (s1 := fragmentStep record recordCount (updateKey record lib)
               (isRecordPaired cfg record) (getBaseQuality cfg record)
               (logLines w s)) in *.
  assert (H1 : Holding cfg s1).
  { apply fragmentStep_Holding. revert Hs. now apply Holding_maps. }
  destruct Hc as [[_ ->] | [_ [-> | [-> | (mateData & rest & mate & Hfind & _ & Hp)]]]].
  - exact H1.
  - destruct H1 as [Hf Hm Hpr]. constructor; cbn; try assumption.
    intros e He. apply mm_insert_In in He as [-> | He]; [| auto].
    cbn. split; [reflexivity |]. eauto.
  - revert H1.
    destruct (handleMissingMate_fields cfg (Some record) s1) as (Ef & Ep & Em & _).
    now apply Holding_maps.
  - apply (pairedStep_Holding _ _ _ _ _ _ _ _ _ Hp).
    destruct (findMate_Some _ _ _ _ _ Hfind) as (_ & _ & Hsub & _).
    revert H1. apply Holding_sub; cbn; auto.
Qed.

Lemma findMate_total readPos name m :
  (forall e, In e m -> is_Some (recordPtr e.2)) ->
  exists found, findMate readPos name m = Ok found.
Proof.
  induction m as [| [p d] m IH]; intros Hall; cbn [findMate]; [eauto |].
  destruct IH as [found Hfound]; [intros e He; apply Hall; now right |].
  assert (Hkeep : exists found', keepEntry (p, d) (findMate readPos name m) = Ok found').
  { rewrite Hfound. destruct found as [[d' rest] |]; cbn; eauto. }
  destruct (p <? readPos); [exact Hkeep |].
  destruct (readPos <? p); [eauto |].
  destruct (Hall (p, d)) as [mate Hmate]; [now left |]. cbn in Hmate.
  rewrite Hmate. destruct (String.eqb (getReadName mate) name); [eauto | exact Hkeep].
Qed.

(** With the mates that wait holding resolved records, [checkDups] can only
    fail where it resolves the library id of the record it was given. *)
Lemma checkDups_Fatal cfg record recordCount s e :
  Holding cfg s ->
  checkDups cfg record recordCount s = Fatal e ->
  getLibraryID cfg record checkTagsDefault = Fatal e.
Proof.
  intros Hs. unfold checkDups.
  destruct (getLibraryID cfg record checkTagsDefault) as [[lib w] | e'] eqn:Hlib;
    cbn [mbind Result_bind]; [| now intros [= <-]].
  cbv zeta. cbn [fst snd].
  destruct (isRecordPaired cfg record) eqn:Hp; cbn [negb]; [| discriminate].
  set (s1 := fragmentStep record recordCount (updateKey record lib) true
               (getBaseQuality cfg record) (logLines w s)).
  assert (H1 : Holding cfg s1).
  { apply fragmentStep_Holding. revert Hs. now apply Holding_maps. }
  set (readPos := SamHelper.combineChromPos (getReferenceID record)
                    (get0BasedPosition record)).
  set (matePos := SamHelper.combineChromPos (getMateReferenceID record)
                    (get0BasedMatePosition record)).
  assert (Hfound : exists found,
             (if matePos <=? readPos
              then findMate readPos (getReadName record) (myMateMap s1)
              else Ok None) = Ok found
             /\ forall mateData rest, found = Some (mateData, rest) ->
                  In (readPos, mateData) (myMateMap s1)).
  { destruct (matePos <=? readPos); [| exists None; split; [reflexivity | discriminate]].
    destruct (findMate_total readPos (getReadName record) (myMateMap s1))
      as [found Hfound].
    { intros e0 He0. destruct (hold_mate _ _ H1 e0 He0) as (_ & r & -> & _). eauto. }
    exists found. split; [exact Hfound |]. intros mateData rest ->.
    now destruct (findMate_Some _ _ _ _ _ Hfound) as (Hin & _). }
  destruct Hfound as (found & -> & Hin). cbn [mbind Result_bind].
  destruct found as [[mateData rest] |].
  - destruct (hold_mate _ _ H1 _ (Hin _ _ eq_refl)) as (_ & mate & Hmate & [lib' w'] & Hlib').
    cbn [snd] in Hmate. rewrite Hmate.
    destruct (pairedStep_spec cfg record recordCount (updateKey record lib)
                (getBaseQuality cfg record + sumBaseQual mateData) mate
                (recordIndex mateData) (setMateMap rest s1) lib' w' Hlib')
      as (s'' & -> & _).
    discriminate.
  - destruct (matePos >=? readPos); discriminate.
Qed.

Lemma scanValues_Fatal name vs rgID e :
  scanValues name vs rgID = Fatal e -> e = MultipleRGTag name.
Proof.
  revert rgID. induction vs as [| v vs IH]; intros rgID; cbn; [discriminate |].
  destruct (negb (isEmpty rgID)); [now intros [= <-] | apply IH].
Qed.

Lemma getLibraryID_Fatal cfg record e :
  getLibraryID cfg record checkTagsDefault = Fatal e ->
  1 < numLibraries cfg
  /\ (e = NoRGTag (getReadName record) \/ e = MultipleRGTag (getReadName record)).
Proof.
  unfold getLibraryID, checkTagsDefault. cbn [negb andb].
  destruct (Z.leb_spec (numLibraries cfg) 1); [discriminate |].
  rewrite scanRGTags_values.
  destruct (scanValues _ _ _) as [v |] eqn:Hscan; cbn [mbind Result_bind].
  - destruct (isEmpty v); [intros [= <-]; auto |].
    destruct (rgidLibMap cfg !! v); discriminate.
  - intros [= <-]. apply scanValues_Fatal in Hscan. auto.
Qed.

Lemma pass1_aborts cfg records :
  forall n s,
    Holding cfg s ->
    match pass1 cfg records n s with
    | Pass1Done s' =>
        Holding cfg s' /\ forall r, In r records -> offence cfg r = None
    | Pass1Abort e s' =>
        exists pre post,
          records = pre ++ post
          /\ (forall r', In r' pre -> offence cfg r' = None)
          /\ (e = PoolExhausted
              /\ poolExhausted cfg (n + Z.of_nat (length pre)) s' = true
              \/ exists r post', post = r :: post' /\ offence cfg r = Some e)
    end.
Proof.
  induction records as [| r records IH]; intros n s Hs; cbn [pass1].
  - destruct (poolExhausted cfg n s) eqn:Hpool.
    + exists [], []. split; [reflexivity |]. split; [intros r' [] |].
      left. cbn [length]. now rewrite Z.add_0_r.
    + split; [exact Hs | intros r []].
  - destruct (poolExhausted cfg n s) eqn:Hpool.
    { exists [], (r :: records). split; [reflexivity |]. split; [intros r' [] |].
      left. cbn [length]. now rewrite Z.add_0_r. }
    cbv zeta.
    destruct (SamFlag.isDuplicate (getFlag r) && negb (myForceFlag cfg)) eqn:Hdup.
    { exists [], (r :: records). split; [reflexivity |]. split; [intros r' [] |].
      right. exists r, records. split; [reflexivity |].
      unfold offence. now rewrite Hdup. }
    assert (Hs2 : Holding cfg
                    (let '(changed, s1) := hasPositionChanged r s in
                     if changed then cleanupPriorReads cfg (Some r) s1 else s1)).
    { unfold hasPositionChanged.
      destruct (negb (lastReference s =? getReferenceID r)
                || (lastCoordinate s <? get0BasedPosition r)); [| exact Hs].
      apply cleanupPriorReads_Holding. revert Hs. now apply Holding_maps. }
    destruct (hasPositionChanged r s) as [changed s1].
    set (s2 := if changed then cleanupPriorReads cfg (Some r) s1 else s1) in *.
    assert (Hnext : forall s3 : Dedup,
               Holding cfg s3 -> offence cfg r = None ->
               match pass1 cfg records (n + 1) s3 with
               | Pass1Done s' =>
                   Holding cfg s'
                   /\ forall r0, In r0 (r :: records) -> offence cfg r0 = None
               | Pass1Abort e s' =>
                   exists pre post,
                     r :: records = pre ++ post
                     /\ (forall r', In r' pre -> offence cfg r' = None)
                     /\ (e = PoolExhausted
                         /\ poolExhausted cfg (n + Z.of_nat (length pre)) s' = true
                         \/ exists r0 post', post = r0 :: post'
                                             /\ offence cfg r0 = Some e)
               end).
    { intros s3 Hs3 Hr. specialize (IH (n + 1) s3 Hs3).
      destruct (pass1 cfg records (n + 1) s3) as [s' | e s'].
      - destruct IH as [Hs' Hall]. split; [exact Hs' |].
        intros r0 [<- | Hin]; auto.
      - destruct IH as (pre & post & -> & Hpre & Hend).
        exists (r :: pre), post. split; [reflexivity |].
        split; [intros r' [<- | Hin]; auto |].
        destruct Hend as [[-> Hpool'] | Hoff]; [left | right; exact Hoff].
        split; [reflexivity |]. cbn [length].
        now replace (n + Z.of_nat (S (length pre)))
          with (n + 1 + Z.of_nat (length pre)) by lia. }
    destruct (negb (SamFlag.isMapped (getFlag r))) eqn:Hmapped.
    + apply Hnext.
      * revert Hs2.
        destruct (releaseRecord_fields (Some r) s2) as (? & ? & ? & _).
        now apply Holding_maps.
      * unfold offence. now rewrite Hdup, Hmapped.
    + destruct (checkDups cfg r (n + 1) s2) as [s3 | e] eqn:Hc.
      * apply Hnext; [exact (checkDups_Holding _ _ _ _ _ Hc Hs2) |].
        unfold offence. rewrite Hdup, Hmapped.
        destruct (checkDups_cases _ _ _ _ _ Hc) as (lib & w & -> & _). reflexivity.
      * exists [], (r :: records). split; [reflexivity |]. split; [intros r' [] |].
        right. exists r, records. split; [reflexivity |].
        unfold offence. rewrite Hdup, Hmapped.
        now rewrite (checkDups_Fatal _ _ _ _ _ Hs2 Hc).
Qed.

(** ** A completed pair meets a stored pair *)

Lemma MateSums_sub cfg s s' :
  (forall e, In e (myMateMap s') -> In e (myMateMap s)) ->
  MateSums cfg s -> MateSums cfg s'.
Proof. intros Hsub H e He. auto. Qed.

Lemma MateSums_maps cfg s s' :
  myMateMap s' = myMateMap s -> MateSums cfg s -> MateSums cfg s'.
Proof. intros Hm. apply MateSums_sub. now rewrite Hm. Qed.

Lemma initialDedup_MateSums cfg : MateSums cfg initialDedup.
Proof. intros e []. Qed.

Lemma cleanupPriorReads_MateSums cfg record s :
  MateSums cfg s -> MateSums cfg (cleanupPriorReads cfg record s).
Proof.
  pose proof (cleanupPriorReads_maps cfg record s) as Hmaps. cbv zeta in Hmaps.
  destruct Hmaps as (_ & Hmaps).
  apply MateSums_sub. destruct record as [r |].
  - destruct Hmaps as (_ & _ & Hm). rewrite (Hm s). intros e. apply cleanupMates_In.
  - destruct Hmaps as (_ & _ & ->). intros e [].
Qed.

Lemma checkDups_MateSums cfg record recordCount s s' :
  checkDups cfg record recordCount s = Ok s' ->
  MateSums cfg s -> MateSums cfg s'.
Proof.
  intros H Hs.
  destruct (checkDups_cases _ _ _ _ _ H) as (lib & w & Hlib & Hc). cbv zeta in Hc.
  set (s1 := fragmentStep record recordCount (updateKey record lib)
               (isRecordPaired cfg record) (getBaseQuality cfg record)
               (logLines w s)) in *.
  assert (H1 : MateSums cfg s1).
  { revert Hs. apply MateSums_maps.
    exact (proj1 (proj2 (fragmentStep_frame record recordCount _ _ _ (logLines w s)))). }
  destruct Hc as [[_ ->] | [_ [-> | [-> | (mateData & rest & mate & Hfind & _ & Hp)]]]].
  - exact H1.
  - intros e He. cbn in He. apply mm_insert_In in He as [-> | He]; [| auto].
    cbn. eauto.
  - revert H1.
    destruct (handleMissingMate_fields cfg (Some record) s1) as (_ & _ & Em & _).
    now apply MateSums_maps.
  - destruct (pairedStep_Ok_lib _ _ _ _ _ _ _ _ _ Hp) as (mlib & mw & Hmlib).
    destruct (pairedStep_spec cfg record recordCount (updateKey record lib)
                (getBaseQuality cfg record + sumBaseQual mateData) mate
                (recordIndex mateData) (setMateMap rest s1) mlib mw Hmlib)
      as (s'' & Hs'' & _ & Hm & _).
    rewrite Hp in Hs''. injection Hs'' as <-.
    destruct (findMate_Some _ _ _ _ _ Hfind) as (_ & _ & Hsub & _).
    revert H1. apply MateSums_sub. rewrite Hm. exact Hsub.
Qed.

(** In every state that pass 1 reaches, the mates that wait are recorded with
    the quality sums of their own records. *)
Lemma pass1_MateSums cfg records n s s' :
  MateSums cfg s -> pass1 cfg records n s = Pass1Done s' -> MateSums cfg s'.
Proof.
  revert n s. induction records as [| r records IH]; intros n s Hs; cbn [pass1].
  all: (destruct (poolExhausted cfg n s); [discriminate |]).
  - now intros [= <-].
  - destruct (SamFlag.isDuplicate (getFlag r) && negb (myForceFlag cfg));
      [discriminate |].
    assert (Hclean :
              MateSums cfg (let '(changed, s1) := hasPositionChanged r s in
                            if changed then cleanupPriorReads cfg (Some r) s1 else s1)).
    { unfold hasPositionChanged.
      destruct (negb (lastReference s =? getReferenceID r)
                || (lastCoordinate s <? get0BasedPosition r)); [| exact Hs].
      apply cleanupPriorReads_MateSums. revert Hs. now apply MateSums_maps. }
    destruct (hasPositionChanged r s) as [changed s1].
    destruct (negb (SamFlag.isMapped (getFlag r))).
    + apply IH. revert Hclean. apply MateSums_maps.
      now destruct (releaseRecord_fields (Some r)
                      (if changed then cleanupPriorReads cfg (Some r) s1 else s1))
        as (_ & _ & -> & _).
    + destruct (checkDups cfg r (n + 1) _) as [s3 |] eqn:Hc; [| discriminate].
      apply IH. eapply checkDups_MateSums; eassumption.
Qed.

(** The engine on which pass 1 calls [checkDups] for the record after [pre]:
    the maps hold their records, and the mates that wait are recorded with
    their own quality sums. *)
Lemma pass1_checkDups_state cfg pre r s1 :
  pass1 cfg pre 0 initialDedup = Pass1Done s1 ->
  let s2 := (let '(changed, s) := hasPositionChanged r s1 in
             if changed then cleanupPriorReads cfg (Some r) s else s) in
  Holding cfg s2 /\ MateSums cfg s2.
Proof.
  intros Hpass.
  pose proof (pass1_aborts cfg pre 0 initialDedup (initialDedup_Holding cfg)) as Hh.
  rewrite Hpass in Hh. destruct Hh as [Hh _].
  pose proof (pass1_MateSums _ _ _ _ _ (initialDedup_MateSums cfg) Hpass) as Hm.
  unfold hasPositionChanged.
  destruct (negb (lastReference s1 =? getReferenceID r)
            || (lastCoordinate s1 <? get0BasedPosition r)); [| now split].
  split.
  - apply cleanupPriorReads_Holding. revert Hh. now apply Holding_maps.
  - apply cleanupPriorReads_MateSums. revert Hm. now apply MateSums_maps.
Qed.

(** When the mate of a paired record waits in the mate map, [checkDups] takes
    it out, adds its quality sum to the record's, and goes on to the paired
    map. *)
Lemma checkDups_pair cfg record recordCount s lib w mateData rest mateRecord :
  getLibraryID cfg record checkTagsDefault = Ok (lib, w) ->
  isRecordPaired cfg record = true ->
  matePosOf record <= readPosOf record ->
  findMate (readPosOf record) (getReadName record) (myMateMap s)
    = Ok (Some (mateData, rest)) ->
  recordPtr mateData = Some mateRecord ->
  let key := updateKey record lib in
  let s1 := fragmentStep record recordCount key true (getBaseQuality cfg record)
              (logLines w s) in
  checkDups cfg record recordCount s =
    pairedStep cfg record recordCount key
      (getBaseQuality cfg record + sumBaseQual mateData) mateRecord
      (recordIndex mateData) (setMateMap rest s1).
Proof.
  intros Hlib Hp Hle Hfind Hptr key s1.
  assert (Hm : myMateMap s1 = myMateMap s)
    by exact (proj1 (proj2 (fragmentStep_frame record recordCount key true
                              (getBaseQuality cfg record) (logLines w s)))).
  unfold checkDups. rewrite Hlib. cbn [mbind Result_bind]. cbv zeta.
  cbn [fst snd]. rewrite Hp. cbn [negb]. fold key. fold s1.
  unfold readPosOf, matePosOf in Hle, Hfind.
  destruct (Z.leb_spec
              (SamHelper.combineChromPos (getMateReferenceID record)
                 (get0BasedMatePosition record))
              (SamHelper.combineChromPos (getReferenceID record)
                 (get0BasedPosition record))) as [_ | Hgt]; [| lia].
  rewrite Hm, Hfind. cbn [mbind Result_bind]. now rewrite Hptr.
Qed.

(** C2.  A paired record whose mate waits in the mate map completes a pair:
    [checkDups] takes the mate out of the mate map and looks the pair key up
    in the paired map, with the sum of the two mates' quality sums as the
    pair's combined sum.  When the key already has an entry, the pair with the
    higher combined sum is kept; on equal sums the pair whose first-read mate
    has the earlier record index is kept.  The two record indices of the
    losing pair are appended to the duplicate list and its two records
    released, and the map holds the winning pair's data.  The duplicate list
    and the released records are those after the fragment-map step of the same
    call.  [Holding] and [MateSums] hold of every engine that pass 1 calls
    [checkDups] on ([pass1_checkDups_state]). *)
Theorem pair_decision (cfg : Settings) (record : SamRecord) (recordCount : Z)
    (s : Dedup) (lib : Z) (w : list LogLine) (mateData : ReadData)
    (rest : list (Z * ReadData)) :
  Holding cfg s ->
  MateSums cfg s ->
  getLibraryID cfg record checkTagsDefault = Ok (lib, w) ->
  isRecordPaired cfg record = true ->
  matePosOf record <= readPosOf record ->
  findMate (readPosOf record) (getReadName record) (myMateMap s)
    = Ok (Some (mateData, rest)) ->
  let key := updateKey record lib in
  let s1 := fragmentStep record recordCount key true (getBaseQuality cfg record)
              (logLines w s) in
  let mateIndex := recordIndex mateData in
  exists mateRecord mlib mw s',
    recordPtr mateData = Some mateRecord
    /\ getReadName mateRecord = getReadName record
    /\ getLibraryID cfg mateRecord checkTagsDefault = Ok (mlib, mw)
    /\ checkDups cfg record recordCount s = Ok s'
    /\ myMateMap s' = rest
    /\ myFragmentMap s' = myFragmentMap s1
    /\ let sumQual := getBaseQuality cfg record + getBaseQuality cfg mateRecord in
       let pkey := mkPairedKey key (updateKey mateRecord mlib) in
       let thisPair :=
         mkPairedData sumQual (Some record) (Some mateRecord) recordCount
                      mateIndex in
       (om_lookup PairedKey_ltb pkey (myPairedMap s) = None ->
        myPairedMap s' = om_put PairedKey_ltb pkey thisPair (myPairedMap s)
        /\ myDupList s' = myDupList s1
        /\ released s' = released s1)
       /\ forall storedPair,
            om_lookup PairedKey_ltb pkey (myPairedMap s) = Some storedPair ->
            exists r1 r2,
              record1Ptr storedPair = Some r1
              /\ record2Ptr storedPair = Some r2
              /\ (sumQual > pSumBaseQual storedPair
                  \/ (sumQual = pSumBaseQual storedPair
                      /\ mateIndex < record2Index storedPair) ->
                  myPairedMap s'
                  = om_put PairedKey_ltb pkey thisPair (myPairedMap s)
                  /\ om_lookup PairedKey_ltb pkey (myPairedMap s') = Some thisPair
                  /\ myDupList s' =
                       myDupList s1
                       ++ [record1Index storedPair; record2Index storedPair]
                  /\ released s' = released s1 ++ [r1; r2])
              /\ (sumQual < pSumBaseQual storedPair
                  \/ (sumQual = pSumBaseQual storedPair
                      /\ record2Index storedPair <= mateIndex) ->
                  myPairedMap s' = myPairedMap s
                  /\ om_lookup PairedKey_ltb pkey (myPairedMap s') = Some storedPair
                  /\ myDupList s' = myDupList s1 ++ [mateIndex; recordCount]
                  /\ released s' = released s1 ++ [record; mateRecord]).
Proof.
  intros Hs Hsum Hlib Hp Hle Hfind key s1 mateIndex.
  destruct (findMate_Some _ _ _ _ _ Hfind) as (Hin & (mate & Hptr & Hname) & _).
  destruct (hold_mate _ _ Hs _ Hin) as (_ & r & Hr & [mlib mw] & Hmlib).
  cbn [snd] in Hr. rewrite Hptr in Hr. injection Hr as <-.
  destruct (Hsum _ Hin) as (r & Hr & Hq). cbn [snd] in Hr, Hq.
  rewrite Hptr in Hr. injection Hr as <-.
  pose proof (checkDups_pair cfg record recordCount s lib w mateData rest mate
                Hlib Hp Hle Hfind Hptr) as Hcd.
  cbv zeta in Hcd. fold key in Hcd. fold s1 in Hcd.
  destruct (pairedStep_spec cfg record recordCount key
              (getBaseQuality cfg record + sumBaseQual mateData) mate
              (recordIndex mateData) (setMateMap rest s1) mlib mw Hmlib)
    as (s' & Hs' & Hf & Hm & _ & Hcase).
  rewrite <- Hcd in Hs'. cbv zeta in Hcase. unfold pairDataOf in Hcase.
  rewrite Hq in Hcase. fold mateIndex in Hcase.
  change (myPairedMap (setMateMap rest s1)) with (myPairedMap s1) in Hcase.
  change (myDupList (setMateMap rest s1)) with (myDupList s1) in Hcase.
  change (released (setMateMap rest s1)) with (released s1) in Hcase.
  assert (Hpm : myPairedMap s1 = myPairedMap s)
    by exact (proj1 (fragmentStep_frame record recordCount key true
                       (getBaseQuality cfg record) (logLines w s))).
  rewrite Hpm in Hcase.
  exists mate, mlib, mw, s'.
  split; [exact Hptr |]. split; [exact Hname |]. split; [exact Hmlib |].
  split; [exact Hs' |]. split; [exact Hm |]. split; [exact Hf |].
  cbv zeta. split.
  - intros Hnone. rewrite Hnone in Hcase. exact Hcase.
  - intros storedPair Hstored. rewrite Hstored in Hcase.
    pose proof (om_lookup_In PairedKey_ltb PairedKey_ltb_total _ _ _ Hstored) as Hsin.
    destruct (hold_pair _ _ Hs _ Hsin) as [[r1 Hr1] [r2 Hr2]]. cbn [snd] in Hr1, Hr2.
    exists r1, r2. split; [exact Hr1 |]. split; [exact Hr2 |].
    rewrite Hr1, Hr2 in Hcase. cbn [option_list app] in Hcase.
    destruct (keepStored storedPair _ mateIndex) eqn:Hkeep.
    + assert (Hnot : ~ (pSumBaseQual storedPair
                        < getBaseQuality cfg record + getBaseQuality cfg mate
                        \/ (pSumBaseQual storedPair
                            = getBaseQuality cfg record + getBaseQuality cfg mate
                            /\ mateIndex < record2Index storedPair))).
      { intros Hc. apply keepStored_false in Hc. congruence. }
      destruct Hcase as (Hpmap & Hd & Hrel). split.
      * intros Hwin. exfalso. apply Hnot. lia.
      * intros _. rewrite Hpmap. auto.
    + apply keepStored_false in Hkeep.
      destruct Hcase as (Hpmap & Hd & Hrel). split.
      * intros _. rewrite Hpmap.
        rewrite (om_lookup_put_eq PairedKey_ltb PairedKey_ltb_irrefl). auto.
      * intros Hlose. exfalso. lia.
Qed.

Lemma pairBWaiting_Holding : Holding defaultOptions pairBWaiting.
Proof.
  constructor; intros e He; vm_compute in He.
  - repeat (destruct He as [<- | He]; [split; intros _; reflexivity |]).
    destruct He.
  - repeat (destruct He as [<- | He];
            [split; [reflexivity |];
             eexists; split; [reflexivity |]; eexists; reflexivity |]).
    destruct He.
  - repeat (destruct He as [<- | He]; [split; eexists; reflexivity |]).
    destruct He.
Defined.

Lemma pairBWaiting_MateSums : MateSums defaultOptions pairBWaiting.
Proof.
  intros e He. vm_compute in He.
  repeat (destruct He as [<- | He]; [eexists; split; reflexivity |]).
  destruct He.
Defined.

Lemma pair_decision_witness :
  Holding defaultOptions pairBWaiting
  /\ MateSums defaultOptions pairBWaiting
  /\ findMate (readPosOf (secondMate "B")) "B" (myMateMap pairBWaiting)
     = Ok (Some (mkReadData 20 (Some (firstMate "B")) 2 false, []))
  /\ exists s',
       checkDups defaultOptions (secondMate "B") 4 pairBWaiting = Ok s'
       /\ myMateMap s' = []
       /\ myPairedMap s' = myPairedMap pairBWaiting
       /\ myDupList s' = [2; 4]
       /\ released s' = [secondMate "B"; firstMate "B"].
Proof.
  split; [exact pairBWaiting_Holding |]. split; [exact pairBWaiting_MateSums |].
  split; [vm_compute; reflexivity |].
  destruct (pair_decision defaultOptions (secondMate "B") 4 pairBWaiting 0 []
              (mkReadData 20 (Some (firstMate "B")) 2 false) []
              pairBWaiting_Holding pairBWaiting_MateSums eq_refl eq_refl)
    as (mateRecord & mlib & mw & s' & Hptr & _ & Hlib & Hs' & Hmate & _ & _ & Hcase).
  - vm_compute. discriminate.
  - vm_compute. reflexivity.
  - cbn [recordPtr] in Hptr. injection Hptr as <-.
    assert (Hl : getLibraryID defaultOptions (firstMate "B") checkTagsDefault
                 = Ok (0, [])) by reflexivity.
    rewrite Hl in Hlib. injection Hlib as <- <-.
    destruct (Hcase (mkPairedData 40 (Some (secondMate "A")) (Some (firstMate "A")) 3 1))
      as (r1 & r2 & _ & _ & _ & Hlose); [vm_compute; reflexivity |].
    destruct Hlose as (Hpm & _ & Hd & Hrel); [right; vm_compute; split; [reflexivity | discriminate] |].
    exists s'. split; [exact Hs' |]. split; [exact Hmate |]. split; [exact Hpm |].
    split; [rewrite Hd | rewrite Hrel]; vm_compute; reflexivity.
Defined.

(** X13.  Where pass 1 stops.  The first loop of [execute] reads the whole
    input, or stops in one of two ways.  It stops for want of a record when
    the pool is exhausted: as many records are in use (read and not yet
    released) as the pool can hold; this cannot happen while the pool holds
    more records than the input has.  Or it stops by [Logger::error], and
    whether it does depends on each record alone, not on the reads seen
    before: at the first record that carries the duplicate flag without force
    mode, or that is mapped and has no usable RG tag while the header defines
    more than one library.  The error is then "already duplicate-marked", "no
    RG tag" or "multiple RG tags", never another one: the mate lookup never
    meets an entry without a record, and resolving the library of a stored
    mate never fails. *)
Theorem pass1_abort_is_local (cfg : Settings) (records : list SamRecord) :
  match pass1 cfg records 0 initialDedup with
  | Pass1Done _ => forall r, In r records -> offence cfg r = None
  | Pass1Abort e s =>
      exists pre post,
        records = pre ++ post
        /\ (forall r', In r' pre -> offence cfg r' = None)
        /\ (e = PoolExhausted
            /\ poolCapacity cfg
               <= Z.of_nat (length pre) - Z.of_nat (length (released s))
            /\ poolCapacity cfg <= Z.of_nat (length records)
            \/ exists r post',
                 post = r :: post'
                 /\ offence cfg r = Some e
                 /\ (e = AlreadyDuplicateMarked
                     /\ SamFlag.isDuplicate (getFlag r) = true
                     /\ myForceFlag cfg = false
                     \/ 1 < numLibraries cfg
                        /\ SamFlag.isMapped (getFlag r) = true
                        /\ (e = NoRGTag (getReadName r)
                            \/ e = MultipleRGTag (getReadName r))))
  end.
Proof.
  pose proof (pass1_aborts cfg records 0 initialDedup (initialDedup_Holding cfg)) as H.
  destruct (pass1 cfg records 0 initialDedup) as [s' | e s'].
  - now destruct H.
  - destruct H as (pre & post & Hrec & Hpre & Hend).
    exists pre, post. split; [exact Hrec |]. split; [exact Hpre |].
    destruct Hend as [[-> Hpool] | (r & post' & -> & Hr)].
    + left. split; [reflexivity |].
      unfold poolExhausted in Hpool. apply Z.leb_le in Hpool.
      assert (Hlen : (length pre <= length records)%nat)
        by (rewrite Hrec, length_app; lia).
      lia.
    + right. exists r, post'. split; [reflexivity |]. split; [exact Hr |].
      unfold offence in Hr.
      destruct (SamFlag.isDuplicate (getFlag r) && negb (myForceFlag cfg)) eqn:Hdup.
      * injection Hr as <-. left. apply andb_true_iff in Hdup as [Hd Hf].
        apply negb_true_iff in Hf. auto.
      * destruct (negb (SamFlag.isMapped (getFlag r))) eqn:Hmapped; [discriminate |].
        apply negb_false_iff in Hmapped.
        destruct (getLibraryID cfg r checkTagsDefault) as [lw | e'] eqn:Hlib;
          [discriminate |].
        injection Hr as <-. right.
        destruct (getLibraryID_Fatal _ _ _ Hlib) as [Hn He]. auto.
Qed.

(** X14.  What the maps hold after any number of records of pass 1: a
    fragment-map entry holds a record exactly when it stands for an unpaired
    read, every waiting mate holds its record (and is not marked paired), and
    every stored pair holds both of its records. *)
Theorem maps_hold_their_records (cfg : Settings) (records : list SamRecord)
    (s : Dedup) :
  pass1 cfg records 0 initialDedup = Pass1Done s ->
  (forall e, In e (myFragmentMap s) ->
     (paired e.2 = true <-> recordPtr e.2 = None))
  /\ (forall e, In e (myMateMap s) ->
        paired e.2 = false /\ is_Some (recordPtr e.2))
  /\ (forall e, In e (myPairedMap s) ->
        is_Some (record1Ptr e.2) /\ is_Some (record2Ptr e.2)).
Proof.
  intros Hrun.
  pose proof (pass1_aborts cfg records 0 initialDedup (initialDedup_Holding cfg)) as H.
  rewrite Hrun in H. destruct H as [[Hf Hm Hp] _].
  split; [exact Hf |]. split; [| exact Hp].
  intros e He. destruct (Hm e He) as (Hpaired & r & -> & _). eauto.
Qed.

Lemma maps_hold_their_records_witness :
  exists s,
    pass1 defaultOptions [firstMate "A"] 0 initialDedup = Pass1Done s
    /\ forall e, In e (myMateMap s) ->
         paired e.2 = false /\ is_Some (recordPtr e.2).
Proof.
  eexists. split; [vm_compute; reflexivity |].
  refine (proj1 (proj2 (maps_hold_their_records defaultOptions [firstMate "A"] _ _))).
  vm_compute. reflexivity.
Defined.

(** ** What is handed to non-duplicate handling *)

Lemma recabOf_app cfg l1 l2 :
  recabOf cfg (l1 ++ l2) = recabOf cfg l1 ++ recabOf cfg l2.
Proof. unfold recabOf. destruct (myDoRecab cfg); [apply map_app | reflexivity]. Qed.

Lemma recabOf_nil cfg : recabOf cfg [] = [].
Proof. unfold recabOf. now destruct (myDoRecab cfg). Qed.

Lemma releaseRecord_recab p s : recabBuilt (releaseRecord p s) = recabBuilt s.
Proof. now destruct p. Qed.

Lemma handleNonDuplicate_recab cfg p s :
  recabBuilt (handleNonDuplicate cfg p s) = recabBuilt s ++ recabOf cfg (option_list p).
Proof.
  unfold handleNonDuplicate, recabOf, recabInput.
  destruct p as [r |]; cbn [option_list map].
  - destruct (myDoRecab cfg); cbn; [reflexivity | now rewrite app_nil_r].
  - destruct (myDoRecab cfg); now rewrite app_nil_r.
Qed.

Lemma handleMissingMate_recab cfg p s :
  recabBuilt (handleMissingMate cfg p s) = recabBuilt s ++ recabOf cfg (option_list p).
Proof.
  unfold handleMissingMate. destruct p as [r |].
  - cbv zeta. rewrite handleNonDuplicate_recab.
    destruct (negb (getMateReferenceID r =? getReferenceID r));
      [destruct (firstDifferChrom s) | destruct (firstSameChrom s)]; reflexivity.
  - now rewrite recabOf_nil, app_nil_r.
Qed.

Lemma fragmentStep_recab record n key recordPaired sumQual s :
  recabBuilt (fragmentStep record n key recordPaired sumQual s) = recabBuilt s.
Proof.
  unfold fragmentStep. rewrite om_insert_spec.
  destruct (om_lookup DupKey_ltb key (myFragmentMap s)) as [d |]; simpl.
  - destruct (negb (paired d) && (recordPaired || (sumQual >? sumBaseQual d)));
      [destruct (recordPtr d) | destruct recordPaired]; reflexivity.
  - reflexivity.
Qed.

Lemma pairedStep_recab cfg record n key sumQual mateRecord mateIndex s s' :
  pairedStep cfg record n key sumQual mateRecord mateIndex s = Ok s' ->
  recabBuilt s' = recabBuilt s.
Proof.
  unfold pairedStep.
  destruct (getLibraryID cfg mateRecord checkTagsDefault) as [[lib w] |];
    [| discriminate].
  cbn [mbind Result_bind]. cbv zeta. rewrite om_insert_spec.
  destruct (om_lookup PairedKey_ltb _ _) as [stored |]; cbn [negb fst snd].
  - destruct (keepStored stored sumQual mateIndex); intros [= <-];
      [reflexivity |].
    destruct (record1Ptr stored), (record2Ptr stored); reflexivity.
  - intros [= <-]. reflexivity.
Qed.

(** A loop whose body hands the records [h a] to non-duplicate handling and
    leaves the maps, the duplicate list and the missing-mate counter alone. *)
Lemma fold_left_handling {A} cfg (g : Dedup -> A -> Dedup)
    (h : A -> list SamRecord) (l : list A) (s : Dedup) :
  (forall s a, sameTracking s (g s a)
               /\ recabBuilt (g s a) = recabBuilt s ++ recabOf cfg (h a)
               /\ myNumMissingMate (g s a) = myNumMissingMate s) ->
  sameTracking s (fold_left g l s)
  /\ recabBuilt (fold_left g l s) = recabBuilt s ++ recabOf cfg (flat_map h l)
  /\ myNumMissingMate (fold_left g l s) = myNumMissingMate s.
Proof.
  intros Hg. revert s. induction l as [| a l IH]; simpl; intros s.
  - split; [apply sameTracking_refl | now rewrite recabOf_nil, app_nil_r].
  - destruct (Hg s a) as (Hs & Hr & Hn). destruct (IH (g s a)) as (Hs' & Hr' & Hn').
    split; [eapply sameTracking_trans; eassumption |].
    split; [now rewrite Hr', Hr, recabOf_app, app_assoc | congruence].
Qed.

Lemma cleanupMates_handling cfg bounded stop m s :
  exists handled,
    m = handled ++ (cleanupMates cfg bounded stop m s).1
    /\ sameTracking s (cleanupMates cfg bounded stop m s).2
    /\ recabBuilt (cleanupMates cfg bounded stop m s).2
       = recabBuilt s ++ recabOf cfg (flat_map (fun e => recM e.2) handled)
    /\ myNumMissingMate (cleanupMates cfg bounded stop m s).2
       = myNumMissingMate s
         + Z.of_nat (length (flat_map (fun e => recM e.2) handled)).
Proof.
  revert s. induction m as [| e m IH]; simpl; intros s.
  - exists []. simpl. rewrite recabOf_nil, app_nil_r. repeat split; lia.
  - destruct (bounded && (e.1 >=? stop)); simpl.
    + exists []. simpl. rewrite recabOf_nil, app_nil_r. repeat split; lia.
    + destruct (IH (handleMissingMate cfg (recordPtr e.2) s))
        as (h & Hh & Hs & Hr & Hn).
      exists (e :: h). split; [simpl; now rewrite <- Hh |].
      split; [eapply sameTracking_trans; [apply handleMissingMate_same | exact Hs] |].
      destruct (handleMissingMate_fields cfg (recordPtr e.2) s) as (_ & _ & _ & _ & Hn0).
      split.
      * rewrite Hr, handleMissingMate_recab.
        simpl. unfold recM at 2. now rewrite recabOf_app, app_assoc.
      * rewrite Hn, Hn0. simpl. unfold recM at 2. rewrite length_app.
        destruct (recordPtr e.2); simpl; lia.
Qed.

(** What a cleanup hands on: a front part of each map; its records go to
    non-duplicate handling, and the mates among them are counted as
    missing. *)
Lemma cleanupPriorReads_handled cfg record s :
  let s' := cleanupPriorReads cfg record s in
  exists fragDone pairDone mateDone,
    myFragmentMap s = fragDone ++ myFragmentMap s'
    /\ myPairedMap s = pairDone ++ myPairedMap s'
    /\ myMateMap s = mateDone ++ myMateMap s'
    /\ recabBuilt s'
       = recabBuilt s
         ++ recabOf cfg (flat_map (fun e => recF e.2) fragDone
                         ++ flat_map (fun e => recP e.2) pairDone
                         ++ flat_map (fun e => recM e.2) mateDone)
    /\ myNumMissingMate s'
       = myNumMissingMate s
         + Z.of_nat (length (flat_map (fun e => recM e.2) mateDone)).
Proof.
  unfold cleanupPriorReads.
  set (fragF := fun (s : Dedup) (e : DupKey * ReadData) =>
         if negb (paired e.2) then handleNonDuplicate cfg (recordPtr e.2) s else s).
  set (pairF := fun (s : Dedup) (e : PairedKey * PairedData) =>
         handleNonDuplicate cfg (record2Ptr e.2)
           (handleNonDuplicate cfg (record1Ptr e.2) s)).
  assert (HfragF : forall s a,
             sameTracking s (fragF s a)
             /\ recabBuilt (fragF s a) = recabBuilt s ++ recabOf cfg (recF a.2)
             /\ myNumMissingMate (fragF s a) = myNumMissingMate s).
  { intros s0 a. unfold fragF, recF. destruct (paired a.2); simpl.
    - split; [apply sameTracking_refl | now rewrite recabOf_nil, app_nil_r].
    - split; [apply handleNonDuplicate_same |].
      split; [now apply handleNonDuplicate_recab |].
      apply handleNonDuplicate_fields. }
  assert (HpairF : forall s a,
             sameTracking s (pairF s a)
             /\ recabBuilt (pairF s a) = recabBuilt s ++ recabOf cfg (recP a.2)
             /\ myNumMissingMate (pairF s a) = myNumMissingMate s).
  { intros s0 a. unfold pairF, recP.
    split; [eapply sameTracking_trans; apply handleNonDuplicate_same |].
    split.
    - rewrite !handleNonDuplicate_recab. now rewrite recabOf_app, app_assoc.
    - destruct (handleNonDuplicate_fields cfg (record2Ptr a.2)
                  (handleNonDuplicate cfg (record1Ptr a.2) s0)) as (_ & _ & _ & _ & ->).
      apply handleNonDuplicate_fields. }
  assert (Hgen : forall fragDone fragKept pairDone pairKept bounded stop,
             myFragmentMap s = fragDone ++ fragKept ->
             myPairedMap s = pairDone ++ pairKept ->
             let s' :=
               let s1 := setFragmentMap fragKept (fold_left fragF fragDone s) in
               let s2 := setPairedMap pairKept (fold_left pairF pairDone s1) in
               let '(mateKept, s3) := cleanupMates cfg bounded stop (myMateMap s2) s2 in
               setMateMap mateKept s3 in
             exists mateDone,
               myFragmentMap s' = fragKept /\ myPairedMap s' = pairKept
               /\ myMateMap s = mateDone ++ myMateMap s'
               /\ recabBuilt s'
                  = recabBuilt s
                    ++ recabOf cfg (flat_map (fun e => recF e.2) fragDone
                                    ++ flat_map (fun e => recP e.2) pairDone
                                    ++ flat_map (fun e => recM e.2) mateDone)
               /\ myNumMissingMate s'
                  = myNumMissingMate s
                    + Z.of_nat (length (flat_map (fun e => recM e.2) mateDone))).
  { intros fragDone fragKept pairDone pairKept bounded stop Ef Ep. cbv zeta.
    destruct (fold_left_handling cfg fragF (fun e => recF e.2) fragDone s HfragF)
      as ((_ & Hp1 & Hm1 & _) & Hr1 & Hn1).
    destruct (fold_left_handling cfg pairF (fun e => recP e.2) pairDone
                (setFragmentMap fragKept (fold_left fragF fragDone s)) HpairF)
      as ((Hf2 & _ & Hm2 & _) & Hr2 & Hn2).
    cbn [myFragmentMap myPairedMap myMateMap recabBuilt myNumMissingMate
         setFragmentMap] in Hf2, Hm2, Hr2, Hn2.
    match goal with
    | |- context [cleanupMates ?c ?b ?st ?m ?s0] =>
        destruct (cleanupMates_handling c b st m s0)
          as (mateDone & Hsplit & (Hf3 & Hp3 & _ & _) & Hr3 & Hn3);
        destruct (cleanupMates c b st m s0) as [mateKept s3]
    end.
    cbn [fst snd myFragmentMap myPairedMap myMateMap recabBuilt myNumMissingMate
         setFragmentMap setPairedMap setMateMap] in *.
    exists mateDone.
    split; [now rewrite Hf3, Hf2 |]. split; [exact Hp3 |].
    split; [now rewrite <- Hsplit, Hm2, Hm1 |].
    split; [now rewrite Hr3, Hr2, Hr1, !recabOf_app, <- !app_assoc |].
    now rewrite Hn3, Hn2, Hn1. }
  destruct record as [r |]; cbv zeta.
  - pose proof (om_split_app DupKey_ltb
                  (cleanupKey (getReferenceID r) (get0BasedPosition r))
                  (myFragmentMap s)) as Ef.
    pose proof (om_split_app PairedKey_ltb
                  (mkPairedKey emptyKey
                     (cleanupKey (getReferenceID r) (get0BasedPosition r)))
                  (myPairedMap s)) as Ep.
    destruct (om_split DupKey_ltb _ (myFragmentMap s)) as [fragDone fragKept].
    destruct (om_split PairedKey_ltb _ (myPairedMap s)) as [pairDone pairKept].
    cbn [fst snd] in Ef, Ep.
    destruct (Hgen fragDone fragKept pairDone pairKept true
                (SamHelper.combineChromPos (getReferenceID r) (get0BasedPosition r))
                (eq_sym Ef) (eq_sym Ep)) as (mateDone & Hf & Hp & Hrest).
    cbv zeta in Hf, Hp, Hrest.
    exists fragDone, pairDone, mateDone. rewrite Hf, Hp.
    split; [now rewrite Ef |]. split; [now rewrite Ep |]. exact Hrest.
  - destruct (Hgen (myFragmentMap s) [] (myPairedMap s) [] false 0
                (eq_sym (app_nil_r _)) (eq_sym (app_nil_r _)))
      as (mateDone & Hf & Hp & Hrest).
    cbv zeta in Hf, Hp, Hrest.
    exists (myFragmentMap s), (myPairedMap s), mateDone. rewrite Hf, Hp.
    rewrite !app_nil_r. split; [reflexivity |]. split; [reflexivity |]. exact Hrest.
Qed.

(** ** The fate of every mapped record *)

Local Abbreviation cnt l x := (count_occ IRec_eq_dec l x).
Local Abbreviation held x s := (count_occ IRec_eq_dec (heldReads s) x).

Lemma held_parts x s :
  held x s
  = (sumw (fun d => cnt (heldF d) x) (myFragmentMap s)
     + sumw (fun d => cnt (heldM d) x) (myMateMap s)
     + sumw (fun d => cnt (heldP d) x) (myPairedMap s))%nat.
Proof.
  unfold heldReads, sumw.
  rewrite !count_occ_app, !count_occ_flat_map. lia.
Qed.

Lemma map_snd_flat_map {A} (f : A -> list (Z * SamRecord)) (l : list A) :
  map snd (flat_map f l) = flat_map (fun a => map snd (f a)) l.
Proof.
  induction l as [| a l IH]; simpl; [reflexivity |].
  now rewrite map_app, IH.
Qed.

Lemma map_snd_entry i p : map snd (entry i p) = option_list p.
Proof. now destruct p. Qed.

Lemma map_snd_held (fragDone : list (DupKey * ReadData))
    (pairDone : list (PairedKey * PairedData)) (mateDone : list (Z * ReadData)) :
  map snd (flat_map (fun e => heldF e.2) fragDone
           ++ flat_map (fun e => heldP e.2) pairDone
           ++ flat_map (fun e => heldM e.2) mateDone)
  = flat_map (fun e => recF e.2) fragDone
    ++ flat_map (fun e => recP e.2) pairDone
    ++ flat_map (fun e => recM e.2) mateDone.
Proof.
  rewrite !map_app, !map_snd_flat_map. f_equal; [| f_equal].
  - apply List.flat_map_ext. intros e. unfold heldF, recF.
    destruct (paired e.2); [reflexivity | apply map_snd_entry].
  - apply List.flat_map_ext. intros e. unfold heldP, recP.
    now rewrite map_app, !map_snd_entry.
  - apply List.flat_map_ext. intros e. apply map_snd_entry.
Qed.

Lemma Holding_unpaired cfg s :
  Holding cfg s ->
  forall e, In e (myFragmentMap s) -> paired e.2 = false -> is_Some (recordPtr e.2).
Proof.
  intros Hs e He Hp. destruct (recordPtr e.2) as [r |] eqn:Hr; [eauto |].
  apply (hold_fragment _ _ Hs e He) in Hr. congruence.
Qed.

(** The fragment-map step decides the fate of at most one read: the one that
    loses the entry goes to the duplicate list. *)
Lemma fate_fragmentStep record n key recordPaired sumQual s :
  (forall e, In e (myFragmentMap s) -> paired e.2 = false -> is_Some (recordPtr e.2)) ->
  exists D,
    myDupList (fragmentStep record n key recordPaired sumQual s)
    = myDupList s ++ map fst D
    /\ forall x,
         (held x (fragmentStep record n key recordPaired sumQual s) + cnt D x
          = held x s + if recordPaired then 0 else cnt [(n, record)] x)%nat.
Proof.
  intros Hhold.
  pose proof (fragmentStep_frame record n key recordPaired sumQual s)
    as (Hp & Hm & _).
  pose proof (fragmentStep_spec record n key recordPaired sumQual s) as H.
  cbv beta zeta in *.
  assert (Hput : forall x,
             (match om_lookup DupKey_ltb key (myFragmentMap s) with
              | Some d => cnt (heldF d) x
              | None => 0
              end
              + sumw (fun d => cnt (heldF d) x)
                  (om_put DupKey_ltb key (readDataOf record n recordPaired sumQual)
                     (myFragmentMap s))
              = (if recordPaired then 0 else cnt [(n, record)] x)
                + sumw (fun d => cnt (heldF d) x) (myFragmentMap s))%nat).
  { intros x.
    rewrite (sumw_om_put DupKey_ltb (fun d => cnt (heldF d) x) key
               (readDataOf record n recordPaired sumQual) (myFragmentMap s)).
    unfold heldF at 1, readDataOf. cbn [paired recordIndex recordPtr].
    now destruct recordPaired. }
  destruct (om_lookup DupKey_ltb key (myFragmentMap s)) as [d |] eqn:Hold;
    unfold takesEntry in H.
  - destruct (negb (paired d) && (recordPaired || (sumQual >? sumBaseQual d)))
      eqn:Hcond.
    + apply andb_prop in Hcond as [Hunp _]. apply negb_true_iff in Hunp.
      pose proof (om_lookup_In DupKey_ltb DupKey_ltb_total _ _ _ Hold) as Hin.
      destruct (Hhold _ Hin Hunp) as [r Hr]. cbn [snd] in Hr.
      destruct H as (Hmap & _ & Hd & _).
      exists [(recordIndex d, r)]. split; [now rewrite Hd |].
      intros x. specialize (Hput x).
      assert (Hd' : heldF d = [(recordIndex d, r)])
        by (unfold heldF; now rewrite Hunp, Hr).
      rewrite Hd' in Hput. rewrite !held_parts, Hp, Hm, Hmap. lia.
    + destruct H as (Hmap & Hd & _).
      exists (if recordPaired then [] else [(n, record)]).
      split; [rewrite Hd; now destruct recordPaired |].
      intros x. rewrite !held_parts, Hp, Hm, Hmap.
      destruct recordPaired; simpl; lia.
  - destruct H as (Hmap & _ & Hd & _).
    exists []. split; [now rewrite Hd |].
    intros x. specialize (Hput x). rewrite !held_parts, Hp, Hm, Hmap.
    change (cnt [] x) with 0%nat. lia.
Qed.

(** The paired-map step decides the fate of the pair that loses the entry:
    both of its reads go to the duplicate list. *)
Lemma fate_pairedStep cfg record n key sumQual mateRecord mateIndex s s' :
  pairedStep cfg record n key sumQual mateRecord mateIndex s = Ok s' ->
  (forall e, In e (myPairedMap s) ->
     is_Some (record1Ptr e.2) /\ is_Some (record2Ptr e.2)) ->
  exists D,
    myDupList s' = myDupList s ++ map fst D
    /\ forall x,
         (held x s' + cnt D x
          = held x s + cnt [(mateIndex, mateRecord)] x + cnt [(n, record)] x)%nat.
Proof.
  intros Hstep Hhold.
  destruct (pairedStep_Ok_lib _ _ _ _ _ _ _ _ _ Hstep) as (lib & w & Hlib).
  destruct (pairedStep_spec cfg record n key sumQual mateRecord mateIndex s lib w
              Hlib) as (s'' & Hs'' & Hf & Hm & _ & Hcase).
  rewrite Hstep in Hs''. injection Hs'' as <-. cbv zeta in Hcase.
  assert (Hput : forall x,
             (match om_lookup PairedKey_ltb
                      (mkPairedKey key (updateKey mateRecord lib)) (myPairedMap s) with
              | Some d => cnt (heldP d) x
              | None => 0
              end
              + sumw (fun d => cnt (heldP d) x)
                  (om_put PairedKey_ltb (mkPairedKey key (updateKey mateRecord lib))
                     (pairDataOf record n sumQual mateRecord mateIndex)
                     (myPairedMap s))
              = cnt [(n, record)] x + cnt [(mateIndex, mateRecord)] x
                + sumw (fun d => cnt (heldP d) x) (myPairedMap s))%nat).
  { intros x.
    rewrite (sumw_om_put PairedKey_ltb (fun d => cnt (heldP d) x)
               (mkPairedKey key (updateKey mateRecord lib))
               (pairDataOf record n sumQual mateRecord mateIndex) (myPairedMap s)).
    unfold heldP at 1, pairDataOf.
    cbn [record1Index record2Index record1Ptr record2Ptr entry].
    now rewrite count_occ_app. }
  destruct (om_lookup PairedKey_ltb _ (myPairedMap s)) as [stored |] eqn:Hold.
  - destruct (keepStored stored sumQual mateIndex).
    + destruct Hcase as (Hmap & Hd & _).
      exists [(mateIndex, mateRecord); (n, record)]. split; [now rewrite Hd |].
      intros x. rewrite !held_parts, Hf, Hm, Hmap.
      change [(mateIndex, mateRecord); (n, record)]
        with ([(mateIndex, mateRecord)] ++ [(n, record)]).
      rewrite count_occ_app. lia.
    + destruct Hcase as (Hmap & Hd & _).
      pose proof (om_lookup_In PairedKey_ltb PairedKey_ltb_total _ _ _ Hold) as Hin.
      destruct (Hhold _ Hin) as [[r1 Hr1] [r2 Hr2]]. cbn [snd] in Hr1, Hr2.
      exists [(record1Index stored, r1); (record2Index stored, r2)].
      split; [now rewrite Hd |].
      intros x. specialize (Hput x).
      assert (Hd' : heldP stored
                    = [(record1Index stored, r1)] ++ [(record2Index stored, r2)])
        by (unfold heldP; now rewrite Hr1, Hr2).
      rewrite Hd' in Hput. rewrite !held_parts, Hf, Hm, Hmap.
      change [(record1Index stored, r1); (record2Index stored, r2)]
        with ([(record1Index stored, r1)] ++ [(record2Index stored, r2)]).
      lia.
  - destruct Hcase as (Hmap & Hd & _).
    exists []. split; [now rewrite Hd, app_nil_r |].
    intros x. specialize (Hput x). rewrite !held_parts, Hf, Hm, Hmap.
    change (cnt [] x) with 0%nat. lia.
Qed.

(** [checkDups] takes the record in and decides the fate of some reads: the
    reads [D] go to the duplicate list, the reads [N] to non-duplicate
    handling, the others stay in the maps. *)
Lemma fate_checkDups cfg record n s s' :
  Holding cfg s ->
  checkDups cfg record n s = Ok s' ->
  exists D N,
    myDupList s' = myDupList s ++ map fst D
    /\ recabBuilt s' = recabBuilt s ++ recabOf cfg (map snd N)
    /\ forall x,
         (held x s' + cnt D x + cnt N x = held x s + cnt [(n, record)] x)%nat.
Proof.
  intros Hs H.
  destruct (checkDups_cases _ _ _ _ _ H) as (lib & w & _ & Hc). cbv zeta in Hc.
  set (s1 := fragmentStep record n (updateKey record lib)
               (isRecordPaired cfg record) (getBaseQuality cfg record)
               (logLines w s)) in *.
  assert (Hs0 : Holding cfg (logLines w s)) by (revert Hs; now apply Holding_maps).
  assert (H1 : Holding cfg s1) by now apply fragmentStep_Holding.
  destruct (fate_fragmentStep record n (updateKey record lib)
              (isRecordPaired cfg record) (getBaseQuality cfg record)
              (logLines w s) (Holding_unpaired _ _ Hs0)) as (D1 & Hd1 & Hc1).
  fold s1 in Hd1, Hc1.
  change (myDupList (logLines w s)) with (myDupList s) in Hd1.
  assert (Hheld0 : forall x, held x (logLines w s) = held x s) by reflexivity.
  assert (Hr1 : recabBuilt s1 = recabBuilt s)
    by exact (fragmentStep_recab _ _ _ _ _ (logLines w s)).
  destruct Hc as [[Hp ->] | [Hp [-> | [-> | (mateData & rest & mate & Hfind & Hptr & Hstep)]]]];
    rewrite Hp in Hc1.
  - exists D1, []. split; [exact Hd1 |].
    split; [now rewrite recabOf_nil, app_nil_r |].
    intros x. specialize (Hc1 x). rewrite Hheld0 in Hc1.
    change (cnt [] x) with 0%nat. lia.
  - exists D1, []. split; [exact Hd1 |].
    split; [cbn [recabBuilt setMateMap map]; now rewrite recabOf_nil, app_nil_r |].
    intros x. specialize (Hc1 x). rewrite Hheld0 in Hc1.
    rewrite held_parts in *.
    cbn [myFragmentMap myMateMap myPairedMap setMateMap].
    rewrite sumw_mm_insert. unfold heldM at 1. cbn [recordPtr recordIndex entry].
    change (cnt [] x) with 0%nat. lia.
  - exists D1, [(n, record)].
    destruct (handleMissingMate_fields cfg (Some record) s1) as (Ef & Ep & Em & Ed & _).
    split; [now rewrite Ed |].
    split; [now rewrite handleMissingMate_recab, Hr1 |].
    intros x. specialize (Hc1 x). rewrite Hheld0 in Hc1.
    rewrite held_parts in *. rewrite Ef, Ep, Em. lia.
  - destruct (fate_pairedStep _ _ _ _ _ _ _ _ _ Hstep) as (D2 & Hd2 & Hc2).
    { cbn [myPairedMap setMateMap]. apply (hold_pair _ _ H1). }
    exists (D1 ++ D2), [].
    split; [rewrite Hd2; cbn [myDupList setMateMap];
            now rewrite Hd1, map_app, app_assoc |].
    split; [rewrite (pairedStep_recab _ _ _ _ _ _ _ _ _ Hstep);
            cbn [recabBuilt setMateMap map];
            now rewrite recabOf_nil, app_nil_r |].
    intros x. specialize (Hc1 x). specialize (Hc2 x). rewrite Hheld0 in Hc1.
    pose proof (sumw_findMate (fun d => cnt (heldM d) x) _ _ _ _ _ Hfind) as Hrest.
    cbv beta in Hrest.
    assert (Hmate : heldM mateData = [(recordIndex mateData, mate)])
      by (unfold heldM; now rewrite Hptr).
    rewrite Hmate in Hrest.
    rewrite count_occ_app.
    rewrite (held_parts x (setMateMap rest s1)) in Hc2.
    rewrite (held_parts x s1) in Hc1.
    cbn [myFragmentMap myMateMap myPairedMap setMateMap] in Hc2.
    change (cnt [] x) with 0%nat. lia.
Qed.

(** A cleanup decides the fate of the reads it takes out of the maps: all of
    them go to non-duplicate handling. *)
Lemma fate_cleanup cfg record s :
  exists N,
    myDupList (cleanupPriorReads cfg record s) = myDupList s
    /\ recabBuilt (cleanupPriorReads cfg record s)
       = recabBuilt s ++ recabOf cfg (map snd N)
    /\ forall x, (held x (cleanupPriorReads cfg record s) + cnt N x = held x s)%nat.
Proof.
  destruct (cleanupPriorReads_handled cfg record s)
    as (fragDone & pairDone & mateDone & Ef & Ep & Em & Er & _).
  exists (flat_map (fun e => heldF e.2) fragDone
          ++ flat_map (fun e => heldP e.2) pairDone
          ++ flat_map (fun e => heldM e.2) mateDone).
  split; [apply cleanupPriorReads_maps |].
  split; [now rewrite map_snd_held |].
  intros x. rewrite !held_parts, Ef, Ep, Em, !sumw_app, !count_occ_app,
    !count_occ_flat_map.
  unfold sumw. lia.
Qed.

Lemma fate_pass1 cfg records :
  forall n s s',
    Holding cfg s ->
    pass1 cfg records n s = Pass1Done s' ->
    exists D N,
      myDupList s' = myDupList s ++ map fst D
      /\ recabBuilt s' = recabBuilt s ++ recabOf cfg (map snd N)
      /\ forall x,
           (held x s' + cnt D x + cnt N x
            = held x s + cnt (mappedReads records n) x)%nat.
Proof.
  induction records as [| r records IH]; intros n s s' Hs; cbn [pass1 mappedReads].
  all: (destruct (poolExhausted cfg n s); [discriminate |]).
  - intros [= <-]. exists [], []. cbn [map]. rewrite recabOf_nil, !app_nil_r.
    split; [reflexivity |]. split; [reflexivity |]. intros x. simpl. lia.
  - cbv zeta.
    destruct (SamFlag.isDuplicate (getFlag r) && negb (myForceFlag cfg));
      [discriminate |].
    assert (Hclean :
              let s2 := (let '(changed, s1) := hasPositionChanged r s in
                         if changed then cleanupPriorReads cfg (Some r) s1 else s1) in
              Holding cfg s2
              /\ exists N0,
                   myDupList s2 = myDupList s
                   /\ recabBuilt s2 = recabBuilt s ++ recabOf cfg (map snd N0)
                   /\ forall x, (held x s2 + cnt N0 x = held x s)%nat).
    { unfold hasPositionChanged.
      destruct (negb (lastReference s =? getReferenceID r)
                || (lastCoordinate s <? get0BasedPosition r)).
      - split.
        + apply cleanupPriorReads_Holding. revert Hs. now apply Holding_maps.
        + apply (fate_cleanup cfg (Some r)
                   (setLast (getReferenceID r) (get0BasedPosition r) s)).
      - split; [exact Hs |]. exists []. cbn [map]. rewrite recabOf_nil, app_nil_r.
        split; [reflexivity |]. split; [reflexivity |]. intros x. simpl. lia. }
    destruct (hasPositionChanged r s) as [changed s1].
    cbv zeta in Hclean.
    set (s2 := if changed then cleanupPriorReads cfg (Some r) s1 else s1) in *.
    destruct Hclean as (Hs2 & N0 & Hd0 & Hr0 & Hc0).
    destruct (SamFlag.isMapped (getFlag r)); cbn [negb].
    + destruct (checkDups cfg r (n + 1) s2) as [s3 |] eqn:Hc; [| discriminate].
      intros Hp.
      destruct (fate_checkDups _ _ _ _ _ Hs2 Hc) as (D1 & N1 & Hd1 & Hr1 & Hc1).
      destruct (IH _ _ _ (checkDups_Holding _ _ _ _ _ Hc Hs2) Hp)
        as (D2 & N2 & Hd2 & Hr2 & Hc2).
      exists (D1 ++ D2), (N0 ++ N1 ++ N2).
      split; [now rewrite Hd2, Hd1, Hd0, map_app, app_assoc |].
      split; [now rewrite Hr2, Hr1, Hr0, !map_app, !recabOf_app, !app_assoc |].
      intros x. specialize (Hc0 x). specialize (Hc1 x). specialize (Hc2 x).
      cbv iota. rewrite !count_occ_app. lia.
    + intros Hp.
      assert (Hs3 : Holding cfg (releaseRecord (Some r) s2)).
      { revert Hs2. destruct (releaseRecord_fields (Some r) s2) as (? & ? & ? & _).
        now apply Holding_maps. }
      destruct (IH _ _ _ Hs3 Hp) as (D2 & N2 & Hd2 & Hr2 & Hc2).
      exists D2, (N0 ++ N2).
      split; [rewrite Hd2; cbn [myDupList releaseRecord setReleased]; now rewrite Hd0 |].
      split; [rewrite Hr2, releaseRecord_recab, Hr0;
              now rewrite map_app, recabOf_app, app_assoc |].
      intros x. specialize (Hc0 x). specialize (Hc2 x).
      assert (Hsame : held x (releaseRecord (Some r) s2) = held x s2) by reflexivity.
      rewrite Hsame in Hc2. cbv iota. cbn [app]. rewrite count_occ_app. lia.
Qed.

Lemma mappedReads_bound records :
  forall n p, In p (mappedReads records n) -> n < p.1.
Proof.
  induction records as [| r records IH]; intros n p; cbn [mappedReads]; [intros [] |].
  intros Hin. apply in_app_or in Hin as [Hin | Hin].
  - destruct (SamFlag.isMapped (getFlag r)); [| destruct Hin].
    destruct Hin as [<- | []]. simpl. lia.
  - specialize (IH _ _ Hin). lia.
Qed.

Lemma mappedReads_once records :
  forall n x, (cnt (mappedReads records n) x <= 1)%nat.
Proof.
  induction records as [| r records IH]; intros n x; cbn [mappedReads]; [simpl; lia |].
  rewrite count_occ_app. specialize (IH (n + 1) x).
  destruct (SamFlag.isMapped (getFlag r)); [| simpl; lia].
  destruct (IRec_eq_dec (n + 1, r) x) as [<- | Hne].
  - assert (Hz : cnt (mappedReads records (n + 1)) (n + 1, r) = 0%nat).
    { apply count_occ_not_In. intros Hin.
      apply mappedReads_bound in Hin. simpl in Hin. lia. }
    rewrite Hz. rewrite count_occ_cons_eq by reflexivity. simpl. lia.
  - rewrite count_occ_cons_neq by exact Hne. simpl. lia.
Qed.

Lemma mappedReads_functional records :
  forall n a b,
    In a (mappedReads records n) -> In b (mappedReads records n) ->
    a.1 = b.1 -> a = b.
Proof.
  induction records as [| r records IH]; intros n a b; cbn [mappedReads]; [intros [] |].
  intros Ha Hb Heq.
  apply in_app_or in Ha as [Ha | Ha]; apply in_app_or in Hb as [Hb | Hb].
  - destruct (SamFlag.isMapped (getFlag r)); [| destruct Ha].
    destruct Ha as [<- | []]. destruct Hb as [<- | []]. reflexivity.
  - destruct (SamFlag.isMapped (getFlag r)); [| destruct Ha].
    destruct Ha as [<- | []]. apply mappedReads_bound in Hb. simpl in Heq. lia.
  - destruct (SamFlag.isMapped (getFlag r)); [| destruct Hb].
    destruct Hb as [<- | []]. apply mappedReads_bound in Ha. simpl in Heq. lia.
  - exact (IH _ _ _ Ha Hb Heq).
Qed.

Lemma count_occ_filter (f : Z * SamRecord -> bool) l x :
  cnt (List.filter f l) x = if f x then cnt l x else 0%nat.
Proof.
  induction l as [| a l IH]; cbn [List.filter]; [now destruct (f x) |].
  destruct (IRec_eq_dec a x) as [-> | Hne].
  - destruct (f x) eqn:Hf.
    + rewrite !count_occ_cons_eq by reflexivity. rewrite IH. reflexivity.
    + exact IH.
  - rewrite (count_occ_cons_neq _ l Hne).
    destruct (f a); [rewrite (count_occ_cons_neq _ _ Hne) |]; exact IH.
Qed.

Lemma listed_In dups index : listed dups index = true <-> In index dups.
Proof.
  unfold listed. rewrite existsb_exists. split.
  - intros (d & Hd & Heq). apply Z.eqb_eq in Heq. now subst d.
  - intros Hin. exists index. split; [exact Hin | apply Z.eqb_refl].
Qed.

(** When the reads [M], whose indices are distinct, were split into the reads
    [D] on the duplicate list and the others, the others are the reads of [M]
    whose index is not on the list. *)
Lemma decided_split (D NN M : list (Z * SamRecord)) (dups : list Z) :
  (forall x, (cnt D x + cnt NN x = cnt M x)%nat) ->
  (forall x, (cnt M x <= 1)%nat) ->
  (forall a b, In a M -> In b M -> a.1 = b.1 -> a = b) ->
  (forall i, In i dups <-> In i (map fst D)) ->
  Permutation NN (List.filter (fun p => negb (listed dups p.1)) M).
Proof.
  intros Hsum Honce Hfun Hdups.
  apply (Permutation_count_occ IRec_eq_dec). intros x.
  rewrite count_occ_filter. specialize (Hsum x) as Hx.
  destruct (listed dups x.1) eqn:Hl; cbn [negb].
  - apply listed_In, Hdups, in_map_iff in Hl as (d & Hfst & Hd).
    destruct (Nat.eq_dec (cnt NN x) 0%nat) as [Hz | Hnz]; [exact Hz | exfalso].
    assert (HxM : In x M) by (apply (count_occ_In IRec_eq_dec); lia).
    assert (HdM : In d M).
    { apply (count_occ_In IRec_eq_dec). specialize (Hsum d).
      apply (count_occ_In IRec_eq_dec) in Hd. lia. }
    assert (d = x) by (apply Hfun; assumption). subst d.
    apply (count_occ_In IRec_eq_dec) in Hd. specialize (Honce x). lia.
  - assert (Hz : cnt D x = 0%nat).
    { apply count_occ_not_In. intros Hd.
      assert (Hin : In x.1 dups) by (apply Hdups, in_map; exact Hd).
      apply listed_In in Hin. congruence. }
    lia.
Qed.

Lemma recabOf_Permutation cfg l1 l2 :
  Permutation l1 l2 -> Permutation (recabOf cfg l1) (recabOf cfg l2).
Proof.
  intros H. unfold recabOf. destruct (myDoRecab cfg); [| constructor].
  now apply Permutation_map.
Qed.

(** X15.  What the recalibration table is built from.  In a pass 1 that
    reads the whole input, followed by the final cleanup, every mapped record
    either has its index on the duplicate list or is handed to non-duplicate
    handling, never both: with recalibration on, the records passed to
    [processReadBuildTable] are the mapped records whose index is not on the
    duplicate list (without the duplicate flag in force mode), each once; with
    recalibration off there are none.  Every index on the duplicate list is
    that of a mapped record. *)
Theorem recalibration_table_input (cfg : Settings) (records : list SamRecord)
    (s : Dedup) :
  pass1 cfg records 0 initialDedup = Pass1Done s ->
  let s' := finishPass1 cfg s in
  Permutation (recabBuilt s') (recabOf cfg (nonDuplicates (myDupList s') records))
  /\ forall d, In d (myDupList s') -> exists r, In (d, r) (mappedReads records 0).
Proof.
  intros Hpass s'.
  destruct (fate_pass1 cfg records 0 initialDedup s (initialDedup_Holding cfg) Hpass)
    as (D & N & Hd & Hr & Hc).
  destruct (fate_cleanup cfg None s) as (N' & Hd' & Hr' & Hc').
  cbn [myDupList recabBuilt initialDedup app] in Hd, Hr.
  assert (Hempty : forall x, held x (cleanupPriorReads cfg None s) = 0%nat).
  { intros x. rewrite held_parts.
    destruct (cleanupPriorReads_maps cfg None s) as (_ & -> & -> & ->).
    reflexivity. }
  assert (Hsum : forall x,
             (cnt D x + cnt (N ++ N') x = cnt (mappedReads records 0) x)%nat).
  { intros x. specialize (Hc x). specialize (Hc' x). rewrite Hempty in Hc'.
    rewrite count_occ_app. change (held x initialDedup) with 0%nat in Hc. lia. }
  assert (Hdups : forall i, In i (myDupList s') <-> In i (map fst D)).
  { intros i. unfold s', finishPass1. cbn [myDupList setDupList].
    rewrite Hd', Hd, <- !list_elem_of_In. now rewrite merge_sort_Permutation. }
  split.
  - assert (Hrecab : recabBuilt s' = recabOf cfg (map snd (N ++ N'))).
    { unfold s', finishPass1. cbn [recabBuilt setDupList].
      now rewrite Hr', Hr, map_app, recabOf_app. }
    rewrite Hrecab. apply recabOf_Permutation. unfold nonDuplicates.
    apply Permutation_map.
    apply (decided_split D); [exact Hsum | apply mappedReads_once | | exact Hdups].
    apply mappedReads_functional.
  - intros d Hin. apply Hdups, in_map_iff in Hin as ([d' r] & <- & Hin).
    exists r. apply (count_occ_In IRec_eq_dec).
    apply (count_occ_In IRec_eq_dec) in Hin. specialize (Hsum (d', r)). simpl. lia.
Qed.

Lemma recalibration_table_input_witness :
  exists s,
    pass1 recabOptions twoPairs 0 initialDedup = Pass1Done s
    /\ Permutation (recabBuilt (finishPass1 recabOptions s))
         (recabOf recabOptions
            (nonDuplicates (myDupList (finishPass1 recabOptions s)) twoPairs)).
Proof.
  eexists. split; [vm_compute; reflexivity |].
  refine (proj1 (recalibration_table_input recabOptions twoPairs _ _)).
  vm_compute. reflexivity.
Defined.

(** X16.  A cleanup counts every mate that it takes out of the mate map as
    missing: when the waiting mates hold their records, as they do in a run,
    [myNumMissingMate] grows by the number of entries removed. *)
Theorem cleanup_counts_missing_mates (cfg : Settings) (record : option SamRecord)
    (s : Dedup) :
  (forall e, In e (myMateMap s) -> is_Some (recordPtr e.2)) ->
  let s' := cleanupPriorReads cfg record s in
  exists mateDone,
    myMateMap s = mateDone ++ myMateMap s'
    /\ myNumMissingMate s' = myNumMissingMate s + Z.of_nat (length mateDone).
Proof.
  intros Hhold s'.
  destruct (cleanupPriorReads_handled cfg record s)
    as (fragDone & pairDone & mateDone & _ & _ & Em & _ & Hn).
  exists mateDone. split; [exact Em |].
  fold s' in Hn. rewrite Hn. f_equal. f_equal.
  assert (Hall : forall e, In e mateDone -> is_Some (recordPtr e.2)).
  { intros e He. apply Hhold. rewrite Em. apply in_or_app. now left. }
  clear - Hall. induction mateDone as [| e m IH]; [reflexivity |].
  cbn [flat_map]. rewrite length_app, IH by (intros e' He'; apply Hall; now right).
  destruct (Hall e) as [r Hr]; [now left |]. unfold recM. rewrite Hr. reflexivity.
Qed.

Lemma cleanup_counts_missing_mates_witness :
  exists mateDone,
    myMateMap windowState
    = mateDone ++ myMateMap (cleanupPriorReads defaultOptions None windowState)
    /\ myNumMissingMate (cleanupPriorReads defaultOptions None windowState)
       = myNumMissingMate windowState + Z.of_nat (length mateDone).
Proof.
  apply (cleanup_counts_missing_mates defaultOptions None windowState).
  intros e [<- | [<- | []]]; cbn; eauto.
Defined.

(** ** The warnings about missing mates *)

Lemma OneShot_view s s' : warnView s' = warnView s -> OneShot s -> OneShot s'.
Proof.
  unfold warnView. intros [= E1 E2 E3 E4 E5] [H1 H2 H3 H4].
  constructor; rewrite ?E1, ?E2, ?E3, ?E4, ?E5; assumption.
Qed.

Lemma warnView_logLines w s :
  (forall l, In l w ->
     match l with
     | MateOnDifferentChromNotFound | MissingMateCannotBeChecked => False
     | _ => True
     end) ->
  warnView (logLines w s) = warnView s.
Proof.
  intros Hw. unfold warnView, differChromLines, sameChromLines, logLines.
  cbn [logged setLogged firstDifferChrom firstSameChrom myNumMissingMate].
  rewrite !List.filter_app, !length_app.
  assert (H1 : List.filter
                 (fun l => match l with MateOnDifferentChromNotFound => true
                                   | _ => false end) w = []).
  { clear - Hw. induction w as [| l w IH]; [reflexivity |].
    cbn [List.filter]. rewrite IH by (intros l' Hl'; apply Hw; now right).
    specialize (Hw l (or_introl eq_refl)). now destruct l. }
  assert (H2 : List.filter
                 (fun l => match l with MissingMateCannotBeChecked => true
                                   | _ => false end) w = []).
  { clear - Hw. induction w as [| l w IH]; [reflexivity |].
    cbn [List.filter]. rewrite IH by (intros l' Hl'; apply Hw; now right).
    specialize (Hw l (or_introl eq_refl)). now destruct l. }
  rewrite H1, H2. cbn [length]. now rewrite !Nat.add_0_r.
Qed.

Lemma getLibraryID_lines cfg record checkTags lib w :
  getLibraryID cfg record checkTags = Ok (lib, w) ->
  forall l, In l w ->
    match l with
    | MateOnDifferentChromNotFound | MissingMateCannotBeChecked => False
    | _ => True
    end.
Proof.
  unfold getLibraryID.
  destruct (negb checkTags && (numLibraries cfg <=? 1)); [intros [= <- <-] l [] |].
  destruct (scanRGTags _ _ _) as [v |]; cbn [mbind Result_bind]; [| discriminate].
  destruct (isEmpty v); [discriminate |].
  destruct (rgidLibMap cfg !! v); intros [= <- <-] l; [intros [] |].
  intros [<- | []]. exact I.
Qed.

Lemma warnView_releaseRecord p s : warnView (releaseRecord p s) = warnView s.
Proof. now destruct p. Qed.

Lemma warnView_handleNonDuplicate cfg p s :
  warnView (handleNonDuplicate cfg p s) = warnView s.
Proof.
  unfold handleNonDuplicate. destruct p as [r |]; [| reflexivity].
  now destruct (myDoRecab cfg).
Qed.

Lemma warnView_fragmentStep record n key recordPaired sumQual s :
  warnView (fragmentStep record n key recordPaired sumQual s) = warnView s.
Proof.
  unfold fragmentStep. rewrite om_insert_spec.
  destruct (om_lookup DupKey_ltb key (myFragmentMap s)) as [d |]; simpl.
  - destruct (negb (paired d) && (recordPaired || (sumQual >? sumBaseQual d)));
      [destruct (recordPtr d) | destruct recordPaired]; reflexivity.
  - reflexivity.
Qed.

Lemma warnView_pairedStep cfg record n key sumQual mateRecord mateIndex s s' :
  pairedStep cfg record n key sumQual mateRecord mateIndex s = Ok s' ->
  warnView s' = warnView s.
Proof.
  unfold pairedStep.
  destruct (getLibraryID cfg mateRecord checkTagsDefault) as [[lib w] |] eqn:Hlib;
    [| discriminate].
  cbn [mbind Result_bind]. cbv zeta. rewrite om_insert_spec.
  pose proof (warnView_logLines w s (getLibraryID_lines _ _ _ _ _ Hlib)) as Hw.
  cbn [fst snd].
  destruct (om_lookup PairedKey_ltb _ _) as [stored |]; cbn [negb fst snd].
  - destruct (keepStored stored sumQual mateIndex); intros [= <-];
      [exact Hw |].
    destruct (record1Ptr stored), (record2Ptr stored); exact Hw.
  - intros [= <-]. exact Hw.
Qed.

Lemma OneShot_handleMissingMate cfg p s :
  OneShot s -> OneShot (handleMissingMate cfg p s).
Proof.
  intros Hs. unfold handleMissingMate. destruct p as [r |]; [| exact Hs].
  cbv zeta. apply (OneShot_view _ _ (warnView_handleNonDuplicate cfg (Some r) _)).
  destruct Hs as [H1 H2 H3 H4].
  destruct (negb (getMateReferenceID r =? getReferenceID r));
    [destruct (firstDifferChrom s) eqn:Hfd | destruct (firstSameChrom s) eqn:Hfs];
    constructor;
    unfold differChromLines, sameChromLines in *;
    cbn [logged firstDifferChrom firstSameChrom myNumMissingMate setLogged
         setFirstFlags setNumMissingMate logLine];
    rewrite ?List.filter_app, ?length_app; cbn [List.filter length];
    rewrite ?Hfd, ?Hfs; cbv iota in *;
    try lia;
    try (destruct (firstSameChrom s); lia);
    try (destruct (firstDifferChrom s); lia);
    (split; [lia | intros [? ?]; congruence]).
Qed.

Lemma fold_left_OneShot {A} (g : Dedup -> A -> Dedup) (l : list A) (s : Dedup) :
  (forall s a, warnView (g s a) = warnView s) ->
  warnView (fold_left g l s) = warnView s.
Proof.
  intros Hg. revert s. induction l as [| a l IH]; simpl; intros s; [reflexivity |].
  now rewrite IH, Hg.
Qed.

Lemma cleanupMates_OneShot cfg bounded stop m s :
  OneShot s -> OneShot (cleanupMates cfg bounded stop m s).2.
Proof.
  revert s. induction m as [| e m IH]; simpl; intros s Hs; [exact Hs |].
  destruct (bounded && (e.1 >=? stop)); simpl; [exact Hs |].
  apply IH. now apply OneShot_handleMissingMate.
Qed.

Lemma cleanupPriorReads_OneShot cfg record s :
  OneShot s -> OneShot (cleanupPriorReads cfg record s).
Proof.
  intros Hs. unfold cleanupPriorReads.
  set (fragF := fun (s : Dedup) (e : DupKey * ReadData) =>
         if negb (paired e.2) then handleNonDuplicate cfg (recordPtr e.2) s else s).
  set (pairF := fun (s : Dedup) (e : PairedKey * PairedData) =>
         handleNonDuplicate cfg (record2Ptr e.2)
           (handleNonDuplicate cfg (record1Ptr e.2) s)).
  assert (HfragF : forall s a, warnView (fragF s a) = warnView s).
  { intros s0 a. unfold fragF. destruct (negb (paired a.2)); [| reflexivity].
    apply warnView_handleNonDuplicate. }
  assert (HpairF : forall s a, warnView (pairF s a) = warnView s).
  { intros s0 a. unfold pairF. now rewrite !warnView_handleNonDuplicate. }
  assert (Hgen : forall fragDone fragKept pairDone pairKept bounded stop,
             OneShot
               (let s1 := setFragmentMap fragKept (fold_left fragF fragDone s) in
                let s2 := setPairedMap pairKept (fold_left pairF pairDone s1) in
                let '(mateKept, s3) := cleanupMates cfg bounded stop (myMateMap s2) s2 in
                setMateMap mateKept s3)).
  { intros fragDone fragKept pairDone pairKept bounded stop. cbv zeta.
    match goal with
    | |- context [cleanupMates ?c ?b ?st ?m ?s0] =>
        assert (H3 : OneShot (cleanupMates c b st m s0).2);
        [| destruct (cleanupMates c b st m s0) as [mateKept s3];
           revert H3; apply OneShot_view; reflexivity]
    end.
    apply cleanupMates_OneShot.
    assert (H1 : OneShot (fold_left fragF fragDone s))
      by (revert Hs; apply OneShot_view; now apply fold_left_OneShot).
    assert (H1' : OneShot (setFragmentMap fragKept (fold_left fragF fragDone s)))
      by (revert H1; apply OneShot_view; reflexivity).
    assert (H2 : OneShot (fold_left pairF pairDone
                            (setFragmentMap fragKept (fold_left fragF fragDone s))))
      by (revert H1'; apply OneShot_view; now apply fold_left_OneShot).
    revert H2. apply OneShot_view. reflexivity. }
  destruct record as [r |]; cbv zeta.
  - destruct (om_split DupKey_ltb _ (myFragmentMap s)) as [fragDone fragKept].
    destruct (om_split PairedKey_ltb _ (myPairedMap s)) as [pairDone pairKept].
    apply Hgen.
  - apply Hgen.
Qed.

Lemma checkDups_OneShot cfg record n s s' :
  checkDups cfg record n s = Ok s' -> OneShot s -> OneShot s'.
Proof.
  intros H Hs.
  destruct (checkDups_cases _ _ _ _ _ H) as (lib & w & Hlib & Hc). cbv zeta in Hc.
  set (s1 := fragmentStep record n (updateKey record lib)
               (isRecordPaired cfg record) (getBaseQuality cfg record)
               (logLines w s)) in *.
  assert (H1 : OneShot s1).
  { revert Hs. apply OneShot_view. unfold s1.
    rewrite warnView_fragmentStep. apply warnView_logLines.
    exact (getLibraryID_lines _ _ _ _ _ Hlib). }
  destruct Hc as [[_ ->] | [_ [-> | [-> | (mateData & rest & mate & _ & _ & Hp)]]]].
  - exact H1.
  - revert H1. apply OneShot_view. reflexivity.
  - now apply OneShot_handleMissingMate.
  - apply warnView_pairedStep in Hp. revert H1. apply OneShot_view.
    rewrite Hp. reflexivity.
Qed.

Lemma pass1_OneShot cfg records :
  forall n s s', OneShot s -> pass1 cfg records n s = Pass1Done s' -> OneShot s'.
Proof.
  induction records as [| r records IH]; intros n s s' Hs; cbn [pass1].
  all: (destruct (poolExhausted cfg n s); [discriminate |]).
  - now intros [= <-].
  - cbv zeta.
    destruct (SamFlag.isDuplicate (getFlag r) && negb (myForceFlag cfg));
      [discriminate |].
    assert (Hs2 : OneShot
                    (let '(changed, s1) := hasPositionChanged r s in
                     if changed then cleanupPriorReads cfg (Some r) s1 else s1)).
    { unfold hasPositionChanged.
      destruct (negb (lastReference s =? getReferenceID r)
                || (lastCoordinate s <? get0BasedPosition r)); [| exact Hs].
      apply cleanupPriorReads_OneShot. revert Hs. apply OneShot_view. reflexivity. }
    destruct (hasPositionChanged r s) as [changed s1].
    destruct (negb (SamFlag.isMapped (getFlag r))).
    + apply IH. revert Hs2. apply OneShot_view. reflexivity.
    + destruct (checkDups cfg r (n + 1) _) as [s3 |] eqn:Hc; [| discriminate].
      apply IH. exact (checkDups_OneShot _ _ _ _ _ Hc Hs2).
Qed.

Lemma libraryWarnings_lines header :
  forall l, In l (libraryWarnings header) ->
    match l with
    | MateOnDifferentChromNotFound | MissingMateCannotBeChecked => False
    | _ => True
    end.
Proof.
  intros l Hin. unfold libraryWarnings in Hin.
  apply in_flat_map in Hin as (rg & _ & Hin).
  destruct (isEmpty (rgLB rg)); [| destruct Hin].
  destruct Hin as [<- | []]. exact I.
Qed.

(** X17.  The two warnings about missing mates are one-shot.  In a run that
    completes pass 1, each of the two lines of [handleMissingMate] ("mate on
    different chromosome was not found", "records with missing mate can't be
    checked") is written at most once, [myNumMissingMate] is at least the
    number of lines written, and it is 0 exactly when neither line was
    written. *)
Theorem missing_mate_warnings_once (cfg : Settings) (header : list RGRecord)
    (records : list SamRecord) (s : Dedup) :
  pass1 cfg records 0 (logLines (libraryWarnings header) initialDedup)
  = Pass1Done s ->
  let s' := finishPass1 cfg s in
  (differChromLines s' <= 1)%nat
  /\ (sameChromLines s' <= 1)%nat
  /\ Z.of_nat (differChromLines s' + sameChromLines s') <= myNumMissingMate s'
  /\ (myNumMissingMate s' = 0
      <-> (differChromLines s' + sameChromLines s' = 0)%nat).
Proof.
  intros Hpass s'.
  assert (H0 : OneShot (logLines (libraryWarnings header) initialDedup)).
  { apply (OneShot_view initialDedup).
    - apply warnView_logLines, libraryWarnings_lines.
    - constructor; cbn; try reflexivity; try lia. }
  pose proof (pass1_OneShot _ _ _ _ _ H0 Hpass) as Hs.
  assert (Hs' : OneShot s').
  { unfold s', finishPass1.
    apply (OneShot_view (cleanupPriorReads cfg None s)); [reflexivity |].
    now apply cleanupPriorReads_OneShot. }
  destruct Hs' as [H1 H2 H3 H4].
  split; [rewrite H1; destruct (firstDifferChrom s'); lia |].
  split; [rewrite H2; destruct (firstSameChrom s'); lia |].
  split; [exact H3 |].
  rewrite H4, H1, H2.
  destruct (firstDifferChrom s'), (firstSameChrom s'); cbn; intuition congruence.
Qed.

Lemma missing_mate_warnings_once_witness :
  exists s,
    pass1 defaultOptions [lateMate] 0 (logLines (libraryWarnings []) initialDedup)
    = Pass1Done s
    /\ (differChromLines (finishPass1 defaultOptions s) <= 1)%nat
    /\ (sameChromLines (finishPass1 defaultOptions s) <= 1)%nat
    /\ Z.of_nat (differChromLines (finishPass1 defaultOptions s)
                 + sameChromLines (finishPass1 defaultOptions s))
       <= myNumMissingMate (finishPass1 defaultOptions s)
    /\ (myNumMissingMate (finishPass1 defaultOptions s) = 0
        <-> (differChromLines (finishPass1 defaultOptions s)
             + sameChromLines (finishPass1 defaultOptions s) = 0)%nat).
Proof.
  eexists. split; [vm_compute; reflexivity |].
  apply (missing_mate_warnings_once defaultOptions [] [lateMate]).
  vm_compute. reflexivity.
Defined.

(** ** The duplicate flag in the output *)

Lemma isDuplicate_set flag : SamFlag.isDuplicate (Z.lor flag 0x400) = true.
Proof.
  unfold SamFlag.isDuplicate, SamFlag.bitSet, SamFlag.DUPLICATE.
  rewrite Z.land_lor_distr_l. change (Z.land 0x400 0x400) with 0x400.
  apply negb_true_iff, Z.eqb_neq. intros H.
  apply Z.lor_eq_0_iff in H as [_ H]. discriminate.
Qed.

Lemma isDuplicate_cleared flag :
  SamFlag.isDuplicate (Z.land flag 0xfffffbff) = false.
Proof.
  unfold SamFlag.isDuplicate, SamFlag.bitSet, SamFlag.DUPLICATE.
  rewrite <- Z.land_assoc. change (Z.land 0xfffffbff 0x400) with 0.
  now rewrite Z.land_0_r.
Qed.

Lemma other_bits_set flag n : n <> 10 -> Z.testbit (Z.lor flag 0x400) n = Z.testbit flag n.
Proof.
  intros Hn. rewrite Z.lor_spec.
  change 0x400 with (2 ^ 10). rewrite Z.pow2_bits_eqb by lia.
  destruct (Z.eqb_spec 10 n); [congruence | apply orb_false_r].
Qed.

Lemma other_bits_cleared flag n :
  n <> 10 -> n < 32 -> Z.testbit (Z.land flag 0xfffffbff) n = Z.testbit flag n.
Proof.
  intros Hn Hlt. rewrite Z.land_spec.
  destruct (Z.ltb_spec n 0) as [Hneg | Hpos].
  - now rewrite !Z.testbit_neg_r by lia.
  - assert (Hbit : Z.testbit 0xfffffbff n = true).
    { change 0xfffffbff with (Z.lxor (Z.ones 32) (2 ^ 10)).
      rewrite Z.lxor_spec, Z.ones_spec_low, Z.pow2_bits_eqb by lia.
      destruct (Z.eqb_spec 10 n); [congruence | reflexivity]. }
    rewrite Hbit. apply andb_true_r.
Qed.

Lemma setFlag_back (r : SamRecord) f : setFlag (setFlag r f) (getFlag r) = r.
Proof. now destruct r. Qed.

(** The record that pass 2 writes for a record that it does not drop. *)
Lemma expectedOutput_keep cfg table dups :
  removeFlag cfg = false ->
  forall records n,
    length (expectedOutput cfg table dups records n) = length records
    /\ forall (i : nat) r,
         records !! i = Some r ->
         expectedOutput cfg table dups records n !! i
         = Some (recalibrate cfg table
                   (flagged cfg (listed dups (n + Z.of_nat i + 1)) r)).
Proof.
  intros Hkeep. induction records as [| r0 records IH]; intros n.
  - split; [reflexivity | intros i r H; discriminate].
  - destruct (IH (n + 1)) as [Hlen Hat]. cbn [expectedOutput].
    unfold writtenFor. rewrite Hkeep, andb_false_r.
    cbn [app length]. split; [now rewrite Hlen |].
    intros [| i] r Hr.
    + cbn in Hr. injection Hr as <-.
      now replace (n + Z.of_nat 0 + 1) with (n + 1) by lia.
    + cbn in Hr. specialize (Hat i r Hr).
      replace (n + 1 + Z.of_nat i + 1) with (n + Z.of_nat (S i) + 1) in Hat by lia.
      exact Hat.
Qed.

(** With duplicates removed, pass 2 writes only records that are not
    listed. *)
Lemma expectedOutput_removed cfg table dups :
  removeFlag cfg = true ->
  forall records n w,
    In w (expectedOutput cfg table dups records n) ->
    exists r, In r records /\ w = recalibrate cfg table (flagged cfg false r).
Proof.
  intros Hrm. induction records as [| r0 records IH]; intros n w; [intros [] |].
  cbn [expectedOutput]. intros Hin. apply in_app_or in Hin as [Hin | Hin].
  - unfold writtenFor in Hin. rewrite Hrm, andb_true_r in Hin.
    destruct (listed dups (n + 1)); [destruct Hin |].
    destruct Hin as [<- | []]. exists r0. split; [now left | reflexivity].
  - destruct (IH _ _ Hin) as (r & Hr & Hw). exists r. split; [now right | exact Hw].
Qed.

Lemma execute_Finished opts header records s written single paired :
  execute opts header records = Finished s written single paired ->
  exists libs k warned s1,
    buildReadGroupLibraryMap header = Ok (libs, k, warned)
    /\ pass1 (withLibraries opts libs k) records 0 (logLines warned initialDedup)
       = Pass1Done s1
    /\ s = finishPass1 (withLibraries opts libs k) s1
    /\ written = expectedOutput opts (recabBuilt s) (myDupList s) records 0.
Proof.
  unfold execute.
  destruct (buildReadGroupLibraryMap header) as [[[libs k] warned] |];
    [| discriminate].
  destruct (pass1 _ records 0 _) as [s1 |] eqn:Hpass; [| discriminate].
  destruct (pass1_dupList _ records (logLines warned initialDedup) s1
              (eq_refl : trackedIndices (logLines warned initialDedup) = [])
              Hpass) as (Hs & Hrange & _).
  pose proof (pass2_from_start (withLibraries opts libs k)
                (recabBuilt (finishPass1 (withLibraries opts libs k) s1))
                (myDupList (finishPass1 (withLibraries opts libs k) s1)) records
                Hs Hrange) as Hout.
  cbv zeta in Hout.
  set (dups := myDupList (finishPass1 (withLibraries opts libs k) s1)) in *.
  destruct (Z.eqb_spec (List.last dups (Z.of_nat (length records)))
              (Z.of_nat (length records))) as [Heq | Hne].
  - destruct Hout as (sg & pr & -> & _). intros [= <- <- _ _].
    exists libs, k, warned, s1.
    split; [reflexivity |]. split; [exact Hpass |]. split; [reflexivity |].
    apply expectedOutput_withLibraries.
  - rewrite Hout. discriminate.
Qed.

(** The flag of a record once pass 2 has settled it. *)
Lemma flagged_spec cfg isDup r :
  (myForceFlag cfg = false -> SamFlag.isDuplicate (getFlag r) = false) ->
  SamFlag.isDuplicate (getFlag (flagged cfg isDup r)) = isDup
  /\ setFlag (flagged cfg isDup r) (getFlag r) = r
  /\ forall n, n <> 10 -> n < 32 ->
       Z.testbit (getFlag (flagged cfg isDup r)) n = Z.testbit (getFlag r) n.
Proof.
  intros Hclean. unfold flagged. destruct isDup.
  - split; [apply isDuplicate_set |]. split; [apply setFlag_back |].
    intros n Hn _. now apply other_bits_set.
  - destruct (myForceFlag cfg).
    + split; [apply isDuplicate_cleared |]. split; [apply setFlag_back |].
      intros n Hn Hlt. now apply other_bits_cleared.
    + split; [now apply Hclean |]. split; [now destruct r | reflexivity].
Qed.

(** X18.  The duplicate flag in the output of a run that finishes.  Each
    written record is a record [w0] whose flag pass 2 has settled, passed
    through [processReadApplyTable] when recalibration is on and written as it
    is otherwise.  When duplicates are removed, no [w0] carries the duplicate
    flag.  Otherwise there is one for every record of the input, in its place,
    with the duplicate flag set exactly when its index is on the duplicate
    list; the rest of [w0] and its other flag bits (of the 32 that the masks
    cover) are as the record was read. *)
Theorem output_duplicate_flags (opts : Settings) (header : list RGRecord)
    (records : list SamRecord) (s : Dedup) (written : list SamRecord)
    (single paired : Z) :
  execute opts header records = Finished s written single paired ->
  (myDoRecab opts = false -> forall w0, recalibrate opts (recabBuilt s) w0 = w0)
  /\ (removeFlag opts = true ->
      forall w, In w written ->
        exists w0,
          w = recalibrate opts (recabBuilt s) w0
          /\ SamFlag.isDuplicate (getFlag w0) = false)
  /\ (removeFlag opts = false ->
      length written = length records
      /\ forall (i : nat) r,
           records !! i = Some r ->
           exists w0,
             written !! i = Some (recalibrate opts (recabBuilt s) w0)
             /\ SamFlag.isDuplicate (getFlag w0)
                = listed (myDupList s) (Z.of_nat i + 1)
             /\ setFlag w0 (getFlag r) = r
             /\ forall n, n <> 10 -> n < 32 ->
                  Z.testbit (getFlag w0) n = Z.testbit (getFlag r) n).
Proof.
  intros Hrun.
  destruct (execute_Finished _ _ _ _ _ _ _ Hrun)
    as (libs & k & warned & s1 & _ & Hpass & _ & ->).
  assert (Hclean : forall r, In r records ->
             myForceFlag opts = false -> SamFlag.isDuplicate (getFlag r) = false).
  { intros r Hr Hforce.
    assert (H0 : Holding (withLibraries opts libs k) (logLines warned initialDedup))
      by (apply (Holding_maps _ initialDedup); try reflexivity;
          apply initialDedup_Holding).
    pose proof (pass1_aborts (withLibraries opts libs k) records 0 _ H0) as Hab.
    rewrite Hpass in Hab. destruct Hab as [_ Hall]. specialize (Hall r Hr).
    unfold offence in Hall. cbn [myForceFlag withLibraries] in Hall.
    rewrite Hforce in Hall. cbn [negb] in Hall.
    destruct (SamFlag.isDuplicate (getFlag r)); [discriminate | reflexivity]. }
  split; [| split].
  - intros Hoff w0. unfold recalibrate. now rewrite Hoff.
  - intros Hrm w Hw.
    destruct (expectedOutput_removed opts (recabBuilt s) (myDupList s) Hrm _ _ _ Hw)
      as (r & Hr & ->).
    exists (flagged opts false r). split; [reflexivity |].
    apply (flagged_spec opts false r (Hclean r Hr)).
  - intros Hkeep.
    destruct (expectedOutput_keep opts (recabBuilt s) (myDupList s) Hkeep records 0)
      as [Hlen Hat].
    split; [exact Hlen |]. intros i r Hr. rewrite (Hat i r Hr).
    exists (flagged opts (listed (myDupList s) (0 + Z.of_nat i + 1)) r).
    split; [reflexivity |].
    change (0 + Z.of_nat i + 1) with (Z.of_nat i + 1).
    apply flagged_spec. apply Hclean.
    apply list_elem_of_In. now apply (list_elem_of_lookup_2 _ i).
Qed.

Lemma output_duplicate_flags_witness :
  exists s written,
    execute recabOptions [] twoPairs = Finished s written 0 2
    /\ length written = length twoPairs.
Proof.
  eexists; eexists. split; [vm_compute; reflexivity |].
  refine (proj1 (proj2 (proj2 (output_duplicate_flags recabOptions [] twoPairs
                                 _ _ 0 2 _)) eq_refl)).
  vm_compute. reflexivity.
Defined.

(** ** The remembered position *)

(** X19.  [hasPositionChanged] keeps a high-water mark.  After the call the
    remembered reference is the record's and the remembered coordinate is at
    or past the record's; when it reports no change the engine is as it was.
    A following record on the same reference at the same or a smaller
    coordinate reports no change, so it triggers no cleanup and leaves the
    mark alone. *)
Theorem position_high_water (record : SamRecord) (s : Dedup) :
  let changed := (hasPositionChanged record s).1 in
  let s' := (hasPositionChanged record s).2 in
  lastReference s' = getReferenceID record
  /\ get0BasedPosition record <= lastCoordinate s'
  /\ (changed = false -> s' = s)
  /\ sameTracking s s'
  /\ forall next,
       getReferenceID next = getReferenceID record ->
       get0BasedPosition next <= get0BasedPosition record ->
       hasPositionChanged next s' = (false, s').
Proof.
  unfold hasPositionChanged. cbv zeta.
  destruct (Z.eqb_spec (lastReference s) (getReferenceID record)) as [Href | Href];
    cbn [negb orb].
  - destruct (Z.ltb_spec (lastCoordinate s) (get0BasedPosition record)) as [Hlt | Hge];
      cbn [fst snd lastReference lastCoordinate setLast].
    + split; [reflexivity |]. split; [lia |].
      split; [discriminate |]. split; [repeat split |].
      intros next Hr Hp. rewrite Hr, Z.eqb_refl. cbn [negb orb].
      destruct (Z.ltb_spec (get0BasedPosition record) (get0BasedPosition next));
        [lia | reflexivity].
    + split; [exact Href |]. split; [exact Hge |].
      split; [reflexivity |]. split; [repeat split |].
      intros next Hr Hp. rewrite Hr, Href, Z.eqb_refl. cbn [negb orb].
      destruct (Z.ltb_spec (lastCoordinate s) (get0BasedPosition next));
        [lia | reflexivity].
  - cbn [fst snd lastReference lastCoordinate setLast].
    split; [reflexivity |]. split; [lia |].
    split; [discriminate |]. split; [repeat split |].
    intros next Hr Hp. rewrite Hr, Z.eqb_refl. cbn [negb orb].
    destruct (Z.ltb_spec (get0BasedPosition record) (get0BasedPosition next));
      [lia | reflexivity].
Qed.
